(** * Human-or-robot bidding pipeline: aggregation, join, scaling, selection, bagging

    A shallow embedding of the notebook [facebook_notebook.ipynb].  Data
    frames are lists of records, one record per row, in row order.  A cell
    that can hold pandas' missing value (NaN) is an [option]; timestamps
    are integers; every other number is a rational.  The scaler and the
    percentile of the selection take the rounding of their float64
    operations as a parameter, which can be the rounding of the run or
    none; the statistics of the time differences and the mean of the bag
    are in exact arithmetic.  The calls into pandas, numpy,
    scikit-learn and scipy are written out as the list functions they
    compute; the gradient-boosted classifier, the chi-squared scores and
    the text vectorizer are parameters. *)

From Stdlib Require Import ZArith QArith Qabs Qround Lia Lqa.
From Stdlib Require Import Ascii String List Permutation.
From Stdlib Require Import Sorting.Sorted OrderedTypeEx.
From stdpp Require Import gmap strings list sorting pretty.

Local Open Scope string_scope.
Local Open Scope Z_scope.

(** ** Strings: the regex replacement, the join and the tokenizer *)

(** [re.sub(' ', '', s)], what [replace({' ': ''}, regex = True)] applies
    to every string cell. *)
Fixpoint remove_spaces (s : string) : string :=
  match s with
  | EmptyString => EmptyString
  | String c r =>
      if Ascii.eqb c " " then remove_spaces r else String c (remove_spaces r)
  end.

Fixpoint has_space (s : string) : bool :=
  match s with
  | EmptyString => false
  | String c r => Ascii.eqb c " " || has_space r
  end.

Definition no_space (s : string) : Prop := has_space s = false.

(** [' '.join(x)] *)
Definition join (l : list string) : string := String.concat " " l.

(** The custom tokenizer of the notebook, [x.split(' ')]: it cuts at every
    single space, and the empty string gives one empty token. *)
Fixpoint tokens (x : string) : list string :=
  match x with
  | EmptyString => [EmptyString]
  | String c r =>
      if Ascii.eqb c " " then EmptyString :: tokens r
      else match tokens r with
           | [] => [String c EmptyString]
           | t :: ts => String c t :: ts
           end
  end.

(** ** The bid log *)

Record bid_row := {
  bid_id : Z;
  bidder_id : string;
  auction : option string;
  merchandise : option string;
  device : option string;
  time : Z;
  country : option string;
  ip : option string;
  url : option string
}.

(** Cell 3: [df_bids.replace({' ': ''}, regex = True)].  The integer
    columns [bid_id] and [time] are left as they are. *)
Definition normalize_row (r : bid_row) : bid_row :=
  {| bid_id := bid_id r;
     bidder_id := remove_spaces (bidder_id r);
     auction := remove_spaces <$> auction r;
     merchandise := remove_spaces <$> merchandise r;
     device := remove_spaces <$> device r;
     time := time r;
     country := remove_spaces <$> country r;
     ip := remove_spaces <$> ip r;
     url := remove_spaces <$> url r |}.

Definition normalize (df : list bid_row) : list bid_row := normalize_row <$> df.

(** A sort that keeps elements that compare equal in their input order:
    every element goes before the first one that is not smaller. *)
Section StableSort.
Context {A : Type} (leb : A -> A -> bool).

Fixpoint insert_sorted (x : A) (l : list A) : list A :=
  match l with
  | [] => [x]
  | y :: ys => if leb x y then x :: y :: ys else y :: insert_sorted x ys
  end.

Definition stable_sort (l : list A) : list A := foldr insert_sorted [] l.
End StableSort.

(** The cells of a row of the bid log that hold strings. *)
Definition string_cells (r : bid_row) : list string :=
  bidder_id r
    :: omap id [auction r; merchandise r; device r; country r; ip r; url r].

(** Cell 4: [df_bids.sort(['bidder_id', 'time'], ascending = [True, True])].
    With more than one key pandas sorts through a lexicographic indexer,
    which keeps rows with equal keys in their input order. *)
Definition row_leb (r1 r2 : bid_row) : bool :=
  match String.compare (bidder_id r1) (bidder_id r2) with
  | Lt => true
  | Eq => time r1 <=? time r2
  | Gt => false
  end.

Definition sort_rows (df : list bid_row) : list bid_row := stable_sort row_leb df.

(** The events of one bidder, in the order they have in a table. *)
Definition events_of (a : string) (df : list bid_row) : list bid_row :=
  filter (λ r, bidder_id r = a) df.

(** The rows of the file [bids.csv] that belong to the bidder [a] of the
    aggregated table: cell 3 takes the spaces out of the ids as well, so
    they are the rows whose id is [a] once its spaces are removed. *)
Definition raw_events (a : string) (log : list bid_row) : list bid_row :=
  filter (λ e, remove_spaces (bidder_id e) = a) log.

(** [l'] has the events [l] in ascending order of [time], those with the
    same [time] in the order they have in [l]. *)
Definition chronological (l l' : list bid_row) : Prop :=
  l' ≡ₚ l
  ∧ StronglySorted (λ r1 r2, time r1 <= time r2) l'
  ∧ ∀ t, filter (λ r, time r = t) l' = filter (λ r, time r = t) l.

(** [Series.unique()]: the distinct values in order of first appearance. *)
Fixpoint unique_from (seen : gset string) (l : list string) : list string :=
  match l with
  | [] => []
  | x :: xs =>
      if decide (x ∈ seen) then unique_from seen xs
      else x :: unique_from ({[ x ]} ∪ seen) xs
  end.

Definition unique (l : list string) : list string := unique_from ∅ l.

(** ** Time differences (cell 7) *)

(** How [astype(str)] prints a float64 that is not NaN.  Python's float
    formatting is not modelled; what is used of it below is that it prints
    no space. *)
Class FloatStr := float_str : Z -> string.

(** [groupby('bidder_id')['time'].diff()]: each row gets its time minus the
    time of the previous row of the same bidder, and NaN when there is
    none.  [last] maps a bidder to the time of its latest row so far. *)
Fixpoint groupby_diff (last : gmap string Z) (df : list bid_row) : list (option Z) :=
  match df with
  | [] => []
  | r :: rs =>
      ((λ p, time r - p) <$> last !! bidder_id r)
        :: groupby_diff (<[bidder_id r := time r]> last) rs
  end.

(** [Series.diff()] within one group whose times are [ts], [prev] being
    the time of the row before, if there is one. *)
Fixpoint diff_from (prev : option Z) (ts : list Z) : list (option Z) :=
  match ts with
  | [] => []
  | t :: ts' => ((λ p, t - p) <$> prev) :: diff_from (Some t) ts'
  end.

Definition series_diff (ts : list Z) : list (option Z) := diff_from None ts.

(** [astype(str)] on a float column: every cell becomes the string that
    [str] prints, and NaN prints as [nan]. *)
Definition astype_str `{FloatStr} (d : option Z) : option string :=
  Some (match d with
        | None => "nan"
        | Some z => float_str z
        end).

(** [fillna(v)] on one cell: a missing cell becomes [v]. *)
Definition fillna {A} (v : A) (c : option A) : A :=
  match c with
  | None => v
  | Some x => x
  end.

(** A row of [df_bids_sorted] once the two time-difference columns are
    there. *)
Record frame_row := {
  base : bid_row;
  timediff_num : option Z;
  timediff : string
}.

Definition bidder (r : frame_row) : string := bidder_id (base r).

Definition add_timediff `{FloatStr} (df : list bid_row) : list frame_row :=
  zip_with (λ r d, {| base := r;
                      timediff_num := d;
                      timediff := fillna "" (astype_str d) |})
           df (groupby_diff ∅ df).

(** [df_bids_sorted] as cell 8 reads it. *)
Definition df_bids_sorted `{FloatStr} (df_bids : list bid_row) : list frame_row :=
  add_timediff (sort_rows (normalize df_bids)).

(** ** The aggregation loop (cell 8) *)

(** [text_cols = ['auction', 'merchandise', 'device', 'timediff', 'country',
    'ip', 'url']] *)
Inductive text_col :=
  | Auction | Merchandise | Device | Timediff | Country | Ip | Url.

Definition text_cols : list text_col :=
  [Auction; Merchandise; Device; Timediff; Country; Ip; Url].

Definition col_name (var : text_col) : string :=
  match var with
  | Auction => "auction"
  | Merchandise => "merchandise"
  | Device => "device"
  | Timediff => "timediff"
  | Country => "country"
  | Ip => "ip"
  | Url => "url"
  end.

(** [df_bids_sorted[var]] before the loop touches it. *)
Definition raw_cell (var : text_col) (r : frame_row) : option string :=
  match var with
  | Auction => auction (base r)
  | Merchandise => merchandise (base r)
  | Device => device (base r)
  | Timediff => Some (timediff r)
  | Country => country (base r)
  | Ip => ip (base r)
  | Url => url (base r)
  end.

(** The columns of [text_cols] that are columns of the file, each with
    its field of a row of the file. *)
Definition file_columns : list (text_col * (bid_row -> option string)) :=
  [(Auction, auction); (Merchandise, merchandise); (Device, device);
   (Country, country); (Ip, ip); (Url, url)].

(** [var + "_" + df_bids_sorted[var].fillna("")], the cell the loop writes
    back: the token the row gives to the fingerprint of the column. *)
Definition cell (var : text_col) (r : frame_row) : string :=
  col_name var +:+ "_" +:+ fillna "" (raw_cell var r).

(** The rows of one group of [groupby('bidder_id')], in frame order. *)
Definition group (a : string) (df : list frame_row) : list frame_row :=
  filter (λ r, bidder r = a) df.

(** The group keys, [df_bids_sorted['bidder_id'].unique()], which are also
    the index of [bids] (cell 5). *)
Definition bidders (df : list frame_row) : list string := unique (bidder <$> df).

(** Missing cells dropped, as the pandas reductions do first. *)
Definition dropna {A} (l : list (option A)) : list A := omap id l.

(** [.apply(lambda x: "%s" % ' '.join(x))] on one group. *)
Definition text_of (var : text_col) (g : list frame_row) : string :=
  join (cell var <$> g).

(** [.nunique()] on one group: the number of distinct cells that are not
    missing. *)
Definition nunique (l : list (option string)) : nat := length (unique (dropna l)).

(** The cardinality of the set of the values of a column, a missing
    cell being no value. *)
Definition distinct_values (l : list (option string)) : nat :=
  size (list_to_set (dropna l) : gset string).

(** The same with the missing cell taken as one more value. *)
Definition distinct_cells (l : list (option string)) : nat :=
  size (list_to_set l : gset (option string)).

Definition nunique_of (var : text_col) (g : list frame_row) : nat :=
  nunique (Some <$> (cell var <$> g)).

(** ** Time statistics (cell 9) *)

(** [.max()] and [.min()] of one group of a numeric column: NaN cells are
    skipped, and a group with no other cell gives NaN. *)
Definition series_max (l : list (option Z)) : option Z :=
  match dropna l with
  | [] => None
  | x :: xs => Some (foldl Z.max x xs)
  end.

Definition series_min (l : list (option Z)) : option Z :=
  match dropna l with
  | [] => None
  | x :: xs => Some (foldl Z.min x xs)
  end.

Definition Qsum (l : list Q) : Q := foldr Qplus 0%Q l.

(** [.mean()] of a column: the mean of the cells that are not NaN, and
    NaN when there is none. *)
Definition series_mean (l : list (option Q)) : option Q :=
  match dropna l with
  | [] => None
  | xs => Some (Qsum xs / inject_Z (Z.of_nat (length xs)))%Q
  end.

(** [s.fillna(s.mean())]; filling with NaN changes nothing. *)
Definition fillna_mean (l : list (option Q)) : list (option Q) :=
  match series_mean l with
  | None => l
  | Some m => (λ c, Some (fillna m c)) <$> l
  end.

(** A per-bidder series, the result of a [groupby] reduction: one value
    per group key, in key order. *)
Definition groupby_agg {A} (f : list frame_row -> A) (df : list frame_row)
  : list (string * A) :=
  (λ a, (a, f (group a df))) <$> bidders df.

Definition values {A} (s : list (string * A)) : list A := snd <$> s.

(** Assigning a per-bidder series to a column of [bids] aligns it on the
    index; [at_key] reads the cell of one bidder. *)
Definition at_key {A} (s : list (string * A)) (a : string) : option A :=
  (λ p, snd (snd p)) <$> list_find (λ p, fst p = a) s.

Definition fill_series (s : list (string * option Q)) : list (string * option Q) :=
  zip (fst <$> s) (fillna_mean (values s)).

Definition group_max_diff (g : list frame_row) : option Q :=
  inject_Z <$> series_max (timediff_num <$> g).

(** [max_diff], lines 201-202. *)
Definition max_diff (df : list frame_row) : list (string * option Q) :=
  fill_series (groupby_agg group_max_diff df).

(** [min_diff], lines 204-205.  The source takes [.max()] here too. *)
Definition min_diff (df : list frame_row) : list (string * option Q) :=
  fill_series (groupby_agg group_max_diff df).

(** [range_diff = max_diff - min_diff], cell by cell; NaN propagates. *)
Definition Qsub_cell (x y : option Q) : option Q :=
  match x, y with
  | Some p, Some q => Some (p - q)%Q
  | _, _ => None
  end.

Definition range_diff (df : list frame_row) : list (string * option Q) :=
  zip (fst <$> max_diff df)
      (zip_with Qsub_cell (values (max_diff df)) (values (min_diff df))).

(** ** The aggregated table [bids] *)

(** One row of [bids], with the text, unique-count and difference columns.
    The count, time and mean columns are kept as series of their own
    further down; the median and quantile columns are left out. *)
Record agg_row := {
  agg_bidder : string;
  text : text_col -> string;
  nunique_num : text_col -> nat;
  maxdiff_num : option Q;
  mindiff_num : option Q;
  rangediff_num : option Q
}.

Definition cell_of (s : list (string * option Q)) (a : string) : option Q :=
  at_key s a ≫= id.

Definition agg_of (df : list frame_row) (a : string) : agg_row :=
  {| agg_bidder := a;
     text := λ var, text_of var (group a df);
     nunique_num := λ var, nunique_of var (group a df);
     maxdiff_num := cell_of (max_diff df) a;
     mindiff_num := cell_of (min_diff df) a;
     rangediff_num := cell_of (range_diff df) a |}.

Definition bids `{FloatStr} (df_bids : list bid_row) : list agg_row :=
  agg_of (df_bids_sorted df_bids) <$> bidders (df_bids_sorted df_bids).

(** ** Rosters and the join (cells 10 to 14) *)

(** A row of [train.csv]; the [outcome] cell of a malformed row may be
    empty. *)
Record train_row := {
  train_bidder_id : string;
  train_payment_account : option string;
  train_address : option string;
  train_outcome : option Q
}.

(** A row of [test.csv], which has no [outcome] column. *)
Record test_row := {
  test_bidder_id : string;
  test_payment_account : option string;
  test_address : option string
}.

(** A row of [df_combo].  [features] is the row of [bids] the join found;
    without one every aggregated column of the row is NaN. *)
Record combo_row := {
  combo_bidder_id : string;
  payment_account : option string;
  address : option string;
  outcome : option Q;
  address_text : string;
  account_text : string;
  features : option agg_row
}.

Definition with_features (r : combo_row) (f : option agg_row) : combo_row :=
  {| combo_bidder_id := combo_bidder_id r;
     payment_account := payment_account r;
     address := address r;
     outcome := outcome r;
     address_text := address_text r;
     account_text := account_text r;
     features := f |}.

Definition text_tag (tag : string) (c : option string) : string :=
  tag +:+ fillna "" c.

Definition of_train (r : train_row) : combo_row :=
  {| combo_bidder_id := train_bidder_id r;
     payment_account := train_payment_account r;
     address := train_address r;
     outcome := train_outcome r;
     address_text := text_tag "address_" (train_address r);
     account_text := text_tag "account_" (train_payment_account r);
     features := None |}.

(** [append] gives the rows of [df_test] a NaN [outcome]. *)
Definition of_test (r : test_row) : combo_row :=
  {| combo_bidder_id := test_bidder_id r;
     payment_account := test_payment_account r;
     address := test_address r;
     outcome := None;
     address_text := text_tag "address_" (test_address r);
     account_text := text_tag "account_" (test_payment_account r);
     features := None |}.

(** [df_train.append(df_test)] with the two tagged columns. *)
Definition append_rosters (df_train : list train_row) (df_test : list test_row)
  : list combo_row :=
  (of_train <$> df_train) ++ (of_test <$> df_test).

(** [left.merge(right, how = 'left', on 'bidder_id')]: the left rows in
    their order, each once per right row with its key, and once with NaN
    features when there is none. *)
Definition merge_left (left : list combo_row) (right : list agg_row) : list combo_row :=
  left ≫= (λ l,
    match filter (λ f, agg_bidder f = combo_bidder_id l) right with
    | [] => [with_features l None]
    | ms => (λ f, with_features l (Some f)) <$> ms
    end).

(** What the join keeps of a roster row. *)
Definition roster_part (r : combo_row) : string * option Q :=
  (combo_bidder_id r, outcome r).

(** [df_combo] at the end of cell 10.  Cell 12 fills the columns whose
    name has [num] or [text] in it; [bidder_id] and [outcome] are not among
    them, and the rows stay as they are. *)
Definition df_combo `{FloatStr} (df_bids : list bid_row)
    (df_train : list train_row) (df_test : list test_row) : list combo_row :=
  merge_left (append_rosters df_train df_test) (bids df_bids).

(** A row of [sampleSubmission.csv]. *)
Record sample_row := {
  sample_bidder_id : string;
  prediction : Q
}.

(** Cell 13: [df_combo[df_combo.bidder_id.isin(sample.bidder_id)]] *)
Definition test_dat (sample : list sample_row) (combo : list combo_row) : list combo_row :=
  filter (λ r, combo_bidder_id r ∈ sample_bidder_id <$> sample) combo.

(** Cell 14: [df_combo[~pd.isnull(df_combo.outcome)]] *)
Definition train_dat (combo : list combo_row) : list combo_row :=
  filter (λ r, is_Some (outcome r)) combo.


(** ** numpy on one-dimensional arrays *)

(** Two shapes [(n,)] and [(m,)] broadcast when they are equal or one of
    them is [(1,)]. *)
Definition broadcast {A B} (xs : list A) (ys : list B) : option (list (A * B)) :=
  if decide (length xs = length ys) then Some (zip xs ys)
  else match xs, ys with
       | [x], _ => Some ((λ y, (x, y)) <$> ys)
       | _, [y] => Some ((λ x, (x, y)) <$> xs)
       | _, _ => None
       end.

(** [(a == b)] element by element; with shapes that do not broadcast there
    is no array to call [.all()] on and the cell fails. *)
Definition np_eq (a b : list string) : option (list bool) :=
  match broadcast a b with
  | Some ps => Some ((λ p : string * string, String.eqb (fst p) (snd p)) <$> ps)
  | None => None
  end.

Definition np_all (l : list bool) : bool := forallb id l.

Definition print_bool (b : bool) : string := if b then "True" else "False".

(** ** Running cells: printed lines and failure *)

(** A cell prints lines and either gives a value or raises; a raise ends
    the run, and what was printed before it stays printed. *)
Definition cell_m (A : Type) : Type := list string * option A.

Definition ret {A} (x : A) : cell_m A := ([], Some x).

Definition raise {A} : cell_m A := ([], None).

Definition print (s : string) : cell_m unit := ([s], Some tt).

Definition bind {A B} (m : cell_m A) (k : A -> cell_m B) : cell_m B :=
  match m with
  | (out, None) => (out, None)
  | (out, Some x) => let '(out', r) := k x in ((out ++ out')%list, r)
  end.

Definition lift {A} (o : option A) : cell_m A := ([], o).

Declare Scope cell_scope.
Delimit Scope cell_scope with cell.
Notation "'step' x <- m 'then' k" := (bind m (λ x, k))
  (at level 10, x name, m at level 100, k at level 200) : cell_scope.

(** Cell 13, lines 316-317: the comparison with the template is printed. *)
Definition check_order (sample : list sample_row) (test : list combo_row) : cell_m unit :=
  (step same <- lift (np_eq (sample_bidder_id <$> sample) (combo_bidder_id <$> test))
   then print (print_bool (np_all same)))%cell.

(** ** Floating point *)

(** The cells of the matrices are float64 numbers.  A float operation
    gives the exact result of the operation, rounded; [fl] is the rounding.
    The arithmetic of the rationals themselves is the instance [exact];
    the rounding of the run is [binary64], to the nearest float64 with ties
    to the even mantissa.  Overflow is left out: a value beyond the largest
    float64 is rounded like the others. *)
Class Rounding := fl : Q -> Q.

Definition exact : Rounding := λ x, x.

Definition pow2 (e : Z) : Q :=
  if 0 <=? e then inject_Z (2 ^ e) else (/ inject_Z (2 ^ (- e)))%Q.

(** The exponent [e] of a positive [q]: [2 ^ e <= q < 2 ^ (e + 1)]. *)
Definition binade (q : Q) : Z :=
  let e := Z.log2 (Qnum q) - Z.log2 (Zpos (Qden q)) in
  if Qle_bool (pow2 e) q then e else e - 1.

(** The nearest integer, a half going to the even neighbour. *)
Definition round_half_even (q : Q) : Z :=
  let n := Qfloor q in
  match (q - inject_Z n ?= 1 # 2)%Q with
  | Lt => n
  | Gt => n + 1
  | Eq => if Z.even n then n else n + 1
  end.

(** The spacing of the float64 numbers around a positive [q]: 52 binary
    places below its exponent, and for the subnormal numbers that of the
    smallest normal one. *)
Definition ulp (q : Q) : Q := pow2 (Z.max (binade q) (-1022) - 52).

Definition binary64 : Rounding :=
  λ x,
    if Qeq_bool x 0 then 0%Q
    else
      let a := Qabs x in
      let m := (inject_Z (round_half_even (a / ulp a)) * ulp a)%Q in
      Qred (if Qle_bool 0 x then m else - m).

(** ** The numeric scaler (cell 15) *)

Definition matrix : Type := list (list Q).

(** [df[num_cols].values]: the cells of a frame, where a cell may hold
    NaN. *)
Definition frame_values : Type := list (list (option Q)).

(** [np.vstack((a, b))] *)
Definition vstack {A} (a b : list (list A)) : list (list A) := (a ++ b)%list.

(** [check_array(X)], the first step of [fit] and of [transform]: it
    raises when a cell holds NaN. *)
Definition check_array (X : frame_values) : option matrix := mapM (mapM id) X.

(** [np.min(X, axis = 0)] and [np.max(X, axis = 0)]: a reduction down the
    rows, which numpy refuses on an array without rows. *)
Definition reduce_axis0 (f : Q -> Q -> Q) (X : matrix) : option (list Q) :=
  match X with
  | [] => None
  | r :: rs => Some (foldl (zip_with f) r rs)
  end.

Definition Qmin (x y : Q) : Q := if Qle_bool y x then y else x.
Definition Qmax (x y : Q) : Q := if Qle_bool x y then y else x.

(** What [MinMaxScaler.fit] keeps, for [feature_range = (0, 1)]. *)
Record min_max_scaler := {
  scale_ : list Q;
  min_ : list Q
}.

(** [MinMaxScaler().fit(X)]:
    [data_range = np.max(X, axis=0) - data_min], a range of zero replaced
    by one so that the column is not scaled,
    [scale_ = (1 - 0) / data_range] and [min_ = 0 - data_min * scale_]. *)
Definition fit_scaler `{Rounding} (X : frame_values) : option min_max_scaler :=
  X ← check_array X;
  match reduce_axis0 Qmin X, reduce_axis0 Qmax X with
  | Some data_min, Some data_max =>
      let data_range :=
        zip_with (λ mx mn, let r := fl (mx - mn)%Q in
                           if Qeq_bool r 0 then 1%Q else r)
                 data_max data_min in
      let scale := (λ r, fl ((1 - 0) / r)%Q) <$> data_range in
      Some {| scale_ := scale;
              min_ := zip_with (λ mn s, fl (0 - fl (mn * s))%Q) data_min scale |}
  | _, _ => None
  end.

(** What [fit] followed by [transform] makes of one cell [x] of a column
    whose minimum is [mn] and whose maximum is [mx]. *)
Definition scaled `{Rounding} (mn mx x : Q) : Q :=
  let r := fl (mx - mn)%Q in
  let s := fl ((1 - 0) / (if Qeq_bool r 0 then 1 else r))%Q in
  fl (fl (x * s) + fl (0 - fl (mn * s)))%Q.

(** [sc.transform(X)]: [X *= scale_; X += min_], row by row. *)
Definition transform_row `{Rounding} (sc : min_max_scaler) (row : list Q) : list Q :=
  zip_with (λ x m, fl (x + m)%Q) (zip_with (λ x s, fl (x * s)%Q) row (scale_ sc)) (min_ sc).

Definition transform_scaler `{Rounding} (sc : min_max_scaler) (X : frame_values)
  : option matrix :=
  rows ← check_array X;
  Some (transform_row sc <$> (rows : list (list Q))).

(** ** Feature selection (cell 20, lines 483-485) *)

(** Ascending sort of the scores, as [np.sort] gives it. *)
Definition sort_scores (l : list Q) : list Q := stable_sort Qle_bool l.

(** [scipy.stats.scoreatpercentile(a, per)] with its default interpolation:
    the position [idx = per / 100. * (n - 1)] in the sorted scores; when
    [idx] is whole the score there, and else the two neighbours times the
    weights [j - idx] and [idx - i], added up and divided by the sum of the
    weights. *)
Definition scoreatpercentile `{Rounding} (a : list Q) (per : Z) : Q :=
  let sorted := sort_scores a in
  let idx := fl (fl (inject_Z per / 100) * inject_Z (Z.of_nat (length sorted) - 1))%Q in
  let i := Qfloor idx in
  if Qeq_bool (inject_Z i) idx then nth (Z.to_nat i) sorted 0%Q
  else
    let j := i + 1 in
    let wi := fl (inject_Z j - idx)%Q in
    let wj := fl (idx - inject_Z i)%Q in
    fl (fl (fl (nth (Z.to_nat i) sorted 0 * wi) + fl (nth (Z.to_nat j) sorted 0 * wj))
        / fl (wi + wj))%Q.

(** A Python slice [l[:k]]; a negative [k] counts from the end. *)
Definition slice_to {A} (k : Z) (l : list A) : list A :=
  if 0 <=? k then take (Z.to_nat k) l
  else take (length l - Z.to_nat (- k)) l.

Definition Qgt_bool (x y : Q) : bool := negb (Qle_bool x y).

(** [np.where(scores == treshold)[0]] *)
Definition where_eq (scores : list Q) (t : Q) : list nat :=
  filter (λ i, Qeq_bool (nth i scores 0%Q) t = true) (seq 0 (length scores)).

(** [mask[kept] = True] *)
Definition set_true (kept : list nat) (mask : list bool) : list bool :=
  foldl (λ m i, <[i := true]> m) mask kept.

Definition count_true (mask : list bool) : nat := length (filter (λ b, b = true) mask).

(** [SelectPercentile._get_support_mask]: the columns that score above the
    percentile, and of those that score exactly the percentile the first
    ones while fewer than [len(scores) * percentile // 100] are kept. *)
Definition get_support_mask `{Rounding} (scores : list Q) (percentile : Z) : list bool :=
  if percentile =? 100 then replicate (length scores) true
  else if percentile =? 0 then replicate (length scores) false
  else
    let treshold := scoreatpercentile scores (100 - percentile) in
    let mask := (λ s, Qgt_bool s treshold) <$> scores in
    let ties := where_eq scores treshold in
    match ties with
    | [] => mask
    | _ =>
        let max_feats := Z.of_nat (length scores) * percentile / 100 in
        let kept_ties := slice_to (max_feats - Z.of_nat (count_true mask)) ties in
        set_true kept_ties mask
    end.

(** [feats_25.transform(X)]: the columns of the mask, in every row. *)
Definition select_columns (mask : list bool) (row : list Q) : list Q :=
  snd <$> filter (λ p, fst p = true) (zip mask row).

Definition transform_select (mask : list bool) (X : matrix) : matrix :=
  select_columns mask <$> X.

(** The chi-squared score of every column against the label, NaN scores
    already replaced as [_clean_nans] does.  The statistic is a parameter;
    it gives one score per column. *)
Class Chi2 := chi2 : matrix -> list Q -> list Q.

(** [SelectPercentile(chi2, 25).fit(xtrain, y)] keeps the scores; the mask
    is computed from them at each [transform]. *)
Definition feats_25 `{Rounding} `{Chi2} (xtrain : matrix) (y : list Q) : list bool :=
  get_support_mask (chi2 xtrain y) 25.

(** Lines 484 and 485: [feats_25.transform] on the train and on the test
    matrix. *)
Definition select_train `{Rounding} `{Chi2} (xtrain : matrix) (y : list Q) : matrix :=
  transform_select (feats_25 xtrain y) xtrain.

Definition select_test `{Rounding} `{Chi2} (xtrain : matrix) (y : list Q) (xtest : matrix)
  : matrix :=
  transform_select (feats_25 xtrain y) xtest.

(** A quarter of [n], rounded up and rounded down. *)
Definition ceil_quarter (n : nat) : nat :=
  Z.to_nat (Qceiling ((25 # 100) * inject_Z (Z.of_nat n))).

Definition floor_quarter (n : nat) : nat :=
  Z.to_nat (Qfloor ((25 # 100) * inject_Z (Z.of_nat n))).

(** The columns that tie with the percentile: those whose score is the
    score at the 75th percentile. *)
Definition ties_25 `{Rounding} (scores : list Q) : list nat :=
  where_eq scores (scoreatpercentile scores 75).

(** ** The bag of classifiers (cell 20, lines 487-507) *)

Record xgb_params := {
  objective : string;
  learning_rate : Q;
  max_depth : Z;
  nthread : Z;
  seed : Z;
  subsample : Q;
  colsample_bytree : Q;
  min_child_weight : Z;
  n_estimators : Z;
  gamma : Q;
  silent : bool
}.

(** The classifier as line 487 builds it. *)
Definition clf : xgb_params :=
  {| objective := "binary:logistic";
     learning_rate := 5 # 100;
     max_depth := 5;
     nthread := 8;
     seed := 42;
     subsample := 4 # 10;
     colsample_bytree := 7 # 10;
     min_child_weight := 1;
     n_estimators := 100;
     gamma := 15 # 100;
     silent := true |}.

(** [clf.set_params(seed = s)] *)
Definition set_params_seed (s : Z) (p : xgb_params) : xgb_params :=
  {| objective := objective p;
     learning_rate := learning_rate p;
     max_depth := max_depth p;
     nthread := nthread p;
     seed := s;
     subsample := subsample p;
     colsample_bytree := colsample_bytree p;
     min_child_weight := min_child_weight p;
     n_estimators := n_estimators p;
     gamma := gamma p;
     silent := silent p |}.

(** [clf.fit(xtrain, y)] followed by [clf.predict_proba(xtest)[:, 1]]: the
    booster is a parameter, a function of the parameters it is built with
    and of the data. *)
Class Classifier := predict_proba : xgb_params -> matrix -> list Q -> matrix -> list Q.

Definition rounds : nat := 15.

(** The seeds the loop sets, [i + 1] for [i] in [range(rounds)]. *)
Definition seeds : list Z := (λ i, Z.of_nat i + 1) <$> seq 0 rounds.

(** [np.zeros((n, m))] *)
Definition zeros (n m : nat) : matrix := replicate n (replicate m 0%Q).

(** [preds_mat[:, i] = v]: [v] must have one entry per row, or a single
    entry that is then used for every row. *)
Definition set_column (i : nat) (v : list Q) (mat : matrix) : option matrix :=
  if decide (length v = length mat) then Some (zip_with (λ row x, <[i := x]> row) mat v)
  else match v with
       | [x] => Some ((λ row, <[i := x]> row) <$> mat)
       | _ => None
       end.

(** The loop of lines 501-505 over the round numbers [ks], threading the
    classifier object and the matrix of predictions. *)
Fixpoint bag_rounds `{Classifier} (ks : list nat) (c : xgb_params)
    (xtrain : matrix) (y : list Q) (xtest : matrix) (preds_mat : matrix)
  : option matrix :=
  match ks with
  | [] => Some preds_mat
  | i :: rest =>
      let c' := set_params_seed (Z.of_nat i + 1) c in
      let preds_tmp := predict_proba c' xtrain y xtest in
      match set_column i preds_tmp preds_mat with
      | Some preds_mat' => bag_rounds rest c' xtrain y xtest preds_mat'
      | None => None
      end
  end.

(** [preds_mat.mean(axis = 1)] *)
Definition mean (row : list Q) : Q := (Qsum row / inject_Z (Z.of_nat (length row)))%Q.

Definition mean_axis1 (mat : matrix) : list Q := mean <$> mat.

(** The prediction of the instance with seed [s] for the test row [j]. *)
Definition proba_of `{Classifier} (xtrain : matrix) (y : list Q) (xtest : matrix)
    (s : Z) (j : nat) : Q :=
  nth j (predict_proba (set_params_seed s clf) xtrain y xtest) 0%Q.

(** [preds_mat] for [n] rows when the columns before [i] hold the
    predictions of the seeds 1 to [i] and [m] columns are still zero. *)
Definition filled `{Classifier} (xtrain : matrix) (y : list Q) (xtest : matrix)
    (n i m : nat) : matrix :=
  (λ j, (((λ k, proba_of xtrain y xtest (Z.of_nat k + 1) j) <$> seq 0 i)
           ++ replicate m 0%Q)%list) <$> seq 0 n.

(** [bagged_preds] for a template of [n] rows. *)
Definition bagged_preds `{Classifier} (n : nat)
    (xtrain : matrix) (y : list Q) (xtest : matrix) : option (list Q) :=
  mean_axis1 <$> bag_rounds (seq 0 rounds) clf xtrain y xtest (zeros n rounds).

(** ** The run from the order check to the submission file *)

(** Cells 12 to 20 up to line 485 turn [df_combo] and its two partitions
    into [xtrain], [y] and [xtest]; a stage that raises gives [None].  The
    scaler and the selection among them are written out above; the text
    vectorizer is a parameter. *)
Class FeatureStages :=
  feature_stages : list combo_row -> list combo_row -> list combo_row
                   -> option (matrix * list Q * matrix).

(** Cells 13 to 20.  The value is the content of
    [facebook_submission.csv]: the template's ids with the column
    [prediction] replaced by [bagged_preds]; no value means that the run
    raised before [to_csv]. *)
Definition run `{FeatureStages} `{Classifier}
    (sample : list sample_row) (combo : list combo_row)
  : cell_m (list (string * Q)) :=
  let test := test_dat sample combo in
  (step checked <- check_order sample test then
   let train := train_dat combo in
   step f <- lift (feature_stages combo train test) then
   step bagged <- lift (bagged_preds (length sample) (fst (fst f)) (snd (fst f)) (snd f)) then
   ret (zip (sample_bidder_id <$> sample) bagged))%cell.

Definition printed {A} (m : cell_m A) : list string := fst m.
Definition written {A} (m : cell_m A) : option A := snd m.

(** ** The count, time and mean columns of [bids] (cells 6 and 9) *)

(** [.agg('count')] of one group of a column: the number of cells that
    are not missing. *)
Definition series_count {A} (l : list (option A)) : nat := length (dropna l).

(** [counts], line 130.  The key column has no missing cell. *)
Definition counts (df : list frame_row) : list (string * nat) :=
  groupby_agg (λ g, series_count (Some <$> (bidder <$> g))) df.

(** The [time] column of a group; it is an integer column, without NaN. *)
Definition times (g : list frame_row) : list (option Z) :=
  (λ r, Some (time (base r))) <$> g.

(** [max_time] and [min_time], lines 197 and 199. *)
Definition max_time (df : list frame_row) : list (string * option Z) :=
  groupby_agg (λ g, series_max (times g)) df.

Definition min_time (df : list frame_row) : list (string * option Z) :=
  groupby_agg (λ g, series_min (times g)) df.

(** [mean_diff], lines 209-210: the mean of the differences of each
    bidder, and for a bidder without one the mean of these means. *)
Definition group_mean_diff (g : list frame_row) : option Q :=
  series_mean (fmap inject_Z <$> (timediff_num <$> g)).

Definition mean_diff (df : list frame_row) : list (string * option Q) :=
  fill_series (groupby_agg group_mean_diff df).

(** The cells of these columns in the row of [bids] of the bidder [a];
    the assignment of a series to a column aligns it on the index. *)
Definition auction_count_num (df : list frame_row) (a : string) : option nat :=
  at_key (counts df) a.

Definition maxtime_num (df : list frame_row) (a : string) : option Z :=
  at_key (max_time df) a ≫= id.

Definition mintime_num (df : list frame_row) (a : string) : option Z :=
  at_key (min_time df) a ≫= id.

Definition meandiff_num (df : list frame_row) (a : string) : option Q :=
  cell_of (mean_diff df) a.

(** The number of spaces of a string. *)
Fixpoint count_spaces (s : string) : nat :=
  match s with
  | EmptyString => 0%nat
  | String c r => ((if Ascii.eqb c " " then 1 else 0) + count_spaces r)%nat
  end.

(** The order of [sort]: by [bidder_id] as strings, then by [time]. *)
Definition row_le (r1 r2 : bid_row) : Prop :=
  String.compare (bidder_id r1) (bidder_id r2) = Lt
  ∨ (bidder_id r1 = bidder_id r2 ∧ time r1 <= time r2).

Definition Zsum (l : list Z) : Z := foldr Z.add 0 l.

(** ** Column names and the split by regular expression (cell 12) *)

(** [re.compile(pat).search(s)] for a pattern without special characters:
    [pat] occurs somewhere in [s]. *)
Fixpoint re_search (pat s : string) : bool :=
  String.prefix pat s
  || match s with
     | EmptyString => false
     | String _ r => re_search pat r
     end.

(** [s.replace(a, b)] for single characters. *)
Fixpoint replace_char (a b : ascii) (s : string) : string :=
  match s with
  | EmptyString => EmptyString
  | String c r => String (if Ascii.eqb c a then b else c) (replace_char a b r)
  end.

(** [str(q)] for the quantiles of line 215. *)
Definition quantile_strs : list string :=
  ["0.1"; "0.2"; "0.3"; "0.4"; "0.6"; "0.7"; "0.8"; "0.9"].

(** [q_string], line 216. *)
Definition q_string (q : string) : string :=
  "diff_quantile_num_" +:+ replace_char "." "_" q.

(** The columns of [bids], in the order in which cells 5 to 9 create
    them. *)
Definition bids_columns : list string :=
  ["bidder_id"; "auction_count_num"]
    ++ (text_cols ≫= λ var, [col_name var +:+ "_text"; col_name var +:+ "_nunique_num"])
    ++ ["maxtime_num"; "mintime_num"; "maxdiff_num"; "mindiff_num"; "rangediff_num";
        "meandiff_num"; "mediandiff_num"]
    ++ (q_string <$> quantile_strs).

(** The columns of the two rosters; [test.csv] has no [outcome]. *)
Definition roster_columns : list string :=
  ["bidder_id"; "payment_account"; "address"; "outcome"].

(** [df_combo.columns] after cell 10: the roster columns in the order
    [roster] that [append] leaves them in, the two tagged columns, and
    the columns that the join adds, its key apart. *)
Definition combo_columns (roster : list string) : list string :=
  roster ++ ["address_text"; "account_text"]
    ++ filter (λ c, c ≠ "bidder_id") bids_columns.

(** [num_cols] and [text_cols] of cell 12; the second rebinds the name of
    the list of cell 8 and has a name of its own here. *)
Definition num_cols (roster : list string) : list string :=
  filter (λ c, re_search "num" c = true) (combo_columns roster).

Definition text_cols_combo (roster : list string) : list string :=
  filter (λ c, re_search "text" c = true) (combo_columns roster).

(** [df_combo[col]] for a text column, in one row, once cell 12 has filled
    the missing cells with the empty string; a name that is no text
    column has no value. *)
Definition text_column (col : string) (r : combo_row) : option string :=
  if String.eqb col "address_text" then Some (address_text r)
  else if String.eqb col "account_text" then Some (account_text r)
  else (λ var, fillna "" ((λ f, text f var) <$> features r))
         <$> find (λ var, String.eqb (col_name var +:+ "_text") col) text_cols.

(** [df[col].values] *)
Definition column_values (col : string) (df : list combo_row) : option (list string) :=
  mapM (text_column col) df.

(** ** The text vectorizers (cells 18 and 19) *)

(** The values that the parameter dictionaries hold. *)
Inductive pyval :=
  | PBool (b : bool)
  | PInt (z : Z)
  | PPair (a b : Z)
  | PStr (s : string).

#[global] Instance pyval_eq_dec : EqDecision pyval.
Proof. solve_decision. Defined.

(** The truth value that [not] takes of a value. *)
Definition truth (v : pyval) : bool :=
  match v with
  | PBool b => b
  | PInt z => negb (z =? 0)
  | PPair _ _ => true
  | PStr s => negb (String.eqb s "")
  end.

(** [text_params], cell 18: a dictionary of dictionaries; looking up a key
    that is not there raises. *)
Definition text_params : gmap string (gmap string pyval) :=
  list_to_map
    [("address_text", list_to_map [("include", PBool false)]);
     ("account_text", list_to_map [("include", PBool false)]);
     ("auction_text", list_to_map [("include", PBool true); ("mindf", PInt 5);
                                   ("ngram", PPair 1 3); ("token", PStr "tokens")]);
     ("merchandise_text", list_to_map [("include", PBool true); ("mindf", PInt 5);
                                       ("ngram", PPair 1 3); ("token", PStr "tokens")]);
     ("device_text", list_to_map [("include", PBool true); ("mindf", PInt 5);
                                  ("ngram", PPair 1 3); ("token", PStr "tokens")]);
     ("timediff_text", list_to_map [("include", PBool true); ("mindf", PInt 1);
                                    ("ngram", PPair 1 1); ("token", PStr "tokens")]);
     ("country_text", list_to_map [("include", PBool true); ("mindf", PInt 5);
                                   ("ngram", PPair 1 3); ("token", PStr "tokens")]);
     ("ip_text", list_to_map [("include", PBool true); ("mindf", PInt 1);
                              ("ngram", PPair 1 1); ("token", PStr "nottokens")]);
     ("url_text", list_to_map [("include", PBool true); ("mindf", PInt 5);
                               ("ngram", PPair 1 3); ("token", PStr "tokens")])].

(** The arguments a [TfidfVectorizer] is built with; without [tokenizer]
    it uses its default one. *)
Record tfidf_params := {
  tokenizer : option (string -> list string);
  min_df : pyval;
  ngram_range : pyval
}.

(** [vect.fit(documents)] followed by [vect.transform]: fitting either
    raises or gives the map from documents to rows of weights.  The
    vectorizer is a parameter. *)
Class Tfidf := tfidf_fit : tfidf_params -> list string -> option (list string -> matrix).

(** [sparse.hstack((a, b))]: the rows of [a] continued by those of [b];
    it raises when the two have not the same number of rows. *)
Definition hstack (a b : matrix) : option matrix :=
  if decide (length a = length b) then Some (zip_with app a b) else None.

(** Lines 458-463: fit on the column of [df_combo], transform the column
    of each partition and stack the result on the right of its matrix. *)
Definition stack_column `{Tfidf} (vect : tfidf_params) (col : string)
    (combo train test : list combo_row) (x : matrix * matrix) : option (matrix * matrix) :=
  documents ← column_values col combo;
  fitted ← tfidf_fit vect documents;
  train_docs ← column_values col train;
  test_docs ← column_values col test;
  xtrain ← hstack (fst x) (fitted train_docs);
  xtest ← hstack (snd x) (fitted test_docs);
  Some (xtrain, xtest).

(** The loop of cell 19 over the columns [cols]. *)
Fixpoint vectorize `{Tfidf} (cols : list string) (combo train test : list combo_row)
    (x : matrix * matrix) : option (matrix * matrix) :=
  match cols with
  | [] => Some x
  | col :: rest =>
      params ← text_params !! col;
      include ← params !! "include";
      if negb (truth include) then vectorize rest combo train test x
      else
        token ← params !! "token";
        mindf ← params !! "mindf";
        ngram ← params !! "ngram";
        let vect := {| tokenizer := if decide (token = PStr "tokens") then Some tokens
                                    else None;
                       min_df := mindf;
                       ngram_range := ngram |} in
        x' ← stack_column vect col combo train test x;
        vectorize rest combo train test x'
  end.

(** The vectorizer of the columns that are cut at single spaces with
    [n]-grams up to three, and the two others. *)
Definition vect_tokens (mindf : Z) (upto : Z) : tfidf_params :=
  {| tokenizer := Some tokens; min_df := PInt mindf; ngram_range := PPair 1 upto |}.

Definition vect_default (mindf : Z) (upto : Z) : tfidf_params :=
  {| tokenizer := None; min_df := PInt mindf; ngram_range := PPair 1 upto |}.

(** ** Sample inputs *)

(** What Python prints for a float that holds a small whole number: its
    digits and [.0]. *)
Definition small_float_str : FloatStr := λ z, pretty z +:+ ".0".

Definition bid_at (who : string) (t : Z) (category : string)
    (where_from : option string) : bid_row :=
  {| bid_id := t;
     bidder_id := who;
     auction := Some "a 1";
     merchandise := Some category;
     device := Some "phone 4";
     time := t;
     country := where_from;
     ip := Some "10.0.0.1";
     url := Some "u" |}.

(** One bidder with three bids at the times 10, 15 and 40, on the
    categories a, b, a, the last row first in the file; a second bidder
    with a single bid. *)
Definition three_bids : list bid_row :=
  [ bid_at "bob" 40 "a" (Some "us");
    bid_at "bob" 10 "a" None;
    bid_at "al" 7 "z" (Some "uk");
    bid_at "bob" 15 "b" (Some "us") ].

Definition bob_row : agg_row :=
  agg_of (df_bids_sorted (H := small_float_str) three_bids) "bob".

(** A bidder with a bid without a country and a bid whose url is a single
    space. *)
Definition gap_bids : list bid_row :=
  [ {| bid_id := 1; bidder_id := "bob"; auction := Some "a1";
       merchandise := Some "m"; device := Some "d"; time := 10;
       country := None; ip := Some "10.0.0.1"; url := Some " " |};
    {| bid_id := 2; bidder_id := "bob"; auction := Some "a1";
       merchandise := Some "m"; device := Some "d"; time := 15;
       country := Some "us"; ip := Some "10.0.0.1"; url := None |} ].

Definition gap_row : agg_row :=
  agg_of (df_bids_sorted (H := small_float_str) gap_bids) "bob".

(** Two bids of one bidder at the same time, after a later one. *)
Definition tied_bids : list bid_row :=
  [ bid_at "bob" 20 "late" None;
    bid_at "bob" 10 "first" None;
    bid_at "bob" 10 "second" None ].

Definition tied_row : agg_row :=
  agg_of (df_bids_sorted (H := small_float_str) tied_bids) "bob".

(** A labeled bidder who is also on the test roster and on the template. *)
Definition overlap_train : list train_row :=
  [ {| train_bidder_id := "bob"; train_payment_account := Some "p1";
       train_address := Some "x1"; train_outcome := Some 1%Q |} ].

Definition overlap_test : list test_row :=
  [ {| test_bidder_id := "bob"; test_payment_account := Some "p1";
       test_address := Some "x1" |};
    {| test_bidder_id := "al"; test_payment_account := None;
       test_address := Some "x2" |} ].

Definition overlap_sample : list sample_row :=
  [ {| sample_bidder_id := "bob"; prediction := 0%Q |};
    {| sample_bidder_id := "al"; prediction := 0%Q |} ].

(** A labeled roster, a test roster and a template with the test bidders
    in the order of the test roster. *)
Definition two_train : list train_row :=
  [ {| train_bidder_id := "carol"; train_payment_account := Some "p3";
       train_address := None; train_outcome := Some 0%Q |};
    {| train_bidder_id := "dan"; train_payment_account := Some "p4";
       train_address := Some "x4"; train_outcome := Some 1%Q |} ].

Definition two_test : list test_row :=
  [ {| test_bidder_id := "bob"; test_payment_account := Some "p1";
       test_address := Some "x1" |};
    {| test_bidder_id := "al"; test_payment_account := None;
       test_address := Some "x2" |} ].

Definition two_sample : list sample_row :=
  [ {| sample_bidder_id := "bob"; prediction := 0%Q |};
    {| sample_bidder_id := "al"; prediction := 0%Q |} ].

(** A template with the test bidders in another order than the test
    roster. *)
Definition swapped_sample : list sample_row :=
  [ {| sample_bidder_id := "al"; prediction := 0%Q |};
    {| sample_bidder_id := "bob"; prediction := 0%Q |} ].

(** Stand-ins for the stages that are parameters: one feature per row, the
    length of the bidder id, and a classifier whose probability for a row
    depends on the row and on the seed. *)
Definition demo_feature (r : combo_row) : list Q :=
  [inject_Z (Z.of_nat (String.length (combo_bidder_id r)))].

Definition demo_stages : FeatureStages :=
  λ combo train test,
    Some (demo_feature <$> train, (λ r, default 0%Q (outcome r)) <$> train,
          demo_feature <$> test).

(** A score function that reads the scores off the first training row.
    For a matrix of two rows, the second all zero, with the labels 1 and 0,
    these are the chi-squared scores: a column with the entry [v] has the
    observed counts [v] and [0] against the expected [v / 2] twice. *)
Definition demo_chi2 : Chi2 := λ X y, default [] (head X).

Definition demo_classifier : Classifier :=
  λ p xtrain y xtest, (λ row, (Qsum row / (Qsum row + inject_Z (seed p)))%Q) <$> xtest.

(** A stand-in vectorizer: two weights per document, its number of tokens
    and its length. *)
Definition demo_tfidf : Tfidf :=
  λ vect documents,
    Some (fmap (λ d, [inject_Z (Z.of_nat (length (tokens d)));
                      inject_Z (Z.of_nat (String.length d))])).

(** Six bidders with two bids each and a third one for the last, all on
    the same auction, merchandise, device, country and url; three of them
    are labeled, the three others are on the test roster, and the template
    has these three in another order. *)
Definition six_bids : list bid_row :=
  [ bid_at "ann" 1 "m" (Some "us"); bid_at "ben" 2 "m" (Some "us");
    bid_at "cat" 3 "m" (Some "us"); bid_at "ann" 4 "m" (Some "us");
    bid_at "cat" 5 "m" (Some "us"); bid_at "dov" 6 "m" (Some "us");
    bid_at "eve" 7 "m" (Some "us"); bid_at "dov" 8 "m" (Some "us");
    bid_at "ben" 9 "m" (Some "us"); bid_at "fay" 10 "m" (Some "us");
    bid_at "fay" 11 "m" (Some "us"); bid_at "eve" 12 "m" (Some "us");
    bid_at "fay" 13 "m" (Some "us") ].

Definition three_train : list train_row :=
  [ {| train_bidder_id := "ann"; train_payment_account := Some "p1";
       train_address := Some "x1"; train_outcome := Some 0%Q |};
    {| train_bidder_id := "ben"; train_payment_account := Some "p2";
       train_address := Some "x2"; train_outcome := Some 1%Q |};
    {| train_bidder_id := "cat"; train_payment_account := Some "p3";
       train_address := Some "x3"; train_outcome := Some 0%Q |} ].

Definition three_test : list test_row :=
  [ {| test_bidder_id := "dov"; test_payment_account := Some "p4";
       test_address := Some "x4" |};
    {| test_bidder_id := "eve"; test_payment_account := Some "p5";
       test_address := Some "x5" |};
    {| test_bidder_id := "fay"; test_payment_account := Some "p6";
       test_address := Some "x6" |} ].

Definition mixed_sample : list sample_row :=
  [ {| sample_bidder_id := "fay"; prediction := 0%Q |};
    {| sample_bidder_id := "dov"; prediction := 0%Q |};
    {| sample_bidder_id := "eve"; prediction := 0%Q |} ].

(** A stand-in vectorizer that keeps the rule of the vocabulary: the terms
    are the tokens that at least [min_df] documents have, in order of first
    appearance, and fitting raises when no term is left.  The weight of a
    term in a document is the number of times the document has it; terms
    of more than one token are left out, and the default tokenizer is
    replaced by the cut at the spaces. *)
Definition counting_tfidf : Tfidf :=
  λ vect documents,
    let tokenize := default tokens (tokenizer vect) in
    match min_df vect with
    | PInt mindf =>
        let docs := tokenize <$> documents in
        let vocabulary :=
          filter (λ t, mindf <= Z.of_nat (length (filter (λ d, t ∈ d) docs)))
                 (unique (concat docs)) in
        if decide (vocabulary = []) then None
        else Some (fmap (λ d, (λ t, inject_Z (Z.of_nat (length (filter (λ x, x = t)
                                                                  (tokenize d)))))
                                <$> vocabulary))
    | _ => None
    end.

(** Stand-in stages: the columns of [counting_tfidf] stacked on the one of
    [demo_feature] by the loop of cell 19; they raise when the loop does. *)
Definition counting_stages : FeatureStages :=
  λ combo train test,
    x ← vectorize (H := counting_tfidf) (text_cols_combo roster_columns) combo train test
          (demo_feature <$> train, demo_feature <$> test);
    Some (fst x, (λ r, default 0%Q (outcome r)) <$> train, snd x).

(** * Properties *)

(** ** Strings *)

Lemma remove_spaces_no_space (s : string) : no_space (remove_spaces s).
Proof.
  unfold no_space. induction s as [|c r IH]; simpl; [done|].
  destruct (Ascii.eqb c " ") eqn:E; simpl; [done|]. by rewrite E.
Qed.

Lemma has_space_app (s1 s2 : string) :
  has_space (s1 +:+ s2) = has_space s1 || has_space s2.
Proof.
  induction s1 as [|c r IH]; simpl; [done|].
  by rewrite IH, orb_assoc.
Qed.

Lemma no_space_app (s1 s2 : string) :
  no_space s1 -> no_space s2 -> no_space (s1 +:+ s2).
Proof.
  unfold no_space. intros H1 H2. by rewrite has_space_app, H1, H2.
Qed.

Lemma tokens_no_space (s : string) : no_space s -> tokens s = [s].
Proof.
  unfold no_space. induction s as [|c r IH]; simpl; [done|].
  intros [Hc Hr]%orb_false_iff. rewrite Hc, (IH Hr). done.
Qed.

Lemma tokens_app_space (s rest : string) :
  no_space s -> tokens (s +:+ " " +:+ rest) = s :: tokens rest.
Proof.
  unfold no_space. induction s as [|c r IH]; simpl; [done|].
  intros [Hc Hr]%orb_false_iff. rewrite Hc. simpl in IH. by rewrite (IH Hr).
Qed.

(** Splitting a space-joined list of space-free strings gives the list
    back, as soon as there is one string to join. *)
Lemma tokens_join (l : list string) :
  l ≠ [] -> Forall no_space l -> tokens (join l) = l.
Proof.
  unfold join. induction l as [|s l IH]; [done|]. intros _ Hl.
  apply Forall_cons in Hl as [Hs Hl].
  destruct l as [|s' l]; simpl.
  - by apply tokens_no_space.
  - rewrite tokens_app_space by done. f_equal. by apply IH.
Qed.

Lemma remove_spaces_id (s : string) : remove_spaces s = s <-> no_space s.
Proof.
  split.
  - intros <-. apply remove_spaces_no_space.
  - unfold no_space. induction s as [|c r IH]; [done|]. simpl.
    destruct (Ascii.eqb c " "); [done|]. simpl. intros Hr. by rewrite IH.
Qed.


(** ** The stable sort *)

Section StableSortFacts.
Context {A : Type} (leb : A -> A -> bool).

Lemma insert_sorted_perm (x : A) (l : list A) : insert_sorted leb x l ≡ₚ x :: l.
Proof.
  induction l as [|y l IH]; simpl; [done|].
  destruct (leb x y); [done|]. rewrite IH. apply Permutation_swap.
Qed.

Lemma stable_sort_perm (l : list A) : stable_sort leb l ≡ₚ l.
Proof.
  induction l as [|x l IH]; simpl; [done|].
  rewrite insert_sorted_perm. by rewrite IH.
Qed.

Lemma stable_sort_length (l : list A) : length (stable_sort leb l) = length l.
Proof. apply Permutation_length, stable_sort_perm. Qed.

(** Elements of one class, any two of which compare as not greater, keep
    their input order. *)
Lemma insert_sorted_filter (P : A -> Prop) `{!∀ x, Decision (P x)} (x : A) (l : list A) :
  (∀ y z, P y -> P z -> leb y z = true) ->
  filter P (insert_sorted leb x l) = filter P (x :: l).
Proof.
  intros HP. induction l as [|y l IH]; simpl; [done|].
  destruct (leb x y) eqn:E; [done|].
  rewrite filter_cons, IH, !filter_cons.
  destruct (decide (P y)) as [Hy|Hy], (decide (P x)) as [Hx|Hx]; try done.
  by rewrite (HP x y Hx Hy) in E.
Qed.

Lemma stable_sort_filter (P : A -> Prop) `{!∀ x, Decision (P x)} (l : list A) :
  (∀ y z, P y -> P z -> leb y z = true) ->
  filter P (stable_sort leb l) = filter P l.
Proof.
  intros HP. induction l as [|x l IH]; simpl; [done|].
  rewrite insert_sorted_filter by done. by rewrite !filter_cons, IH.
Qed.

Hypothesis leb_total : ∀ x y, leb x y = true ∨ leb y x = true.
Hypothesis leb_trans : ∀ x y z, leb x y = true -> leb y z = true -> leb x z = true.

Lemma insert_sorted_sorted (x : A) (l : list A) :
  StronglySorted (λ a b, leb a b = true) l ->
  StronglySorted (λ a b, leb a b = true) (insert_sorted leb x l).
Proof.
  induction 1 as [|y l Hl IH Hy]; simpl.
  - repeat constructor.
  - destruct (leb x y) eqn:E.
    + constructor; [by constructor|].
      constructor; [done|]. eapply Forall_impl; [exact Hy|].
      intros z Hz. by eapply leb_trans.
    + constructor; [done|].
      rewrite insert_sorted_perm. constructor; [|done].
      destruct (leb_total x y) as [H|H]; [congruence|done].
Qed.

Lemma stable_sort_sorted (l : list A) :
  StronglySorted (λ a b, leb a b = true) (stable_sort leb l).
Proof.
  induction l as [|x l IH]; simpl; [constructor|].
  by apply insert_sorted_sorted.
Qed.
End StableSortFacts.

(** A sorted list stays sorted when elements are filtered out, and an order
    that holds between the elements kept can replace the sorting order. *)
Lemma StronglySorted_filter_impl {A} (R S : A -> A -> Prop) (P : A -> Prop)
    `{!∀ x, Decision (P x)} (l : list A) :
  (∀ x y, P x -> P y -> R x y -> S x y) ->
  StronglySorted R l -> StronglySorted S (filter P l).
Proof.
  intros HRS. induction 1 as [|x l Hl IH Hx]; [constructor|].
  rewrite filter_cons. destruct (decide (P x)) as [Px|]; [|done].
  constructor; [done|].
  apply Forall_forall. intros y [Py Hy]%list_elem_of_filter.
  apply HRS; [done..|]. rewrite Forall_forall in Hx. by apply Hx.
Qed.

(** ** The order of the rows *)

Lemma compare_refl (s : string) : String.compare s s = Eq.
Proof. by apply String_as_OT.cmp_eq. Qed.

Lemma compare_Lt_trans (a b c : string) :
  String.compare a b = Lt -> String.compare b c = Lt -> String.compare a c = Lt.
Proof.
  intros H1%String_as_OT.cmp_lt H2%String_as_OT.cmp_lt.
  apply String_as_OT.cmp_lt. by eapply String_as_OT.lt_trans.
Qed.

Lemma row_leb_total (x y : bid_row) : row_leb x y = true ∨ row_leb y x = true.
Proof.
  unfold row_leb. rewrite (String.compare_antisym (bidder_id x) (bidder_id y)).
  destruct (String.compare (bidder_id y) (bidder_id x)); simpl; auto.
  destruct (Z.leb_spec (time x) (time y)); [auto|]. right. apply Z.leb_le. lia.
Qed.

Lemma row_leb_trans (x y z : bid_row) :
  row_leb x y = true -> row_leb y z = true -> row_leb x z = true.
Proof.
  unfold row_leb.
  destruct (String.compare (bidder_id x) (bidder_id y)) eqn:E1; [| |done];
  destruct (String.compare (bidder_id y) (bidder_id z)) eqn:E2; try done.
  - apply String_as_OT.cmp_eq in E1, E2. rewrite E1, E2, compare_refl.
    rewrite !Z.leb_le. lia.
  - apply String_as_OT.cmp_eq in E1. rewrite E1, E2. done.
  - apply String_as_OT.cmp_eq in E2. rewrite <- E2, E1. done.
  - rewrite (compare_Lt_trans _ _ _ E1 E2). done.
Qed.

Lemma row_leb_same_bidder (x y : bid_row) :
  bidder_id x = bidder_id y -> row_leb x y = (time x <=? time y).
Proof. unfold row_leb. intros ->. by rewrite compare_refl. Qed.

Lemma events_of_sort_rows (a : string) (df : list bid_row) :
  chronological (events_of a df) (events_of a (sort_rows df)).
Proof.
  unfold events_of, sort_rows. split; [|split].
  - by rewrite stable_sort_perm.
  - eapply StronglySorted_filter_impl;
      [|apply stable_sort_sorted; [apply row_leb_total|apply row_leb_trans]].
    simpl. intros x y Hx Hy. rewrite row_leb_same_bidder by congruence.
    by rewrite Z.leb_le.
  - intros t. rewrite !list_filter_filter.
    apply stable_sort_filter. intros y z [Hy1 Hy2] [Hz1 Hz2].
    rewrite row_leb_same_bidder by congruence. apply Z.leb_le. lia.
Qed.

(** The two conditions on the order leave one list only. *)
Lemma sorted_classes_unique (l1 l2 : list bid_row) :
  StronglySorted (λ r1 r2, time r1 <= time r2) l1 ->
  StronglySorted (λ r1 r2, time r1 <= time r2) l2 ->
  (∀ t, filter (λ r, time r = t) l1 = filter (λ r, time r = t) l2) ->
  l1 = l2.
Proof.
  intros H1. revert l2. induction H1 as [|x l1 Hl1 IH Hx]; intros l2 H2 Hcls.
  - destruct l2 as [|y l2]; [done|]. specialize (Hcls (time y)).
    by rewrite filter_nil, filter_cons_True in Hcls.
  - destruct H2 as [|y l2 Hl2 Hy].
    { specialize (Hcls (time x)). by rewrite filter_cons_True, filter_nil in Hcls. }
    assert (x = y) as <-.
    { destruct (decide (time x = time y)) as [Heq|Hne].
      - specialize (Hcls (time x)).
        rewrite !filter_cons_True in Hcls by done. congruence.
      - exfalso.
        assert (x ∈ y :: l2) as Hin.
        { pose proof (Hcls (time x)) as Hc. rewrite filter_cons_True in Hc by done.
          assert (x ∈ filter (λ r, time r = time x) (y :: l2)) as Hf
            by (rewrite <- Hc; by left).
          by apply list_elem_of_filter in Hf as [_ ?]. }
        assert (y ∈ x :: l1) as Hin'.
        { pose proof (Hcls (time y)) as Hc. rewrite (filter_cons_True _ y) in Hc by done.
          assert (y ∈ filter (λ r, time r = time y) (x :: l1)) as Hf
            by (rewrite Hc; by left).
          by apply list_elem_of_filter in Hf as [_ ?]. }
        apply elem_of_cons in Hin as [->|Hin]; [done|].
        apply elem_of_cons in Hin' as [->|Hin']; [done|].
        rewrite Forall_forall in Hx, Hy.
        specialize (Hx y Hin'). specialize (Hy x Hin). lia. }
    f_equal. apply IH; [done|]. intros t. specialize (Hcls t).
    rewrite !filter_cons in Hcls. destruct (decide (time x = t)); congruence.
Qed.

Lemma chronological_unique (l l1 l2 : list bid_row) :
  chronological l l1 -> chronological l l2 -> l1 = l2.
Proof.
  intros (_ & Hs1 & Hc1) (_ & Hs2 & Hc2). apply sorted_classes_unique; [done..|].
  intros t. by rewrite Hc1, Hc2.
Qed.

(** ** Distinct values *)

Lemma elem_of_unique_from (seen : gset string) (l : list string) (x : string) :
  x ∈ unique_from seen l <-> x ∈ l ∧ x ∉ seen.
Proof.
  revert seen. induction l as [|y l IH]; intros seen; simpl.
  - rewrite elem_of_nil. tauto.
  - destruct (decide (y ∈ seen)) as [Hy|Hy].
    + rewrite IH, elem_of_cons. split; [tauto|].
      intros [[->|?] ?]; tauto.
    + rewrite !elem_of_cons, IH, elem_of_union, elem_of_singleton.
      destruct (decide (x = y)) as [->|]; tauto.
Qed.

Lemma NoDup_unique_from (seen : gset string) (l : list string) :
  NoDup (unique_from seen l).
Proof.
  revert seen. induction l as [|y l IH]; intros seen; simpl; [constructor|].
  destruct (decide (y ∈ seen)); [done|].
  constructor; [|done]. rewrite elem_of_unique_from. intros [_ Hn].
  apply Hn, elem_of_union. left. by apply elem_of_singleton.
Qed.

Lemma elem_of_unique (l : list string) (x : string) : x ∈ unique l <-> x ∈ l.
Proof.
  unfold unique. rewrite elem_of_unique_from. split; [tauto|].
  intros Hx. split; [done|]. apply not_elem_of_empty.
Qed.

Lemma NoDup_unique (l : list string) : NoDup (unique l).
Proof. apply NoDup_unique_from. Qed.

Lemma unique_from_set (seen : gset string) (l : list string) :
  list_to_set (unique_from seen l) = (list_to_set l ∖ seen : gset string).
Proof.
  apply set_eq. intros x.
  by rewrite elem_of_list_to_set, elem_of_unique_from, elem_of_difference,
    elem_of_list_to_set.
Qed.

(** [unique] lists a set: its length is the cardinality of the set of the
    values. *)
Lemma length_unique (l : list string) :
  length (unique l) = size (list_to_set l : gset string).
Proof.
  rewrite <- (size_list_to_set (C := gset string) (unique l)) by apply NoDup_unique.
  unfold unique. by rewrite unique_from_set, difference_empty_L.
Qed.

(** ** The time differences of one bidder *)

Lemma group_frame (a : string) (last : gmap string Z) (df : list bid_row)
    (mk : bid_row -> option Z -> frame_row) :
  (∀ r d, base (mk r d) = r) ->
  filter (λ r, bidder r = a) (zip_with mk df (groupby_diff last df))
  = zip_with mk (events_of a df) (diff_from (last !! a) (time <$> events_of a df)).
Proof.
  intros Hmk. revert last. induction df as [|r df IH]; intros last; [done|].
  simpl. unfold events_of. rewrite (filter_cons _ r).
  destruct (decide (bidder_id r = a)) as [<-|Hne].
  - rewrite filter_cons_True by (unfold bidder; by rewrite Hmk).
    simpl. f_equal. rewrite IH. by rewrite lookup_insert_eq.
  - rewrite filter_cons_False by (unfold bidder; by rewrite Hmk).
    rewrite IH. by rewrite lookup_insert_ne.
Qed.

Lemma length_groupby_diff (last : gmap string Z) (df : list bid_row) :
  length (groupby_diff last df) = length df.
Proof. revert last. induction df; intros; simpl; auto. Qed.

Lemma length_diff_from (prev : option Z) (ts : list Z) :
  length (diff_from prev ts) = length ts.
Proof. revert prev. induction ts; intros; simpl; auto. Qed.

Section Frame.
Context `{FloatStr}.

Lemma group_df_bids_sorted (a : string) (log : list bid_row) :
  group a (df_bids_sorted log)
  = zip_with (λ r d, {| base := r; timediff_num := d;
                        timediff := fillna "" (astype_str d) |})
      (events_of a (sort_rows (normalize log)))
      (series_diff (time <$> events_of a (sort_rows (normalize log)))).
Proof. unfold group, df_bids_sorted, add_timediff. by rewrite group_frame. Qed.

Lemma base_group (a : string) (log : list bid_row) :
  base <$> group a (df_bids_sorted log) = events_of a (sort_rows (normalize log)).
Proof.
  rewrite group_df_bids_sorted. apply fmap_zip_with_l; [done|].
  unfold series_diff. by rewrite length_diff_from, length_fmap.
Qed.

(** The differences of a bidder are those between the consecutive times of
    its rows in sorted order, after a first missing one. *)
Lemma timediff_num_group (a : string) (log : list bid_row) :
  timediff_num <$> group a (df_bids_sorted log)
  = series_diff (time <$> events_of a (sort_rows (normalize log))).
Proof.
  rewrite group_df_bids_sorted. apply fmap_zip_with_r; [done|].
  unfold series_diff. by rewrite length_diff_from, length_fmap.
Qed.

Lemma base_df_bids_sorted (log : list bid_row) :
  base <$> df_bids_sorted log = sort_rows (normalize log).
Proof.
  unfold df_bids_sorted, add_timediff. apply fmap_zip_with_l; [done|].
  by rewrite length_groupby_diff.
Qed.

(** The bidders with a row in [bids] are those of the normalized log. *)
Lemma elem_of_bidders (a : string) (log : list bid_row) :
  a ∈ bidders (df_bids_sorted log) <-> a ∈ bidder_id <$> normalize log.
Proof.
  unfold bidders. rewrite elem_of_unique.
  assert (bidder <$> df_bids_sorted log = bidder_id <$> (base <$> df_bids_sorted log)) as ->.
  { by rewrite <- list_fmap_compose. }
  rewrite base_df_bids_sorted. unfold sort_rows. by rewrite stable_sort_perm.
Qed.

Lemma group_chronological (a : string) (log : list bid_row) :
  chronological (events_of a (normalize log)) (base <$> group a (df_bids_sorted log)).
Proof. rewrite base_group. apply events_of_sort_rows. Qed.

Lemma length_group (a : string) (log : list bid_row) :
  length (group a (df_bids_sorted log)) = length (events_of a (normalize log)).
Proof.
  rewrite <- (length_fmap base), base_group. unfold events_of, sort_rows.
  apply Permutation_length. by rewrite stable_sort_perm.
Qed.

Lemma group_nonempty (a : string) (log : list bid_row) :
  a ∈ bidders (df_bids_sorted log) -> group a (df_bids_sorted log) ≠ [].
Proof.
  rewrite elem_of_bidders. intros [r [-> Hr]]%list_elem_of_fmap Hnil.
  apply (f_equal length) in Hnil. rewrite length_group in Hnil.
  assert (r ∈ events_of (bidder_id r) (normalize log)) as Hin.
  { by apply list_elem_of_filter. }
  destruct (events_of (bidder_id r) (normalize log)); [by apply elem_of_nil in Hin|done].
Qed.
End Frame.

(** ** Fingerprints *)

Lemma all_text_cols (var : text_col) : var ∈ text_cols.
Proof. destruct var; unfold text_cols; set_solver. Qed.

Lemma normalize_row_no_space (r : bid_row) :
  Forall no_space (string_cells (normalize_row r)).
Proof.
  destruct r as [? b au me de ? co i u]. unfold string_cells. simpl.
  constructor; [apply remove_spaces_no_space|].
  destruct au, me, de, co, i, u; simpl;
    repeat (constructor; try apply remove_spaces_no_space).
Qed.

Lemma no_space_col_name (var : text_col) : no_space (col_name var).
Proof. by destruct var. Qed.

Section Tokens.
Context `{FloatStr}.
Hypothesis float_str_no_space : ∀ z, no_space (float_str z).

Lemma frame_row_inv (r : frame_row) (log : list bid_row) :
  r ∈ df_bids_sorted log ->
  (∃ r0, r0 ∈ log ∧ base r = normalize_row r0)
  ∧ timediff r = fillna "" (astype_str (timediff_num r)).
Proof.
  unfold df_bids_sorted, add_timediff.
  intros (b & d & -> & Hb & _)%elem_of_zip_with. simpl. split; [|done].
  unfold sort_rows in Hb. rewrite stable_sort_perm in Hb.
  apply list_elem_of_fmap in Hb as (r0 & -> & Hr0). eauto.
Qed.

Lemma cell_no_space (var : text_col) (r : frame_row) (log : list bid_row) :
  r ∈ df_bids_sorted log -> no_space (cell var r).
Proof.
  intros [(r0 & _ & Hb) Ht]%frame_row_inv. unfold cell.
  apply no_space_app; [apply no_space_col_name|].
  apply no_space_app; [done|].
  pose proof (normalize_row_no_space r0) as Hns. rewrite <- Hb in Hns.
  assert (∀ c : option string, c ∈ [auction (base r); merchandise (base r);
            device (base r); country (base r); ip (base r); url (base r)] ->
          no_space (fillna "" c)) as Hc.
  { intros [s|] Hin; [|done]. simpl.
    unfold string_cells in Hns. apply Forall_cons in Hns as [_ Hns].
    rewrite Forall_forall in Hns. apply Hns.
    apply list_elem_of_omap. exists (Some s). by split. }
  destruct var; simpl;
    try (apply Hc; set_solver).
  rewrite Ht. destruct (timediff_num r); simpl; [apply float_str_no_space|done].
Qed.

Lemma tokens_text_of (var : text_col) (a : string) (log : list bid_row) :
  a ∈ bidders (df_bids_sorted log) ->
  tokens (text_of var (group a (df_bids_sorted log)))
  = cell var <$> group a (df_bids_sorted log).
Proof.
  intros Ha. unfold text_of. apply tokens_join.
  - intros Hnil%fmap_nil_inv. by apply group_nonempty in Ha.
  - apply Forall_fmap, Forall_forall. intros r [_ Hr]%list_elem_of_filter.
    by eapply cell_no_space.
Qed.
End Tokens.

Lemma elem_of_bids `{FloatStr} (r : agg_row) (log : list bid_row) :
  r ∈ bids log <->
  ∃ a, a ∈ bidder_id <$> normalize log ∧ r = agg_of (df_bids_sorted log) a.
Proof.
  unfold bids. rewrite list_elem_of_fmap. split.
  - intros (a & -> & Ha). exists a. by rewrite <- elem_of_bidders.
  - intros (a & Ha & ->). exists a. by rewrite elem_of_bidders.
Qed.

(** Every bidder of the normalized log has its row in [bids]. *)
Lemma bids_covers_log `{FloatStr} (a : string) (log : list bid_row) :
  a ∈ bidder_id <$> normalize log -> ∃ r, r ∈ bids log ∧ agg_bidder r = a.
Proof.
  intros Ha. exists (agg_of (df_bids_sorted log) a). split; [|done].
  apply elem_of_bids. by exists a.
Qed.

(** ** The columns of [bids] *)

Lemma size_list_to_set_fmap_inj (f : string -> string) (l : list string) :
  Inj (=) (=) f ->
  size (list_to_set (f <$> l) : gset string) = size (list_to_set l : gset string).
Proof.
  intros Hf. induction l as [|x l IH]; [done|].
  rewrite fmap_cons, !list_to_set_cons.
  destruct (decide (x ∈ l)) as [Hx|Hx].
  - assert (f x ∈ f <$> l) as Hfx by by apply list_elem_of_fmap_2.
    rewrite !subseteq_union_1_L; [done|..];
      apply singleton_subseteq_l; by apply elem_of_list_to_set.
  - assert (f x ∉ f <$> l) as Hfx.
    { intros (y & Hy%Hf & Hin)%list_elem_of_fmap. by subst. }
    rewrite !size_union, !size_singleton, IH; [done|..];
      apply disjoint_singleton_l; by rewrite elem_of_list_to_set.
Qed.

Lemma append_inj_l (p : string) : Inj (=) (=) (String.append p).
Proof.
  intros x y. induction p as [|c p IH]; intros Hxy; [exact Hxy|].
  injection Hxy as Hxy. auto.
Qed.

Lemma append_assoc (s1 s2 s3 : string) : (s1 +:+ s2) +:+ s3 = s1 +:+ (s2 +:+ s3).
Proof.
  induction s1 as [|c s1 IH]; [done|].
  change (String c ((s1 +:+ s2) +:+ s3) = String c (s1 +:+ (s2 +:+ s3))).
  by rewrite IH.
Qed.

Lemma dropna_Some {A} (l : list A) : dropna (Some <$> l) = l.
Proof. unfold dropna. induction l as [|x l IH]; [done|]. cbn. by f_equal. Qed.

Lemma nunique_of_filled (var : text_col) (g : list frame_row) :
  nunique_of var g
  = size (list_to_set ((λ x, fillna "" (raw_cell var x)) <$> g) : gset string).
Proof.
  unfold nunique_of, nunique. rewrite dropna_Some, length_unique.
  assert (cell var <$> g
          = String.append (col_name var +:+ "_") <$> ((λ x, fillna "" (raw_cell var x)) <$> g))
    as ->.
  { rewrite <- list_fmap_compose. apply list_fmap_ext. intros _ x _. simpl.
    unfold cell. by rewrite append_assoc. }
  apply size_list_to_set_fmap_inj, append_inj_l.
Qed.

Lemma filled_no_missing (var : text_col) (g : list frame_row) :
  Forall (λ x, is_Some (raw_cell var x)) g ->
  (λ x, fillna "" (raw_cell var x)) <$> g = dropna (raw_cell var <$> g).
Proof.
  unfold dropna. induction 1 as [|x l [v Hv] _ IH]; [done|].
  cbn. rewrite Hv. cbn. f_equal. exact IH.
Qed.

Lemma insert_sorted_fmap {A B} (f : A -> B) (leb : B -> B -> bool) (x : A) (l : list A) :
  insert_sorted leb (f x) (f <$> l) = f <$> insert_sorted (λ a b, leb (f a) (f b)) x l.
Proof.
  induction l as [|y l IH]; [done|]. rewrite fmap_cons. cbn [insert_sorted].
  destruct (leb (f x) (f y)); [done|]. rewrite fmap_cons. f_equal. apply IH.
Qed.

Lemma stable_sort_fmap {A B} (f : A -> B) (leb : B -> B -> bool) (l : list A) :
  stable_sort leb (f <$> l) = f <$> stable_sort (λ a b, leb (f a) (f b)) l.
Proof.
  unfold stable_sort. induction l as [|x l IH]; [done|].
  rewrite fmap_cons. cbn [foldr]. rewrite IH. apply insert_sorted_fmap.
Qed.

Lemma filter_fmap {A B} (f : A -> B) (P : B -> Prop) `{!∀ x, Decision (P x)} (l : list A) :
  filter P (f <$> l) = f <$> filter (λ x, P (f x)) l.
Proof.
  induction l as [|x l IH]; [done|].
  rewrite fmap_cons, (filter_cons _ (f x)), (filter_cons _ x).
  destruct (decide (P (f x))); [rewrite fmap_cons|]; by rewrite IH.
Qed.

(** The rows of the group of a bidder are the rows that the file has for
    the bidder, with the spaces removed, in chronological order. *)
Lemma group_raw_events `{FloatStr} (a : string) (log : list bid_row) :
  ∃ evs, chronological (raw_events a log) evs
         ∧ base <$> group a (df_bids_sorted log) = normalize_row <$> evs.
Proof.
  set (leb := λ x y, row_leb (normalize_row x) (normalize_row y)).
  exists (raw_events a (stable_sort leb log)). split.
  - unfold raw_events. split; [|split].
    + by rewrite stable_sort_perm.
    + eapply StronglySorted_filter_impl; [|apply (stable_sort_sorted leb)].
      * simpl. intros x y Hx Hy. unfold leb.
        rewrite row_leb_same_bidder by (simpl; congruence). by rewrite Z.leb_le.
      * intros x y. apply row_leb_total.
      * intros x y z. apply row_leb_trans.
    + intros t. rewrite !list_filter_filter.
      apply stable_sort_filter. intros y z [Hy1 Hy2] [Hz1 Hz2]. unfold leb.
      rewrite row_leb_same_bidder by (simpl; congruence). simpl. apply Z.leb_le. lia.
  - rewrite base_group. unfold events_of, sort_rows, normalize, raw_events.
    rewrite stable_sort_fmap. fold leb. by rewrite filter_fmap.
Qed.

Lemma cell_no_space_of `{FloatStr} (var : text_col) (r : frame_row) (log : list bid_row) :
  (var = Timediff -> ∀ z, no_space (float_str z)) ->
  r ∈ df_bids_sorted log -> no_space (cell var r).
Proof.
  intros Hfs [(r0 & _ & Hb) Ht]%frame_row_inv. unfold cell.
  apply no_space_app; [apply no_space_col_name|].
  apply no_space_app; [done|].
  pose proof (normalize_row_no_space r0) as Hns. rewrite <- Hb in Hns.
  assert (∀ c : option string, c ∈ [auction (base r); merchandise (base r);
            device (base r); country (base r); ip (base r); url (base r)] ->
          no_space (fillna "" c)) as Hc.
  { intros [s|] Hin; [|done]. simpl.
    unfold string_cells in Hns. apply Forall_cons in Hns as [_ Hns].
    rewrite Forall_forall in Hns. apply Hns.
    apply list_elem_of_omap. exists (Some s). by split. }
  destruct var; simpl;
    try (apply Hc; set_solver).
  rewrite Ht. destruct (timediff_num r); simpl; [by apply Hfs|done].
Qed.

Lemma tokens_text_of_column `{FloatStr} (var : text_col) (a : string) (log : list bid_row) :
  (var = Timediff -> ∀ z, no_space (float_str z)) ->
  a ∈ bidders (df_bids_sorted log) ->
  tokens (text_of var (group a (df_bids_sorted log)))
  = cell var <$> group a (df_bids_sorted log).
Proof.
  intros Hfs Ha. unfold text_of. apply tokens_join.
  - intros Hnil%fmap_nil_inv. by apply group_nonempty in Ha.
  - apply Forall_fmap, Forall_forall. intros r [_ Hr]%list_elem_of_filter.
    by eapply cell_no_space_of.
Qed.

(** A column of the file reads, in a row of the frame, the field of the
    row with its spaces removed. *)
Lemma raw_cell_field (var : text_col) (field : bid_row -> option string) :
  (var, field) ∈ file_columns ->
  (∀ x, raw_cell var x = field (base x))
  ∧ ∀ e, field (normalize_row e) = remove_spaces <$> field e.
Proof.
  unfold file_columns. intros Hf.
  repeat (apply elem_of_cons in Hf as [[= -> ->]|Hf]); try done.
  by apply elem_of_nil in Hf.
Qed.

(** C3: for every bidder of the aggregated table and every column of
    [text_cols], the tokens of the fingerprint, split at the spaces, are
    the cells of the bidder's rows, one token per row, and the rows are
    the events of the bidder in the file (those whose id is the bidder's
    once the spaces are removed) in ascending order of [time], events with
    the same [time] in the order they have in the file.  For a column of
    the file the token of an event is the column name, an underscore and
    the value of the event without its spaces, nothing for a missing one.
    For the column of the time differences the printed numbers must have
    no space in them. *)
Theorem fingerprint_chronological `{FloatStr}
    (log : list bid_row) (r : agg_row) (var : text_col) :
  r ∈ bids log ->
  var ∈ text_cols ->
  (var = Timediff -> ∀ z, no_space (float_str z)) ->
  ∃ evs,
    chronological (raw_events (agg_bidder r) log) evs
    ∧ base <$> group (agg_bidder r) (df_bids_sorted log) = normalize_row <$> evs
    ∧ tokens (text r var) = cell var <$> group (agg_bidder r) (df_bids_sorted log)
    ∧ ∀ field, (var, field) ∈ file_columns ->
        tokens (text r var)
        = (λ e, col_name var +:+ "_" +:+ fillna "" (remove_spaces <$> field e)) <$> evs.
Proof.
  intros (a & Ha%elem_of_bidders & ->)%elem_of_bids _ Hfs. simpl.
  destruct (group_raw_events a log) as (evs & Hchr & Hbase).
  pose proof (tokens_text_of_column var a log Hfs Ha) as Htok.
  exists evs. split; [done|]. split; [done|]. split; [done|].
  intros field [Hcell Hnorm]%raw_cell_field. rewrite Htok.
  transitivity ((λ b, col_name var +:+ "_" +:+ fillna "" (field b))
                  <$> (base <$> group a (df_bids_sorted log))).
  - rewrite <- list_fmap_compose. apply list_fmap_ext. intros _ x _. simpl.
    unfold cell. by rewrite Hcell.
  - rewrite Hbase, <- list_fmap_compose. apply list_fmap_ext. intros _ e _. simpl.
    by rewrite Hnorm.
Qed.

Lemma fingerprint_chronological_witness :
  ∃ evs,
    chronological (raw_events "bob" tied_bids) evs
    ∧ base <$> group "bob" (df_bids_sorted (H := small_float_str) tied_bids)
      = normalize_row <$> evs
    ∧ tokens (text tied_row Merchandise)
      = cell Merchandise <$> group "bob" (df_bids_sorted (H := small_float_str) tied_bids)
    ∧ ∀ field, (Merchandise, field) ∈ file_columns ->
        tokens (text tied_row Merchandise)
        = (λ e, "merchandise" +:+ "_" +:+ fillna "" (remove_spaces <$> field e)) <$> evs.
Proof.
  apply (fingerprint_chronological (H := small_float_str) tied_bids tied_row Merchandise).
  - unfold tied_row, bids. apply list_elem_of_fmap_2. vm_compute. by left.
  - vm_compute. do 1 right. by left.
  - discriminate.
Defined.

(** Three bids of one bidder, the two at the time 10 after the one at the
    time 20 in the file: the tokens are those of the two in file order,
    then that of the late one. *)
Example tied_fingerprint :
  text tied_row Merchandise = "merchandise_first merchandise_second merchandise_late".
Proof. vm_compute. reflexivity. Qed.

(** C9: no string cell of the normalized log has a space in it, and
    splitting a fingerprint at the spaces gives back the tokens of the
    bidder's rows, one token per row, in chronological order; joining them
    again gives the fingerprint. *)
Theorem space_join_invertible `{FloatStr} (log : list bid_row) :
  (∀ z, no_space (float_str z)) ->
  (∀ e, e ∈ normalize log -> Forall no_space (string_cells e))
  ∧ (∀ r var, r ∈ bids log -> var ∈ text_cols ->
       tokens (text r var) = cell var <$> group (agg_bidder r) (df_bids_sorted log)
       ∧ join (tokens (text r var)) = text r var
       ∧ chronological (events_of (agg_bidder r) (normalize log))
                       (base <$> group (agg_bidder r) (df_bids_sorted log))).
Proof.
  intros Hfs. split.
  - intros e (r0 & -> & _)%list_elem_of_fmap. apply normalize_row_no_space.
  - intros r var (a & Ha%elem_of_bidders & ->)%elem_of_bids _. simpl.
    rewrite (tokens_text_of Hfs var a log Ha). split; [done|]. split; [done|].
    apply group_chronological.
Qed.

Lemma pretty_N_go_no_space (m : N) (s : string) :
  no_space s -> no_space (pretty_N_go m s).
Proof.
  revert s. induction (N.lt_wf_0 m) as [m _ IH]; intros s Hs.
  destruct (decide (m = 0%N)) as [->|Hm]; [by rewrite pretty_N_go_0|].
  rewrite pretty_N_go_step by lia. apply IH.
  - apply N.div_lt; lia.
  - unfold no_space in *. simpl. rewrite Hs, orb_false_r.
    unfold pretty_N_char. by repeat case_match.
Qed.

Lemma pretty_N_no_space (n : N) : no_space (pretty n).
Proof.
  unfold pretty, pretty_N. destruct (decide (n = 0%N)); [done|].
  by apply pretty_N_go_no_space.
Qed.

Lemma small_float_str_no_space (z : Z) : no_space (small_float_str z).
Proof.
  unfold small_float_str. apply no_space_app; [|done].
  unfold pretty, pretty_Z. destruct z as [|p|p]; [done|..].
  - apply (pretty_N_no_space (N.pos p)).
  - apply no_space_app; [done|apply (pretty_N_no_space (N.pos p))].
Qed.

Lemma space_join_invertible_witness :
  (∀ e, e ∈ normalize three_bids -> Forall no_space (string_cells e))
  ∧ (∀ r var, r ∈ bids (H := small_float_str) three_bids -> var ∈ text_cols ->
       tokens (text r var)
       = cell var <$> group (agg_bidder r) (df_bids_sorted (H := small_float_str) three_bids)
       ∧ join (tokens (text r var)) = text r var
       ∧ chronological (events_of (agg_bidder r) (normalize three_bids))
           (base <$> group (agg_bidder r)
                       (df_bids_sorted (H := small_float_str) three_bids))).
Proof.
  apply (space_join_invertible (H := small_float_str) three_bids).
  exact small_float_str_no_space.
Defined.

Example bob_tokens :
  tokens (text bob_row Device) = ["device_phone4"; "device_phone4"; "device_phone4"]
  ∧ tokens (text bob_row Merchandise)
    = ["merchandise_a"; "merchandise_b"; "merchandise_a"].
Proof. vm_compute. done. Qed.

(** *** The string form of the time differences *)

Section TimediffText.
Context `{FloatStr}.

(** The first row of a group has a NaN difference, which [astype(str)]
    turns into the string [nan] before [fillna('')] runs. *)
Lemma first_timediff_token (a : string) (log : list bid_row) :
  a ∈ bidders (df_bids_sorted log) ->
  head (cell Timediff <$> group a (df_bids_sorted log)) = Some "timediff_nan".
Proof.
  intros Ha. pose proof (group_nonempty a log Ha) as Hne.
  rewrite group_df_bids_sorted in *.
  destruct (events_of a (sort_rows (normalize log))) as [|e evs]; [done|].
  done.
Qed.

Hypothesis float_str_no_space : ∀ z, no_space (float_str z).

(** One token per bid, and the first one is [timediff_nan]. *)
Lemma timediff_text_tokens (log : list bid_row) (r : agg_row) :
  r ∈ bids log ->
  length (tokens (text r Timediff)) = length (events_of (agg_bidder r) (normalize log))
  ∧ head (tokens (text r Timediff)) = Some "timediff_nan".
Proof.
  intros (a & Ha%elem_of_bidders & ->)%elem_of_bids. simpl.
  rewrite tokens_text_of by done. split.
  - by rewrite length_fmap, length_group.
  - by apply first_timediff_token.
Qed.
End TimediffText.

(** C10: for the bidder with bids at the times 10, 15 and 40 the string
    form of the time differences has three tokens, one per bid, and its
    first token is [timediff_nan], not the bare tag [timediff_]. *)
Theorem timediff_first_token_is_nan :
  text bob_row Timediff = "timediff_nan timediff_5.0 timediff_25.0"
  ∧ tokens (text bob_row Timediff) = ["timediff_nan"; "timediff_5.0"; "timediff_25.0"]
  ∧ length (tokens (text bob_row Timediff))
    = length (events_of "bob" (normalize three_bids))
  ∧ head (tokens (text bob_row Timediff)) ≠ Some "timediff_".
Proof. vm_compute. repeat split; done. Qed.

(** *** The difference statistics *)

(** Lines 201 and 204 are the same reduction, so the two columns agree on
    every row. *)
Lemma mindiff_is_maxdiff `{FloatStr} (log : list bid_row) (r : agg_row) :
  r ∈ bids log -> mindiff_num r = maxdiff_num r.
Proof. by intros (a & _ & ->)%elem_of_bids. Qed.

(** C1: for the bidder with bids at the times 10, 15 and 40 the
    differences are 5 and 25; the emitted [mindiff_num] is 25, their
    maximum, where their minimum is 5, and the emitted [rangediff_num] is 0
    where the maximum minus the minimum is 20. *)
Theorem mindiff_is_largest_difference :
  let diffs := timediff_num <$> group "bob" (df_bids_sorted (H := small_float_str) three_bids) in
  diffs = [None; Some 5; Some 25]
  ∧ series_min diffs = Some 5
  ∧ series_max diffs = Some 25
  ∧ mindiff_num bob_row = Some (inject_Z 25)
  ∧ maxdiff_num bob_row = Some (inject_Z 25)
  ∧ rangediff_num bob_row = Some (inject_Z 0).
Proof. vm_compute. repeat split; done. Qed.

(** The range column is zero wherever it has a value. *)
Lemma at_key_values {A} (s : list (string * A)) (a : string) (v : A) :
  at_key s a = Some v -> v ∈ values s.
Proof.
  unfold at_key, values.
  destruct (list_find _ s) as [[i [k w]]|] eqn:E; [|done].
  intros [= <-]. apply list_find_Some in E as (Hi & _ & _).
  apply list_elem_of_fmap. exists (k, w). split; [done|].
  by eapply list_elem_of_lookup_2.
Qed.

Lemma rangediff_zero `{FloatStr} (log : list bid_row) (r : agg_row) (q : Q) :
  r ∈ bids log -> rangediff_num r = Some q -> (q == 0)%Q.
Proof.
  intros (a & _ & ->)%elem_of_bids. simpl. unfold cell_of.
  destruct (at_key _ a) as [v|] eqn:E; [|done]. simpl. intros ->.
  apply at_key_values in E. unfold range_diff, min_diff, values in E.
  rewrite zip_with_diag, snd_zip in E by (by rewrite !length_fmap).
  apply list_elem_of_fmap in E as ([p|] & Hq & _); [|done].
  injection Hq as ->. unfold Qminus. apply Qplus_opp_r.
Qed.

Lemma at_key_fmap {A} (g : string -> A) (keys : list string) (a : string) :
  a ∈ keys -> at_key ((λ k, (k, g k)) <$> keys) a = Some (g a).
Proof.
  unfold at_key. induction keys as [|k keys IH]; intros Ha; [by apply elem_of_nil in Ha|].
  rewrite fmap_cons. cbn [list_find]. simpl.
  destruct (decide (k = a)) as [->|Hne]; [done|].
  apply elem_of_cons in Ha as [->|Ha]; [done|].
  specialize (IH Ha). destruct (list_find _ _) as [[i p]|]; [|done].
  simpl in *. done.
Qed.

Lemma zip_keys {A} (g : string -> A) (keys : list string) :
  zip keys (g <$> keys) = (λ k, (k, g k)) <$> keys.
Proof. induction keys as [|k keys IH]; [done|]. cbn. by rewrite <- IH. Qed.

(** The filled series of a reduction keeps the value of every group that
    has one. *)
Lemma fill_series_Some (f : list frame_row -> option Q) (df : list frame_row)
    (a : string) (q : Q) :
  a ∈ bidders df -> f (group a df) = Some q ->
  cell_of (fill_series (groupby_agg f df)) a = Some q.
Proof.
  intros Ha Hq. unfold cell_of, fill_series, groupby_agg, values, fillna_mean.
  rewrite <- !list_fmap_compose.
  rewrite (list_fmap_ext (fst ∘ (λ a0, (a0, f (group a0 df)))) id (bidders df)) by done.
  rewrite list_fmap_id.
  destruct (series_mean _) as [m|].
  - rewrite <- list_fmap_compose, zip_keys.
    rewrite (at_key_fmap _ _ _ Ha). simpl. by rewrite Hq.
  - rewrite zip_keys. rewrite (at_key_fmap _ _ _ Ha). simpl. by rewrite Hq.
Qed.

(** For a bidder with a time difference, both [mindiff_num] and
    [maxdiff_num] hold the largest of the bidder's differences. *)
Lemma mindiff_is_group_max `{FloatStr} (log : list bid_row) (r : agg_row) (m : Z) :
  r ∈ bids log ->
  series_max (timediff_num <$> group (agg_bidder r) (df_bids_sorted log)) = Some m ->
  mindiff_num r = Some (inject_Z m) ∧ maxdiff_num r = Some (inject_Z m).
Proof.
  intros (a & Ha%elem_of_bidders & ->)%elem_of_bids Hm. simpl in *.
  unfold min_diff, max_diff.
  rewrite (fill_series_Some group_max_diff _ a (inject_Z m) Ha); [done|].
  unfold group_max_diff. by rewrite Hm.
Qed.

(** *** The unique counts *)

(** C8, that the count of a column is the number of distinct values in the
    bidder's events, fails: a missing cell is counted as the empty string.
    With a missing country next to [us] the count is 2 for one value; with
    a missing url next to a url that normalization leaves empty the count
    is 1, where there are two cells if the missing one is taken as a value
    of its own. *)
Lemma nunique_counts_missing_cell :
  gap_row ∈ bids (H := small_float_str) gap_bids
  ∧ raw_cell Country <$> group "bob" (df_bids_sorted (H := small_float_str) gap_bids)
    = [None; Some "us"]
  ∧ distinct_values
      (raw_cell Country <$> group "bob" (df_bids_sorted (H := small_float_str) gap_bids))
    = 1%nat
  ∧ nunique_num gap_row Country = 2%nat
  ∧ raw_cell Url <$> group "bob" (df_bids_sorted (H := small_float_str) gap_bids)
    = [Some ""; None]
  ∧ distinct_cells
      (raw_cell Url <$> group "bob" (df_bids_sorted (H := small_float_str) gap_bids))
    = 2%nat
  ∧ nunique_num gap_row Url = 1%nat.
Proof.
  split.
  - unfold gap_row, bids. apply list_elem_of_fmap_2. vm_compute. by left.
  - vm_compute. done.
Qed.

Lemma filled_raw_events `{FloatStr} (var : text_col) (field : bid_row -> option string)
    (a : string) (log : list bid_row) :
  (var, field) ∈ file_columns ->
  (λ x, fillna "" (raw_cell var x)) <$> group a (df_bids_sorted log)
  ≡ₚ (λ e, fillna "" (remove_spaces <$> field e)) <$> raw_events a log.
Proof.
  intros [Hcell Hnorm]%raw_cell_field.
  destruct (group_raw_events a log) as (evs & (Hperm & _) & Hbase).
  rewrite <- Hperm.
  assert ((λ x, fillna "" (raw_cell var x)) <$> group a (df_bids_sorted log)
          = (λ e, fillna "" (remove_spaces <$> field e)) <$> evs) as ->; [|done].
  transitivity ((λ b, fillna "" (field b)) <$> (base <$> group a (df_bids_sorted log))).
  - rewrite <- list_fmap_compose.
    apply list_fmap_ext. intros _ x _. simpl. by rewrite Hcell.
  - rewrite Hbase, <- list_fmap_compose.
    apply list_fmap_ext. intros _ e _. simpl. by rewrite Hnorm.
Qed.

Lemma filled_no_space (field : bid_row -> option string) (l : list bid_row) :
  Forall (λ e, ∃ v, field e = Some v ∧ no_space v) l ->
  (λ e, fillna "" (remove_spaces <$> field e)) <$> l = dropna (field <$> l).
Proof.
  unfold dropna. induction 1 as [|e l (v & Hv & Hns) _ IH]; [done|].
  cbn. rewrite Hv. cbn. apply remove_spaces_id in Hns. rewrite Hns. f_equal. exact IH.
Qed.

(** C8, amended: for every bidder of the aggregated table and every column
    of [text_cols], the count is the number of distinct cells of the column
    in the bidder's rows of the sorted frame, a missing cell read as the
    empty string.  For a column of the file these cells are the values of
    the bidder's events in the file (the events whose id is the bidder's
    once the spaces are removed) after cell 3 took the spaces out of them:
    two values that differ in their spaces only are counted once, and a
    missing value is counted as one value, the same as an empty one.  When
    no value of the bidder's events is missing and none has a space in it,
    the count is the cardinality of the set of the distinct values of the
    events in the file. *)
Theorem nunique_counts_filled_values `{FloatStr}
    (log : list bid_row) (r : agg_row) (var : text_col) :
  r ∈ bids log ->
  var ∈ text_cols ->
  nunique_num r var
  = size (list_to_set ((λ x, fillna "" (raw_cell var x))
                         <$> group (agg_bidder r) (df_bids_sorted log)) : gset string)
  ∧ ∀ field, (var, field) ∈ file_columns ->
      nunique_num r var
      = size (list_to_set ((λ e, fillna "" (remove_spaces <$> field e))
                             <$> raw_events (agg_bidder r) log) : gset string)
      ∧ (Forall (λ e, ∃ v, field e = Some v ∧ no_space v) (raw_events (agg_bidder r) log) ->
         nunique_num r var = distinct_values (field <$> raw_events (agg_bidder r) log)).
Proof.
  intros (a & _ & ->)%elem_of_bids _. simpl.
  rewrite nunique_of_filled. split; [done|].
  intros field Hf.
  assert (size (list_to_set ((λ x, fillna "" (raw_cell var x))
                               <$> group a (df_bids_sorted log)) : gset string)
          = size (list_to_set ((λ e, fillna "" (remove_spaces <$> field e))
                                 <$> raw_events a log) : gset string)) as ->.
  { f_equal. apply list_to_set_perm_L. by apply filled_raw_events. }
  split; [done|].
  intros Hall. unfold distinct_values. by rewrite filled_no_space.
Qed.

Lemma nunique_counts_filled_values_witness :
  nunique_num bob_row Merchandise
  = size (list_to_set ((λ x, fillna "" (raw_cell Merchandise x))
                         <$> group "bob" (df_bids_sorted (H := small_float_str) three_bids))
          : gset string)
  ∧ nunique_num bob_row Merchandise
    = size (list_to_set ((λ e, fillna "" (remove_spaces <$> merchandise e))
                           <$> raw_events "bob" three_bids) : gset string)
  ∧ nunique_num bob_row Merchandise
    = distinct_values (merchandise <$> raw_events "bob" three_bids).
Proof.
  destruct (nunique_counts_filled_values (H := small_float_str) three_bids bob_row
              Merchandise) as [Hframe Hfile].
  - unfold bob_row, bids. apply list_elem_of_fmap_2. vm_compute. right. by left.
  - vm_compute. do 1 right. by left.
  - destruct (Hfile merchandise) as [Hvalues Hraw].
    + unfold file_columns. right. by left.
    + split; [exact Hframe|]. split; [exact Hvalues|]. apply Hraw.
      repeat constructor; by eexists.
Defined.

(** The bidder of the three bids on the categories a, b and a has the
    count 2 for the column; two urls that differ in a space only are
    counted once. *)
Example bob_merchandise_count :
  nunique_num bob_row Merchandise = 2%nat
  ∧ distinct_values (merchandise <$> raw_events "bob" three_bids) = 2%nat
  ∧ nunique_num
      (agg_of (df_bids_sorted (H := small_float_str)
                 [ {| bid_id := 1; bidder_id := "bob"; auction := None;
                      merchandise := None; device := None; time := 10;
                      country := None; ip := None; url := Some "a b" |};
                   {| bid_id := 2; bidder_id := "bob"; auction := None;
                      merchandise := None; device := None; time := 15;
                      country := None; ip := None; url := Some "ab" |} ]) "bob") Url
    = 1%nat.
Proof. vm_compute. done. Qed.

(** ** The join and the split *)

Lemma filter_key_NoDup {A} (f : A -> string) (k : string) (l : list A) :
  NoDup (f <$> l) -> (length (filter (λ x, f x = k) l) <= 1)%nat.
Proof.
  induction l as [|x l IH]; [simpl; lia|].
  rewrite fmap_cons, NoDup_cons. intros [Hx Hl].
  rewrite filter_cons. destruct (decide (f x = k)) as [<-|]; [|by apply IH].
  assert (filter (λ y, f y = f x) l = []) as ->; [|simpl; lia].
  destruct (filter (λ y, f y = f x) l) as [|y ys] eqn:E; [done|].
  assert (y ∈ filter (λ y, f y = f x) l) as [Heq Hy]%list_elem_of_filter
    by (rewrite E; by left).
  destruct Hx. rewrite <- Heq. by apply list_elem_of_fmap_2.
Qed.

(** With one row per key on the right, the left join keeps the rows of the
    left table, one for one and in order. *)
Lemma merge_left_roster (left : list combo_row) (right : list agg_row) :
  NoDup (agg_bidder <$> right) ->
  roster_part <$> merge_left left right = roster_part <$> left.
Proof.
  intros Hnd. unfold merge_left. induction left as [|l left IH]; [done|].
  rewrite bind_cons, fmap_app, IH, fmap_cons. clear IH.
  pose proof (filter_key_NoDup agg_bidder (combo_bidder_id l) right Hnd) as Hlen.
  destruct (filter _ right) as [|m [|m' ms]]; simpl in *; [done|done|lia].
Qed.

Lemma NoDup_bids_keys `{FloatStr} (log : list bid_row) : NoDup (agg_bidder <$> bids log).
Proof.
  unfold bids. rewrite <- list_fmap_compose.
  rewrite (list_fmap_ext _ id (bidders (df_bids_sorted log))) by done.
  rewrite list_fmap_id. apply NoDup_unique.
Qed.

Lemma df_combo_roster `{FloatStr} (df_bids : list bid_row)
    (df_train : list train_row) (df_test : list test_row) :
  roster_part <$> df_combo df_bids df_train df_test
  = roster_part <$> append_rosters df_train df_test.
Proof. apply merge_left_roster, NoDup_bids_keys. Qed.







(** ** The bag *)

Lemma zip_with_seq {A B C} (f : A -> B -> C) (g : nat -> A) (d : B) (n : nat) (v : list B) :
  length v = n ->
  zip_with f (g <$> seq 0 n) v = (λ j, f (g j) (nth j v d)) <$> seq 0 n.
Proof.
  intros Hv. apply list_eq. intros j.
  rewrite lookup_zip_with, !list_lookup_fmap.
  destruct (decide (j < n)%nat) as [Hj|Hj].
  - rewrite lookup_seq_lt by done. simpl.
    destruct (v !! j) as [x|] eqn:E.
    + simpl. by rewrite (nth_lookup_Some _ _ d _ E).
    + apply lookup_ge_None in E. lia.
  - by rewrite lookup_seq_ge by lia.
Qed.

Section Bag.
Context `{Classifier} (xtrain : matrix) (y : list Q) (xtest : matrix) (n : nat).
Hypothesis predict_rows : ∀ p, length (predict_proba p xtrain y xtest) = n.

Local Abbreviation filled_at := (filled xtrain y xtest n).
Local Abbreviation proba := (proba_of xtrain y xtest).

Lemma set_column_filled (i m : nat) :
  set_column i (predict_proba (set_params_seed (Z.of_nat i + 1) clf) xtrain y xtest)
             (filled_at i (S m))
  = Some (filled_at (S i) m).
Proof.
  unfold set_column, filled.
  rewrite decide_True by (by rewrite predict_rows, length_fmap, length_seq).
  f_equal. rewrite (zip_with_seq _ _ 0%Q) by apply predict_rows.
  apply list_fmap_ext. intros _ j _.
  rewrite insert_app_r_alt by (by rewrite length_fmap, length_seq).
  rewrite length_fmap, length_seq, Nat.sub_diag, seq_S, fmap_app.
  by rewrite <- app_assoc.
Qed.

Lemma bag_rounds_filled (m i : nat) (c : xgb_params) :
  (∀ s, set_params_seed s c = set_params_seed s clf) ->
  bag_rounds (seq i m) c xtrain y xtest (filled_at i m) = Some (filled_at (i + m) 0).
Proof.
  revert i c. induction m as [|m IH]; intros i c Hc; simpl.
  - by rewrite Nat.add_0_r.
  - rewrite Hc, set_column_filled, IH; [|done].
    f_equal. f_equal. lia.
Qed.

Lemma zeros_filled (m : nat) : zeros n m = filled_at 0 m.
Proof.
  unfold zeros, filled. apply list_eq. intros j.
  rewrite list_lookup_fmap. destruct (decide (j < n)%nat).
  - rewrite lookup_replicate_2, lookup_seq_lt by done. done.
  - rewrite lookup_seq_ge by lia. apply lookup_replicate_None. lia.
Qed.

Lemma bagged_preds_rows :
  bagged_preds n xtrain y xtest
  = Some ((λ j, mean ((λ s, proba s j) <$> seeds)) <$> seq 0 n).
Proof.
  unfold bagged_preds. rewrite zeros_filled, bag_rounds_filled by done.
  rewrite Nat.add_0_l. unfold mean_axis1, filled.
  change (?f <$> Some ?x) with (Some (f x)). f_equal.
  rewrite <- list_fmap_compose.
  apply list_fmap_ext. intros _ j _. unfold compose.
  change (replicate 0 0%Q) with (@nil Q). rewrite app_nil_r.
  unfold seeds. by rewrite <- list_fmap_compose.
Qed.
End Bag.

(** C5: with one probability per test row from every instance, the final
    prediction of each row is the mean, a sum divided by 15, of the
    probabilities that the instances with the seeds 1 to 15 give that row;
    an instance is the classifier of line 487 with its seed replaced. *)
Theorem bagged_preds_mean_of_seeds `{Classifier}
    (xtrain : matrix) (y : list Q) (xtest : matrix) (n : nat) :
  (∀ p, length (predict_proba p xtrain y xtest) = length xtest) ->
  length xtest = n ->
  seeds = [1; 2; 3; 4; 5; 6; 7; 8; 9; 10; 11; 12; 13; 14; 15]
  ∧ (∀ s, seed (set_params_seed s clf) = s ∧ set_params_seed (seed clf) (set_params_seed s clf) = clf)
  ∧ ∃ bagged,
      bagged_preds n xtrain y xtest = Some bagged
      ∧ length bagged = n
      ∧ ∀ j, (j < n)%nat ->
          bagged !! j
          = Some (Qsum ((λ s, nth j (predict_proba (set_params_seed s clf) xtrain y xtest) 0%Q)
                          <$> seeds) / 15)%Q.
Proof.
  intros Hrows Hn. split; [done|]. split; [done|].
  eexists. split; [apply bagged_preds_rows; intros p; by rewrite Hrows|].
  split; [by rewrite length_fmap, length_seq|].
  intros j Hj. rewrite list_lookup_fmap, lookup_seq_lt by done. done.
Qed.

Lemma bagged_preds_mean_of_seeds_witness :
  seeds = [1; 2; 3; 4; 5; 6; 7; 8; 9; 10; 11; 12; 13; 14; 15]
  ∧ (∀ s, seed (set_params_seed s clf) = s ∧ set_params_seed (seed clf) (set_params_seed s clf) = clf)
  ∧ ∃ bagged,
      bagged_preds (H := demo_classifier) 2 [[5%Q]] [1%Q] [[3%Q]; [2%Q]] = Some bagged
      ∧ length bagged = 2%nat
      ∧ ∀ j, (j < 2)%nat ->
          bagged !! j
          = Some (Qsum ((λ s, nth j (predict_proba (Classifier := demo_classifier)
                                       (set_params_seed s clf) [[5%Q]] [1%Q] [[3%Q]; [2%Q]]) 0%Q)
                          <$> seeds) / 15)%Q.
Proof.
  apply (bagged_preds_mean_of_seeds (H := demo_classifier) [[5%Q]] [1%Q] [[3%Q]; [2%Q]] 2).
  - intros p. reflexivity.
  - reflexivity.
Defined.

(** ** The order check *)

Lemma np_eq_same_length (a b : list string) :
  length a = length b ->
  ∃ same, np_eq a b = Some same ∧ np_all same = bool_decide (a = b).
Proof.
  intros Hlen. unfold np_eq, broadcast. rewrite decide_True by done.
  eexists. split; [done|]. revert b Hlen.
  induction a as [|x a IH]; intros [|z b] Hlen; try done.
  unfold np_all in *. cbn [zip zip_with fmap list_fmap forallb fst snd id].
  cbn [zip zip_with fmap list_fmap] in IH. rewrite IH by (simpl in Hlen; lia).
  destruct (String.eqb_spec x z) as [->|Hne]; simpl.
  - apply bool_decide_ext. split; [by intros ->|by intros [=]].
  - symmetry. apply bool_decide_eq_false. by intros [=].
Qed.

Lemma check_order_same_length (sample : list sample_row) (test : list combo_row) :
  length test = length sample ->
  check_order sample test
  = ([print_bool (bool_decide (sample_bidder_id <$> sample = combo_bidder_id <$> test))],
     Some tt).
Proof.
  intros Hlen. unfold check_order.
  destruct (np_eq_same_length (sample_bidder_id <$> sample) (combo_bidder_id <$> test))
    as (same & -> & Hall); [by rewrite !length_fmap|].
  unfold lift, bind, print. by rewrite Hall.
Qed.

(** C2, that a run whose test partition is in another order than the
    template writes no file, fails: with six bidders, each vocabulary
    having a term that five documents share, the check prints [False] and
    the run still writes the file, the ids in the order of the template. *)
Lemma mismatch_still_writes :
  let combo := df_combo (H := small_float_str) six_bids three_train three_test in
  let out := run (H := counting_stages) (H0 := demo_classifier) mixed_sample combo in
  sample_bidder_id <$> mixed_sample = ["fay"; "dov"; "eve"]
  ∧ combo_bidder_id <$> test_dat mixed_sample combo = ["dov"; "eve"; "fay"]
  ∧ printed out = ["False"]
  ∧ ∃ file, written out = Some file ∧ fst <$> file = ["fay"; "dov"; "eve"].
Proof.
  vm_compute. repeat split; try done. eexists. split; done.
Qed.

(** C2, amended: the comparison of the template with the test partition is
    evaluated once, before the features are built, and printed; it aborts
    nothing.  When the two have the same number of rows the run prints
    [True] or [False] according to whether the two id sequences are equal
    and, in both cases, once the later stages give their matrices, writes
    the file: the ids of the template, in template order, each with the
    averaged prediction of the test row at the same position. *)
Theorem order_check_only_prints `{FeatureStages} `{Classifier}
    (sample : list sample_row) (combo : list combo_row)
    (xtrain : matrix) (y : list Q) (xtest : matrix) :
  length (test_dat sample combo) = length sample ->
  feature_stages combo (train_dat combo) (test_dat sample combo) = Some (xtrain, y, xtest) ->
  (∀ p, length (predict_proba p xtrain y xtest) = length sample) ->
  ∃ bagged,
    bagged_preds (length sample) xtrain y xtest = Some bagged
    ∧ length bagged = length sample
    ∧ run sample combo
      = ([print_bool (bool_decide (sample_bidder_id <$> sample
                                   = combo_bidder_id <$> test_dat sample combo))],
         Some (zip (sample_bidder_id <$> sample) bagged)).
Proof.
  intros Hlen Hstages Hrows. eexists. split; [by apply bagged_preds_rows|].
  split; [by rewrite length_fmap, length_seq|].
  unfold run. rewrite check_order_same_length by done.
  rewrite Hstages. cbn [fst snd lift bind].
  rewrite (bagged_preds_rows _ _ _ _ Hrows). cbn [ret].
  by rewrite !app_nil_r.
Qed.

Lemma order_check_only_prints_witness :
  let combo := df_combo (H := small_float_str) six_bids three_train three_test in
  let xtrain := [[3; 2; 2; 2; 1; 1; 0; 0; 0; 0; 2; 2; 2];
                 [3; 2; 2; 2; 1; 0; 1; 0; 0; 0; 2; 2; 2];
                 [3; 2; 2; 2; 1; 0; 0; 1; 0; 0; 2; 2; 2]]%Q in
  let xtest := [[3; 2; 2; 2; 1; 0; 0; 1; 0; 0; 2; 2; 2];
                [3; 2; 2; 2; 1; 0; 0; 0; 1; 0; 2; 2; 2];
                [3; 3; 3; 3; 1; 0; 0; 1; 0; 1; 3; 3; 3]]%Q in
  ∃ bagged,
    bagged_preds (H := demo_classifier) (length mixed_sample) xtrain [0; 1; 0]%Q xtest
    = Some bagged
    ∧ length bagged = length mixed_sample
    ∧ run (H := counting_stages) (H0 := demo_classifier) mixed_sample combo
      = ([print_bool (bool_decide (sample_bidder_id <$> mixed_sample
                                   = combo_bidder_id <$> test_dat mixed_sample combo))],
         Some (zip (sample_bidder_id <$> mixed_sample) bagged)).
Proof.
  intros combo xtrain xtest.
  apply (order_check_only_prints (H := counting_stages) (H0 := demo_classifier)
           mixed_sample combo xtrain [0; 1; 0]%Q xtest).
  - vm_compute. reflexivity.
  - vm_compute. reflexivity.
  - intros p. reflexivity.
Defined.

(** With the four roster rows of the smaller sample no term is in five
    documents: the check prints [False], the vectorizer raises, and it is
    this, not the check, that leaves the run without a file. *)
Example four_rows_no_vocabulary :
  let combo := df_combo (H := small_float_str) three_bids two_train two_test in
  feature_stages (FeatureStages := counting_stages) combo (train_dat combo)
    (test_dat swapped_sample combo) = None
  ∧ run (H := counting_stages) (H0 := demo_classifier) swapped_sample combo
    = (["False"], None)
  ∧ run (H := counting_stages) (H0 := demo_classifier) two_sample combo
    = (["True"], None).
Proof. vm_compute. done. Qed.

(** ** The scaler *)

Lemma Qmin_le_l (x y : Q) : (Qmin x y <= x)%Q.
Proof.
  unfold Qmin. destruct (Qle_bool y x) eqn:E.
  - by apply Qle_bool_iff.
  - apply Qle_refl.
Qed.

Lemma Qmin_le_r (x y : Q) : (Qmin x y <= y)%Q.
Proof.
  unfold Qmin. destruct (Qle_bool y x) eqn:E.
  - apply Qle_refl.
  - destruct (Qlt_le_dec x y) as [Hlt|Hle]; [by apply Qlt_le_weak|].
    apply Qle_bool_iff in Hle. congruence.
Qed.

Lemma Qmax_ge_l (x y : Q) : (x <= Qmax x y)%Q.
Proof.
  unfold Qmax. destruct (Qle_bool x y) eqn:E.
  - by apply Qle_bool_iff.
  - apply Qle_refl.
Qed.

Lemma Qmax_ge_r (x y : Q) : (y <= Qmax x y)%Q.
Proof.
  unfold Qmax. destruct (Qle_bool x y) eqn:E.
  - apply Qle_refl.
  - destruct (Qlt_le_dec y x) as [Hlt|Hle]; [by apply Qlt_le_weak|].
    apply Qle_bool_iff in Hle. congruence.
Qed.

(** A reduction down the rows with a function that stays on one side of
    both its arguments stays on that side of every row. *)
Section ReduceBound.
Context (f : Q -> Q -> Q) (R : Q -> Q -> Prop).
Hypothesis R_refl : ∀ x, R x x.
Hypothesis R_trans : ∀ x y z, R x y -> R y z -> R x z.
Hypothesis f_l : ∀ x y, R (f x y) x.
Hypothesis f_r : ∀ x y, R (f x y) y.

Lemma zip_with_bound (a b : list Q) :
  length a = length b ->
  Forall2 R (zip_with f a b) a ∧ Forall2 R (zip_with f a b) b.
Proof.
  revert b. induction a as [|x a IH]; intros [|z b] Hlen; try done.
  simpl in Hlen. destruct (IH b) as [Ha Hb]; [lia|].
  split; constructor; auto.
Qed.

Lemma Forall2_R_trans (a b c : list Q) : Forall2 R a b -> Forall2 R b c -> Forall2 R a c.
Proof.
  intros Hab. revert c. induction Hab as [|x z a b Hxz _ IH]; intros c Hbc.
  - by inversion Hbc.
  - inversion Hbc as [|? w ? c' Hzw Hbc']; subst. constructor; eauto.
Qed.

Lemma foldl_bound (rs : list (list Q)) (acc : list Q) :
  (∀ r, r ∈ rs -> length r = length acc) ->
  Forall2 R (foldl (zip_with f) acc rs) acc
  ∧ ∀ r, r ∈ rs -> Forall2 R (foldl (zip_with f) acc rs) r.
Proof.
  revert acc. induction rs as [|x rs IH]; intros acc Hlen; simpl.
  - split; [|intros r Hr; by apply elem_of_nil in Hr].
    apply Forall_Forall2_diag, Forall_forall. auto.
  - assert (length acc = length x) as Hx by (symmetry; apply Hlen; by left).
    destruct (zip_with_bound acc x Hx) as [Ha Hb].
    destruct (IH (zip_with f acc x)) as [H1 H2].
    { intros r Hr. rewrite length_zip_with, <- Hx, Nat.min_id. apply Hlen. by right. }
    split; [by eapply Forall2_R_trans|].
    intros r [->|Hr]%elem_of_cons; [by eapply Forall2_R_trans|by apply H2].
Qed.

Lemma reduce_axis0_bound (X : matrix) (d : nat) :
  (∀ r, r ∈ X -> length r = d) -> X ≠ [] ->
  ∃ b, reduce_axis0 f X = Some b ∧ ∀ r, r ∈ X -> Forall2 R b r.
Proof.
  intros Hd HX. destruct X as [|x rs]; [done|]. simpl. eexists. split; [done|].
  destruct (foldl_bound rs x) as [H1 H2].
  { intros r Hr. rewrite (Hd x) by by left. apply Hd. by right. }
  intros r [->|Hr]%elem_of_cons; auto.
Qed.
End ReduceBound.

Lemma scaled_unit_interval (mn mx x : Q) :
  (mn <= x)%Q -> (x <= mx)%Q ->
  (0 <= scaled (H := exact) mn mx x)%Q ∧ (scaled (H := exact) mn mx x <= 1)%Q.
Proof.
  intros Hmn Hmx. unfold scaled, fl, exact.
  set (r := if Qeq_bool (mx - mn) 0 then 1%Q else (mx - mn)%Q).
  assert ((0 < r)%Q ∧ (x - mn <= r)%Q) as [Hr Hxr].
  { unfold r. destruct (Qeq_bool (mx - mn) 0) eqn:E.
    - apply Qeq_bool_iff in E. split; lra.
    - apply Qeq_bool_neq in E. split; lra. }
  assert (x * ((1 - 0) / r) + (0 - mn * ((1 - 0) / r)) == (x - mn) / r)%Q as ->.
  { field. lra. }
  split.
  - apply Qle_shift_div_l; [done|]. lra.
  - apply Qle_shift_div_r; [done|]. lra.
Qed.

(** *** Cells that hold NaN *)

Lemma check_array_Some (X : frame_values) :
  Forall (Forall is_Some) X -> ∃ M, check_array X = Some M.
Proof.
  intros HX. apply mapM_is_Some, Forall_forall. intros row Hrow. unfold compose.
  apply mapM_is_Some, Forall_forall. intros c Hc.
  rewrite Forall_forall in HX. specialize (HX row Hrow).
  rewrite Forall_forall in HX. by apply HX.
Qed.

Lemma check_array_rows (X : frame_values) (M : matrix) :
  check_array X = Some M -> Forall2 (λ xr r, length xr = length r) X M.
Proof.
  intros HM%mapM_Some_1. eapply Forall2_impl; [done|].
  intros xr r Hr. simpl in Hr. by apply length_mapM in Hr.
Qed.

Lemma check_array_vstack (a b : frame_values) (M : matrix) :
  check_array (vstack a b) = Some M ->
  ∃ M1 M2, M = (M1 ++ M2)%list ∧ check_array a = Some M1 ∧ check_array b = Some M2.
Proof.
  intros HM%mapM_Some_1. apply Forall2_app_inv_l in HM as (M1 & M2 & H1 & H2 & ->).
  exists M1, M2. split; [done|]. split; by apply mapM_Some_2.
Qed.

(** A cell that holds NaN makes [check_array], and with it the fit and
    the transform, raise. *)
Lemma check_array_nan (X : frame_values) (row : list (option Q)) :
  row ∈ X -> None ∈ row -> check_array X = None.
Proof.
  intros Hrow Hc. apply mapM_None_2, Exists_exists. exists row. split; [done|].
  apply mapM_None_2, Exists_exists. by exists None.
Qed.

Lemma fit_scaler_nan `{Rounding} (X : frame_values) (row : list (option Q)) :
  row ∈ X -> None ∈ row ->
  fit_scaler X = None ∧ ∀ sc, transform_scaler sc X = None.
Proof.
  intros Hrow Hc. unfold fit_scaler, transform_scaler.
  by rewrite (check_array_nan X row Hrow Hc).
Qed.

Lemma fit_scaler_Some `{Rounding} (X : frame_values) (M : matrix)
    (data_min data_max : list Q) :
  check_array X = Some M ->
  reduce_axis0 Qmin M = Some data_min ->
  reduce_axis0 Qmax M = Some data_max ->
  ∃ sc, fit_scaler X = Some sc
        ∧ ∀ row, transform_row sc row
                 = zip_with (λ x p, scaled (fst p) (snd p) x) row (zip data_min data_max).
Proof.
  intros HM Hmin Hmax. unfold fit_scaler. rewrite HM. cbn [mbind option_bind].
  rewrite Hmin, Hmax. eexists. split; [done|].
  intros row. unfold transform_row. simpl. clear.
  revert data_min data_max. induction row as [|x row IH]; intros [|mn dmin] [|mx dmax]; try done.
  simpl. f_equal. apply IH.
Qed.

(** The fit on the stack of two frames without NaN, and the two
    transforms: the matrices behind the frames, the column minima and
    maxima, and the scaled value of every cell. *)
Lemma fit_transform `{Rounding} (xtrain xtest : frame_values) (d : nat) :
  (∀ row, row ∈ vstack xtrain xtest -> length row = d) ->
  vstack xtrain xtest ≠ [] ->
  Forall (Forall is_Some) (vstack xtrain xtest) ->
  ∃ sc M1 M2 dmin dmax,
    fit_scaler (vstack xtrain xtest) = Some sc
    ∧ transform_scaler sc xtrain = Some (transform_row sc <$> M1)
    ∧ transform_scaler sc xtest = Some (transform_row sc <$> M2)
    ∧ length M1 = length xtrain ∧ length M2 = length xtest
    ∧ (∀ row, row ∈ (M1 ++ M2)%list -> length row = d)
    ∧ reduce_axis0 Qmin (M1 ++ M2)%list = Some dmin
    ∧ reduce_axis0 Qmax (M1 ++ M2)%list = Some dmax
    ∧ (∀ row, row ∈ (M1 ++ M2)%list -> Forall2 Qle dmin row)
    ∧ (∀ row, row ∈ (M1 ++ M2)%list -> Forall2 (λ a b, b <= a)%Q dmax row)
    ∧ ∀ row, transform_row sc row
             = zip_with (λ x p, scaled (fst p) (snd p) x) row (zip dmin dmax).
Proof.
  intros Hd HX Hnan.
  destruct (check_array_Some _ Hnan) as [M HM].
  pose proof (check_array_rows _ _ HM) as Hrows.
  destruct (check_array_vstack _ _ _ HM) as (M1 & M2 & -> & HM1 & HM2).
  assert (∀ row, row ∈ (M1 ++ M2)%list -> length row = d) as HdM.
  { intros row [i Hi]%list_elem_of_lookup.
    destruct (Forall2_lookup_r _ _ _ _ _ Hrows Hi) as (xr & Hxr & Hlen).
    rewrite <- Hlen. apply Hd. by eapply list_elem_of_lookup_2. }
  assert ((M1 ++ M2)%list ≠ []) as HMne.
  { intros E. rewrite E in Hrows. by apply Forall2_nil_inv_r in Hrows. }
  destruct (reduce_axis0_bound Qmin Qle Qle_refl Qle_trans Qmin_le_l Qmin_le_r _ d HdM HMne)
    as (dmin & Hmin & Hlo).
  destruct (reduce_axis0_bound Qmax (λ a b, b <= a)%Q Qle_refl
              (λ x y z H1 H2, Qle_trans _ _ _ H2 H1) Qmax_ge_l Qmax_ge_r _ d HdM HMne)
    as (dmax & Hmax & Hhi).
  destruct (fit_scaler_Some _ _ _ _ HM Hmin Hmax) as (sc & Hsc & Htr).
  exists sc, M1, M2, dmin, dmax. split; [done|].
  unfold transform_scaler. rewrite HM1, HM2.
  split; [done|]. split; [done|].
  split; [symmetry; by eapply length_mapM|].
  split; [symmetry; by eapply length_mapM|]. done.
Qed.

(** C6, that the transform fitted on the stack maps every entry of both
    matrices into [0, 1], fails in the float64 arithmetic of the run: for
    a column whose smallest entry is 80 and whose largest is 157, the
    largest is scaled to [1 + 2 ^ -52]. *)
Lemma scaled_above_one :
  ∃ sc,
    fit_scaler (H := binary64) (vstack [[Some 80%Q]] [[Some 157%Q]]) = Some sc
    ∧ transform_scaler (H := binary64) sc [[Some 80%Q]] = Some [[0%Q]]
    ∧ transform_scaler (H := binary64) sc [[Some 157%Q]]
      = Some [[4503599627370497 # 4503599627370496]%Q]
    ∧ (1 < 4503599627370497 # 4503599627370496)%Q.
Proof. eexists. split; [by vm_compute|]. by vm_compute. Qed.

(** C6, amended: when no cell holds NaN, the transform fitted on the
    stack of the two numeric matrices maps, in exact arithmetic, every
    entry of both into [0, 1]; it keeps their shapes.  The float64
    arithmetic of the run rounds the products and the sums, and an entry
    can come out above 1. *)
Theorem min_max_scaled_in_unit_interval (xtrain xtest : frame_values) (d : nat) :
  (∀ row, row ∈ vstack xtrain xtest -> length row = d) ->
  vstack xtrain xtest ≠ [] ->
  Forall (Forall is_Some) (vstack xtrain xtest) ->
  ∃ sc strain stest,
    fit_scaler (H := exact) (vstack xtrain xtest) = Some sc
    ∧ transform_scaler (H := exact) sc xtrain = Some strain
    ∧ transform_scaler (H := exact) sc xtest = Some stest
    ∧ length strain = length xtrain
    ∧ length stest = length xtest
    ∧ ∀ row, row ∈ strain ∨ row ∈ stest ->
        length row = d ∧ ∀ v, v ∈ row -> (0 <= v)%Q ∧ (v <= 1)%Q.
Proof.
  intros Hd HX Hnan.
  destruct (fit_transform (H := exact) xtrain xtest d Hd HX Hnan)
    as (sc & M1 & M2 & dmin & dmax & Hsc & Htrain & Htest & L1 & L2 & HdM & _ & _
        & Hlo & Hhi & Htr).
  exists sc, (transform_row (H := exact) sc <$> M1), (transform_row (H := exact) sc <$> M2).
  split; [done|]. split; [done|]. split; [done|]. rewrite !length_fmap.
  split; [done|]. split; [done|].
  assert (∀ x, x ∈ (M1 ++ M2)%list ->
            length (transform_row (H := exact) sc x) = d
            ∧ ∀ v, v ∈ transform_row (H := exact) sc x -> (0 <= v)%Q ∧ (v <= 1)%Q) as Hrow.
  { intros x Hx. specialize (Hlo x Hx). specialize (Hhi x Hx). rewrite Htr.
    pose proof (Forall2_length _ _ _ Hlo) as Ll.
    pose proof (Forall2_length _ _ _ Hhi) as Lh.
    split.
    - rewrite length_zip_with, length_zip, Ll, Lh, (HdM x Hx). lia.
    - intros v [j Hj]%list_elem_of_lookup.
      apply lookup_zip_with_Some in Hj as (xv & [mn mx] & -> & Hxv & Hp).
      apply lookup_zip_with_Some in Hp as (? & ? & [= <- <-] & Hmn & Hmx).
      apply scaled_unit_interval.
      + exact (Forall2_lookup_lr _ _ _ _ _ _ Hlo Hmn Hxv).
      + exact (Forall2_lookup_lr _ _ _ _ _ _ Hhi Hmx Hxv). }
  intros row [Hrow'|Hrow']; apply list_elem_of_fmap in Hrow' as (x & -> & Hx);
    apply Hrow; rewrite elem_of_app; auto.
Qed.

Lemma min_max_scaled_in_unit_interval_witness :
  ∃ sc strain stest,
    fit_scaler (H := exact)
      (vstack [[Some 1; Some 5]; [Some 3; Some 5]] [[Some 2; Some 5]])%Q = Some sc
    ∧ transform_scaler (H := exact) sc [[Some 1; Some 5]; [Some 3; Some 5]]%Q = Some strain
    ∧ transform_scaler (H := exact) sc [[Some 2; Some 5]]%Q = Some stest
    ∧ length strain = 2%nat
    ∧ length stest = 1%nat
    ∧ ∀ row, row ∈ strain ∨ row ∈ stest ->
        length row = 2%nat ∧ ∀ v, v ∈ row -> (0 <= v)%Q ∧ (v <= 1)%Q.
Proof.
  apply (min_max_scaled_in_unit_interval
           [[Some 1; Some 5]; [Some 3; Some 5]]%Q [[Some 2; Some 5]]%Q 2).
  - intros row Hrow. unfold vstack in Hrow. simpl in Hrow.
    repeat (apply elem_of_cons in Hrow as [->|Hrow]); [reflexivity..|].
    by apply elem_of_nil in Hrow.
  - discriminate.
  - repeat constructor; by eexists.
Defined.

(** The scaler of the witness, in exact arithmetic and in float64: the
    three rows come out as 0, 1 and a half in the first column; a frame
    with a NaN makes the fit raise. *)
Example scaler_rows :
  (sc ← fit_scaler (H := exact)
          (vstack [[Some 1; Some 5]; [Some 3; Some 5]] [[Some 2; Some 5]])%Q;
   transform_scaler (H := exact) sc [[Some 1; Some 5]; [Some 3; Some 5]; [Some 2; Some 5]]%Q)
  = Some [[0 # 4; 0]; [4 # 4; 0]; [2 # 4; 0]]%Q
  ∧ (sc ← fit_scaler (H := binary64)
            (vstack [[Some 1; Some 5]; [Some 3; Some 5]] [[Some 2; Some 5]])%Q;
     transform_scaler (H := binary64) sc
       [[Some 1; Some 5]; [Some 3; Some 5]; [Some 2; Some 5]]%Q)
    = Some [[0; 0]; [1; 0]; [1 # 2; 0]]%Q
  ∧ fit_scaler (H := binary64) (vstack [[Some 1; None]] [[Some 2; Some 5]])%Q = None.
Proof. vm_compute. done. Qed.

(** ** The feature selection *)



Lemma Qgt_bool_iff (x t : Q) : Qgt_bool x t = true <-> (t < x)%Q.
Proof.
  unfold Qgt_bool. rewrite negb_true_iff. split.
  - intros E. apply Qnot_le_lt. intros Hle%Qle_bool_iff. congruence.
  - intros Hlt. destruct (Qle_bool x t) eqn:E; [|done].
    apply Qle_bool_iff in E. lra.
Qed.




Lemma filter_none {A} (P : A -> Prop) `{!∀ x, Decision (P x)} (l : list A) :
  (∀ x, x ∈ l -> ¬ P x) -> filter P l = [].
Proof.
  induction l as [|x l IH]; [done|]. intros Hall.
  rewrite filter_cons_False by (apply Hall; by left).
  apply IH. intros z Hz. apply Hall. by right.
Qed.

Lemma filter_all {A} (P : A -> Prop) `{!∀ x, Decision (P x)} (l : list A) :
  (∀ x, x ∈ l -> P x) -> filter P l = l.
Proof.
  induction l as [|x l IH]; [done|]. intros Hall.
  rewrite filter_cons_True by (apply Hall; by left).
  f_equal. apply IH. intros z Hz. apply Hall. by right.
Qed.









(** *** Counting the scores above and at the percentile *)

Lemma length_filter_fmap {A B} (f : A -> B) (P : B -> Prop) `{!∀ x, Decision (P x)}
    (l : list A) :
  length (filter P (f <$> l)) = length (filter (λ x, P (f x)) l).
Proof.
  induction l as [|x l IH]; [done|].
  rewrite fmap_cons, !filter_cons. destruct (decide (P (f x))); simpl; by rewrite IH.
Qed.





Section CountBounds.
Context (s : list Q) (t : Q).

Local Abbreviation above := (λ x : Q, Qgt_bool x t = true).
Local Abbreviation equal := (λ x : Q, Qeq_bool x t = true).



End CountBounds.

(** *** The percentile among the sorted scores *)






(** *** A number of columns that is one more than a multiple of four *)







(** Six columns with the scores 1 to 6: none scores exactly the
    percentile, and two are kept, a quarter of six rounded up, in float64
    as in exact arithmetic.  Of the five scores 1 to 5 the score 4 is the
    percentile. *)
Example six_columns :
  select_train (H := binary64) (H0 := demo_chi2)
    [[1; 2; 3; 4; 5; 6]; [0; 0; 0; 0; 0; 0]]%Q [1; 0]%Q
  = [[5; 6]; [0; 0]]%Q
  ∧ select_test (H := binary64) (H0 := demo_chi2)
      [[1; 2; 3; 4; 5; 6]; [0; 0; 0; 0; 0; 0]]%Q [1; 0]%Q [[9; 8; 7; 6; 5; 4]]%Q
    = [[5; 4]]%Q
  ∧ select_train (H := exact) (H0 := demo_chi2)
      [[1; 2; 3; 4; 5; 6]; [0; 0; 0; 0; 0; 0]]%Q [1; 0]%Q
    = [[5; 6]; [0; 0]]%Q
  ∧ ceil_quarter 6 = 2%nat
  ∧ ties_25 (H := exact) [1; 2; 3; 4; 5; 6]%Q = []
  ∧ ties_25 (H := exact) [1; 2; 3; 4; 5]%Q = [3%nat]
  ∧ floor_quarter 5 = 1%nat.
Proof. vm_compute. done. Qed.

(** Six scores of which two differ in the last binary place: the
    interpolated percentile lies between them in exact arithmetic, and two
    columns are kept; in float64 it is rounded to the larger of the two,
    which then ties with it, and one column is kept. *)
Example rounding_makes_a_tie :
  let scores := [0; 0; 0; 1; 1 + (1 # 4503599627370496); 2]%Q in
  get_support_mask (H := exact) scores 25 = [false; false; false; false; true; true]
  ∧ get_support_mask (H := binary64) scores 25 = [false; false; false; false; false; true]
  ∧ ties_25 (H := exact) scores = []
  ∧ ties_25 (H := binary64) scores = [4%nat].
Proof. vm_compute. done. Qed.

(** * Further properties of the pipeline *)

(** ** The tokenizer and the join *)

Lemma tokens_nonempty (x : string) : tokens x ≠ [].
Proof.
  induction x as [|c r IH]; [done|]. simpl.
  destruct (Ascii.eqb c " "); [done|]. by destruct (tokens r).
Qed.

(** X1: the tokenizer never gives an empty list, and joining the tokens of
    a string with single spaces gives the string back, whatever the string
    is. *)
Theorem join_tokens (x : string) : tokens x ≠ [] ∧ join (tokens x) = x.
Proof.
  split; [apply tokens_nonempty|].
  induction x as [|c r IH]; [done|]. simpl.
  pose proof (tokens_nonempty r) as Hne.
  destruct (Ascii.eqb c " ") eqn:Ec.
  - apply Ascii.eqb_eq in Ec as ->.
    destruct (tokens r) as [|t ts]; [done|].
    change (join ("" :: t :: ts)) with (String " " (join (t :: ts))).
    by rewrite IH.
  - destruct (tokens r) as [|t ts]; [done|].
    destruct ts as [|t' ts].
    + unfold join in *. simpl in *. by rewrite IH.
    + change (join (String c t :: t' :: ts))
        with (String c (t +:+ " " +:+ join (t' :: ts))).
      change (join (t :: t' :: ts)) with (t +:+ " " +:+ join (t' :: ts)) in IH.
      by rewrite IH.
Qed.

(** X2: no token holds a space, and a string with [n] spaces has [n + 1]
    tokens; two spaces in a row, or a space at either end, give an empty
    token. *)
Theorem tokens_count (x : string) :
  Forall no_space (tokens x) ∧ length (tokens x) = S (count_spaces x).
Proof.
  induction x as [|c r [IHf IHl]]; [split; [by repeat constructor|done]|].
  simpl. pose proof (tokens_nonempty r) as Hne.
  destruct (Ascii.eqb c " ") eqn:Ec.
  - split; [by constructor|]. simpl. by rewrite IHl.
  - destruct (tokens r) as [|t ts]; [done|].
    apply Forall_cons in IHf as [Ht Hts]. split; [|done].
    constructor; [|done]. unfold no_space in *. simpl. by rewrite Ec.
Qed.

(** ** Normalization (cell 3) *)

Lemma normalize_row_id (r : bid_row) :
  normalize_row r = r <-> Forall no_space (string_cells r).
Proof.
  destruct r as [i b au me de t co ip' u]. unfold normalize_row, string_cells. simpl.
  split.
  - intros Heq. injection Heq as Hb Hau Hme Hde Hco Hip Hu.
    constructor; [by apply remove_spaces_id|].
    destruct au, me, de, co, ip', u; simpl in *;
      repeat match goal with
             | H : Some _ = Some _ |- _ => injection H as H; apply remove_spaces_id in H
             end;
      repeat constructor; done.
  - intros [Hb Hrest]%Forall_cons.
    apply remove_spaces_id in Hb. rewrite Hb.
    destruct au, me, de, co, ip', u; simpl in *;
      repeat match goal with
             | H : Forall _ (_ :: _) |- _ => apply Forall_cons in H as [?%remove_spaces_id H]
             end;
      congruence.
Qed.

(** X3: removing the spaces a second time changes nothing, the [time] and
    [bid_id] columns are kept row by row, and the log is left as it is
    exactly when no string cell of it holds a space. *)
Theorem normalize_idempotent (df : list bid_row) :
  normalize (normalize df) = normalize df
  ∧ time <$> normalize df = time <$> df
  ∧ bid_id <$> normalize df = bid_id <$> df
  ∧ (normalize df = df <-> Forall (λ r, Forall no_space (string_cells r)) df).
Proof.
  unfold normalize. repeat split.
  - rewrite <- list_fmap_compose. apply list_fmap_ext. intros _ r _. simpl.
    apply normalize_row_id, normalize_row_no_space.
  - by rewrite <- list_fmap_compose.
  - by rewrite <- list_fmap_compose.
  - induction df as [|r df IH]; [done|]. rewrite fmap_cons.
    intros [= Hr Hdf]. constructor; [by apply normalize_row_id|by apply IH].
  - induction 1 as [|r df Hr _ IH]; [done|]. rewrite fmap_cons.
    f_equal; [by apply normalize_row_id|done].
Qed.

(** ** The sort (cell 4) *)

Lemma StronglySorted_weaken {A} (R S : A -> A -> Prop) (l : list A) :
  (∀ x y, R x y -> S x y) -> StronglySorted R l -> StronglySorted S l.
Proof.
  intros HRS. induction 1 as [|x l _ IH Hx]; constructor; [done|].
  eapply Forall_impl; [done|]. auto.
Qed.

Lemma stable_sort_sorted_id {A} (leb : A -> A -> bool) (l : list A) :
  StronglySorted (λ a b, leb a b = true) l -> stable_sort leb l = l.
Proof.
  induction 1 as [|x l _ IH Hx]; [done|].
  unfold stable_sort in *. simpl. rewrite IH.
  destruct l as [|y l]; [done|]. simpl.
  apply Forall_cons in Hx as [-> _]. done.
Qed.

Lemma row_leb_le (r1 r2 : bid_row) : row_leb r1 r2 = true <-> row_le r1 r2.
Proof.
  unfold row_leb, row_le.
  destruct (String.compare (bidder_id r1) (bidder_id r2)) eqn:E.
  - apply String.compare_eq_iff in E. rewrite Z.leb_le. split; [by right|].
    intros [?|[_ ?]]; done.
  - split; [by left|done].
  - split; [done|]. intros [?|[Heq _]]; [done|].
    rewrite Heq, compare_refl in E. done.
Qed.

(** X4: the sorted table has the rows of the input, each as often, in
    ascending order of [bidder_id] and, for one bidder, of [time]; sorting
    it again changes nothing. *)
Theorem sort_rows_sorted (df : list bid_row) :
  sort_rows df ≡ₚ df
  ∧ StronglySorted row_le (sort_rows df)
  ∧ sort_rows (sort_rows df) = sort_rows df.
Proof.
  unfold sort_rows. split; [apply stable_sort_perm|]. split.
  - eapply StronglySorted_weaken; [|apply stable_sort_sorted; [apply row_leb_total|apply row_leb_trans]].
    intros x y. apply row_leb_le.
  - apply stable_sort_sorted_id, stable_sort_sorted; [apply row_leb_total|apply row_leb_trans].
Qed.

(** ** The index of [bids] (cell 5) *)

Lemma unique_from_sublist (seen : gset string) (l : list string) :
  unique_from seen l `sublist_of` l.
Proof.
  revert seen. induction l as [|x l IH]; intros seen; simpl; [done|].
  destruct (decide (x ∈ seen)); [by apply sublist_cons|by apply sublist_skip].
Qed.

Lemma StronglySorted_sublist {A} (R : A -> A -> Prop) (l k : list A) :
  l `sublist_of` k -> StronglySorted R k -> StronglySorted R l.
Proof.
  induction 1 as [|x l k Hs IH|x l k Hs IH]; intros Hk; [done| |].
  - apply StronglySorted_inv in Hk as [Hk Hx]. constructor; [by apply IH|].
    rewrite Forall_forall in *. intros y Hy. apply Hx. by eapply elem_of_sublist.
  - apply StronglySorted_inv in Hk as [Hk _]. by apply IH.
Qed.

Lemma StronglySorted_NoDup_strict {A} (R : A -> A -> Prop) (l : list A) :
  StronglySorted R l -> NoDup l -> StronglySorted (λ a b, R a b ∧ a ≠ b) l.
Proof.
  induction 1 as [|x l _ IH Hx]; intros Hnd; [constructor|].
  apply NoDup_cons in Hnd as [Hx' Hnd]. constructor; [by apply IH|].
  rewrite Forall_forall in *. intros y Hy. split; [by apply Hx|].
  intros ->. done.
Qed.

Lemma agg_bidder_bids `{FloatStr} (log : list bid_row) :
  agg_bidder <$> bids log = bidders (df_bids_sorted log).
Proof.
  unfold bids. rewrite <- list_fmap_compose.
  rewrite (list_fmap_ext _ id (bidders (df_bids_sorted log))) by done.
  apply list_fmap_id.
Qed.

Lemma bidder_df_bids_sorted `{FloatStr} (log : list bid_row) :
  bidder <$> df_bids_sorted log = bidder_id <$> sort_rows (normalize log).
Proof. rewrite <- base_df_bids_sorted. by rewrite <- list_fmap_compose. Qed.

(** X5: [bids] has one row per bidder of the log, under the id with its
    spaces removed: no id twice, every bidder with a bid and no other, in
    ascending order of the ids. *)
Theorem bids_one_row_per_bidder `{FloatStr} (log : list bid_row) :
  NoDup (agg_bidder <$> bids log)
  ∧ (∀ a, a ∈ agg_bidder <$> bids log
          <-> ∃ e, e ∈ log ∧ a = remove_spaces (bidder_id e))
  ∧ StronglySorted (λ a b, String.compare a b = Lt) (agg_bidder <$> bids log).
Proof.
  rewrite agg_bidder_bids. split; [apply NoDup_unique|]. split.
  - intros a. rewrite elem_of_bidders. unfold normalize.
    rewrite <- list_fmap_compose, list_elem_of_fmap. split.
    + intros (e & -> & He). by exists e.
    + intros (e & He & ->). by exists e.
  - unfold bidders. rewrite bidder_df_bids_sorted.
    eapply StronglySorted_weaken;
      [|apply StronglySorted_NoDup_strict;
        [eapply (StronglySorted_sublist
                   (λ a b : string, String.compare a b = Lt ∨ a = b));
         [apply unique_from_sublist|]
        |apply NoDup_unique]].
    + intros a b [[?|?] ?]; done.
    + pose proof (stable_sort_sorted row_leb row_leb_total row_leb_trans
                    (normalize log)) as Hs.
      fold (sort_rows (normalize log)) in Hs.
      induction Hs as [|r l _ IH Hr]; [constructor|].
      rewrite fmap_cons. constructor; [done|].
      apply Forall_fmap. eapply Forall_impl; [done|].
      intros y [?|[? _]]%row_leb_le; simpl; auto.
Qed.

(** ** The bid counts (cell 6) *)

Lemma sum_list_indicator (keys : list string) (k : string) :
  NoDup keys -> k ∈ keys ->
  sum_list ((λ a, if decide (k = a) then 1%nat else 0%nat) <$> keys) = 1%nat.
Proof.
  induction 1 as [|a keys Ha Hnd IH]; intros Hk; [by apply elem_of_nil in Hk|].
  rewrite fmap_cons. simpl. destruct (decide (k = a)) as [->|Hne].
  - assert (sum_list ((λ a0, if decide (a = a0) then 1%nat else 0%nat) <$> keys) = 0%nat)
      as ->; [|done].
    clear IH Hk Hnd. induction keys as [|b keys IH]; [done|].
    rewrite fmap_cons. simpl. apply not_elem_of_cons in Ha as [Hab Ha].
    rewrite decide_False by done. by apply IH.
  - apply elem_of_cons in Hk as [?|Hk]; [done|]. by rewrite IH.
Qed.

Lemma sum_list_fmap_add {A} (f g : A -> nat) (l : list A) :
  sum_list ((λ a, f a + g a)%nat <$> l) = (sum_list (f <$> l) + sum_list (g <$> l))%nat.
Proof. induction l as [|a l IH]; [done|]. rewrite !fmap_cons. simpl. lia. Qed.

(** A table splits into its groups: counting the rows with [P] group by
    group counts every such row once. *)
Lemma sum_groups (P : frame_row -> Prop) `{!∀ r, Decision (P r)}
    (keys : list string) (df : list frame_row) :
  NoDup keys -> (∀ r, r ∈ df -> bidder r ∈ keys) ->
  sum_list ((λ a, length (filter P (group a df))) <$> keys) = length (filter P df).
Proof.
  intros Hnd. induction df as [|r df IH]; intros Hin.
  - clear Hnd Hin. simpl. induction keys as [|a keys IHk]; [done|].
    by rewrite fmap_cons.
  - rewrite (list_fmap_ext _
               (λ a, (if decide (bidder r = a) then (if decide (P r) then 1 else 0) else 0)
                     + length (filter P (group a df)))%nat keys).
    2:{ intros _ a _. unfold group. rewrite (filter_cons _ r).
        destruct (decide (bidder r = a)); [|done].
        rewrite (filter_cons P r). by destruct (decide (P r)). }
    rewrite sum_list_fmap_add, IH by (intros; apply Hin; by right).
    rewrite (filter_cons P r).
    destruct (decide (P r)).
    + rewrite sum_list_indicator; [done|done|apply Hin; by left].
    + simpl. f_equal.
      clear. induction keys as [|a keys IHk]; [done|].
      rewrite fmap_cons. simpl. by destruct (decide (bidder r = a)).
Qed.

Lemma length_df_bids_sorted `{FloatStr} (log : list bid_row) :
  length (df_bids_sorted log) = length log.
Proof.
  rewrite <- (length_fmap base), base_df_bids_sorted. unfold sort_rows, normalize.
  by rewrite stable_sort_length, length_fmap.
Qed.

Lemma counts_groups (df : list frame_row) :
  counts df = (λ a, (a, length (group a df))) <$> bidders df.
Proof.
  unfold counts, groupby_agg. apply list_fmap_ext. intros _ a _.
  unfold series_count. by rewrite dropna_Some, length_fmap.
Qed.

(** X6: the bid counts have one entry per row of [bids], and they add up
    to the number of rows of the log: every bid is counted once. *)
Theorem counts_sum `{FloatStr} (log : list bid_row) :
  fst <$> counts (df_bids_sorted log) = agg_bidder <$> bids log
  ∧ sum_list (values (counts (df_bids_sorted log))) = length log.
Proof.
  rewrite agg_bidder_bids, counts_groups. unfold values.
  rewrite <- !list_fmap_compose. split.
  - rewrite (list_fmap_ext _ id (bidders (df_bids_sorted log))) by done.
    apply list_fmap_id.
  - transitivity (length (filter (λ _, True) (df_bids_sorted log))).
    2:{ rewrite filter_all by done. apply length_df_bids_sorted. }
    rewrite <- (sum_groups (λ _, True) (bidders (df_bids_sorted log))).
    + apply (f_equal sum_list), list_fmap_ext. intros _ a _. simpl.
      by rewrite filter_all.
    + apply NoDup_unique.
    + intros r Hr. apply elem_of_unique, list_elem_of_fmap. by exists r.
Qed.

Lemma unique_length_le (l : list string) : (length (unique l) <= length l)%nat.
Proof. apply sublist_length, unique_from_sublist. Qed.

Lemma unique_nonempty (l : list string) : l ≠ [] -> unique l ≠ [].
Proof.
  destruct l as [|x l]; [done|]. intros _ Hnil.
  assert (x ∈ unique (x :: l)) as Hin by (apply elem_of_unique; by left).
  rewrite Hnil in Hin. by apply elem_of_nil in Hin.
Qed.

(** X7: the count of a bidder is the number of its bids in the log, and
    the number of distinct cells of each text column lies between one and
    that count. *)
Theorem nunique_between_one_and_count `{FloatStr}
    (log : list bid_row) (r : agg_row) (var : text_col) :
  r ∈ bids log ->
  auction_count_num (df_bids_sorted log) (agg_bidder r)
  = Some (length (events_of (agg_bidder r) (normalize log)))
  ∧ (1 <= nunique_num r var)%nat
  ∧ (nunique_num r var <= length (events_of (agg_bidder r) (normalize log)))%nat.
Proof.
  intros (a & Ha%elem_of_bidders & ->)%elem_of_bids. simpl.
  unfold auction_count_num. rewrite counts_groups.
  rewrite (at_key_fmap (λ k, length (group k (df_bids_sorted log))) _ _ Ha).
  rewrite length_group. split; [done|].
  unfold nunique_of, nunique. rewrite dropna_Some.
  rewrite <- (length_group a log), <- (length_fmap (cell var)).
  split; [|apply unique_length_le].
  pose proof (group_nonempty a log Ha) as Hne.
  assert (unique (cell var <$> group a (df_bids_sorted log)) ≠ []) as Hu.
  { apply unique_nonempty. by intros ?%fmap_nil_inv. }
  destruct (unique _); [done|simpl; lia].
Qed.

Lemma nunique_between_one_and_count_witness :
  auction_count_num (df_bids_sorted (H := small_float_str) three_bids) (agg_bidder bob_row)
  = Some (length (events_of (agg_bidder bob_row) (normalize three_bids)))
  ∧ (1 <= nunique_num bob_row Merchandise)%nat
  ∧ (nunique_num bob_row Merchandise
     <= length (events_of (agg_bidder bob_row) (normalize three_bids)))%nat.
Proof.
  apply (nunique_between_one_and_count (H := small_float_str) three_bids bob_row Merchandise).
  unfold bob_row, bids. apply list_elem_of_fmap_2. vm_compute. right. by left.
Defined.

(** ** The time differences (cell 7) and the time columns (cell 9) *)

Lemma events_times_sorted (a : string) (df : list bid_row) :
  StronglySorted Z.le (time <$> events_of a (sort_rows df)).
Proof.
  destruct (events_of_sort_rows a df) as (_ & Hs & _).
  eapply StronglySorted_fmap; [|done]. done.
Qed.

Lemma events_nonempty `{FloatStr} (a : string) (log : list bid_row) :
  a ∈ bidders (df_bids_sorted log) -> events_of a (sort_rows (normalize log)) ≠ [].
Proof.
  intros Ha. rewrite <- base_group. intros Hnil%fmap_nil_inv.
  by apply (group_nonempty a log Ha).
Qed.

Lemma diff_from_Some_nonneg (p : Z) (ts : list Z) :
  StronglySorted Z.le (p :: ts) ->
  Forall (λ c, ∃ d, c = Some d ∧ 0 <= d) (diff_from (Some p) ts).
Proof.
  revert p. induction ts as [|t ts IH]; intros p Hs; [constructor|].
  apply StronglySorted_inv in Hs as [Hs Hp]. apply Forall_cons in Hp as [Hpt _].
  simpl. constructor; [|by apply IH].
  exists (t - p). split; [done|lia].
Qed.

Lemma diff_from_Some_no_missing (p : Z) (ts : list Z) :
  filter (λ c, c = None) (diff_from (Some p) ts) = [].
Proof.
  revert p. induction ts as [|t ts IH]; intros p; [done|].
  simpl. rewrite filter_cons_False by done. apply IH.
Qed.

Lemma sum_list_const {A} (l : list A) : sum_list ((λ _, 1%nat) <$> l) = length l.
Proof. induction l as [|x l IH]; [done|]. rewrite fmap_cons. simpl. by rewrite IH. Qed.

(** X8: in the sorted table no time difference is negative, and the rows
    without a difference are as many as the bidders: the first bid of
    each one. *)
Theorem timediff_num_nonneg `{FloatStr} (log : list bid_row) :
  Forall (λ r, ∀ d, timediff_num r = Some d -> 0 <= d) (df_bids_sorted log)
  ∧ length (filter (λ r, timediff_num r = None) (df_bids_sorted log))
    = length (bids log).
Proof.
  split.
  - apply Forall_forall. intros r Hr d Hd.
    assert (timediff_num r ∈ timediff_num <$> group (bidder r) (df_bids_sorted log)) as Hin.
    { apply list_elem_of_fmap_2, list_elem_of_filter. done. }
    rewrite timediff_num_group in Hin. unfold series_diff in Hin.
    pose proof (events_times_sorted (bidder r) (normalize log)) as Hs.
    destruct (time <$> events_of (bidder r) (sort_rows (normalize log))) as [|t ts];
      [by apply elem_of_nil in Hin|].
    simpl in Hin. apply elem_of_cons in Hin as [Hin|Hin]; [congruence|].
    pose proof (diff_from_Some_nonneg t ts Hs) as Hall.
    rewrite Forall_forall in Hall. destruct (Hall _ Hin) as (d' & Hd' & Hpos).
    congruence.
  - rewrite <- (sum_groups _ (bidders (df_bids_sorted log))).
    + unfold bids. rewrite length_fmap, <- sum_list_const.
      f_equal. apply list_fmap_ext. intros i a Ha%list_elem_of_lookup_2.
      rewrite <- (length_filter_fmap timediff_num (λ c, c = None)).
      rewrite timediff_num_group. unfold series_diff.
      apply events_nonempty in Ha.
      destruct (events_of a (sort_rows (normalize log))) as [|e es]; [done|].
      rewrite fmap_cons. cbn [diff_from]. rewrite filter_cons_True by done.
      by rewrite diff_from_Some_no_missing.
    + apply NoDup_unique.
    + intros r Hr. apply elem_of_unique, list_elem_of_fmap. by exists r.
Qed.

Lemma foldl_min_sorted (p : Z) (ts : list Z) :
  StronglySorted Z.le (p :: ts) -> foldl Z.min p ts = p.
Proof.
  induction ts as [|t ts IH]; intros Hs; [done|].
  apply StronglySorted_inv in Hs as [Hs Hp].
  apply Forall_cons in Hp as [Hpt Hp].
  apply StronglySorted_inv in Hs as [Hs _].
  simpl. rewrite Z.min_l by done. apply IH. by constructor.
Qed.

Lemma foldl_max_sorted (p : Z) (ts : list Z) :
  StronglySorted Z.le (p :: ts) -> foldl Z.max p ts = default p (last ts).
Proof.
  revert p. induction ts as [|t ts IH]; intros p Hs; [done|].
  apply StronglySorted_inv in Hs as [Hs Hp].
  apply Forall_cons in Hp as [Hpt Hp].
  simpl. rewrite Z.max_r by done. rewrite IH by done.
  rewrite last_cons. by destruct (last ts).
Qed.

Lemma sorted_between (p : Z) (ts : list Z) (t : Z) :
  StronglySorted Z.le (p :: ts) -> t ∈ p :: ts -> p <= t <= default p (last ts).
Proof.
  revert t p. induction ts as [|t1 ts IH]; intros t p Hs Ht.
  - apply list_elem_of_singleton in Ht as ->. simpl. lia.
  - apply StronglySorted_inv in Hs as [Hs Hp].
    apply Forall_cons in Hp as [Hpt Hp].
    assert (default p (last (t1 :: ts)) = default t1 (last ts)) as ->.
    { rewrite last_cons. by destruct (last ts). }
    pose proof (IH t1 t1 Hs ltac:(by left)) as IH1.
    apply elem_of_cons in Ht as [->|Ht]; [lia|].
    pose proof (IH t t1 Hs Ht). lia.
Qed.

Lemma Zsum_diff_from (p : Z) (ts : list Z) :
  Zsum (dropna (diff_from (Some p) ts)) = default p (last ts) - p.
Proof.
  revert p. induction ts as [|t ts IH]; intros p; [simpl; lia|].
  cbn. fold (dropna (diff_from (Some t) ts)). rewrite IH.
  rewrite last_cons. destruct (last ts); simpl; lia.
Qed.

Lemma length_dropna_diff_from (p : Z) (ts : list Z) :
  length (dropna (diff_from (Some p) ts)) = length ts.
Proof.
  revert p. induction ts as [|t ts IH]; intros p; [done|].
  cbn. fold (dropna (diff_from (Some t) ts)). by rewrite IH.
Qed.

Lemma times_group `{FloatStr} (a : string) (log : list bid_row) :
  times (group a (df_bids_sorted log))
  = Some <$> (time <$> events_of a (sort_rows (normalize log))).
Proof. unfold times. rewrite <- base_group, <- !list_fmap_compose. done. Qed.

(** X9: for every bidder [mintime_num] and [maxtime_num] are the times of
    its first and of its last bid, every bid of the bidder lies between
    them, and their distance is the sum of the bidder's time differences. *)
Theorem time_span_is_sum_of_differences `{FloatStr} (log : list bid_row) (r : agg_row) :
  r ∈ bids log ->
  ∃ mn mx,
    mintime_num (df_bids_sorted log) (agg_bidder r) = Some mn
    ∧ maxtime_num (df_bids_sorted log) (agg_bidder r) = Some mx
    ∧ (∀ e, e ∈ log -> remove_spaces (bidder_id e) = agg_bidder r -> mn <= time e <= mx)
    ∧ mx - mn
      = Zsum (dropna (timediff_num <$> group (agg_bidder r) (df_bids_sorted log))).
Proof.
  intros (a & Ha%elem_of_bidders & ->)%elem_of_bids. simpl.
  unfold mintime_num, maxtime_num, min_time, max_time, groupby_agg.
  rewrite (at_key_fmap (λ k, series_min (times (group k (df_bids_sorted log)))) _ _ Ha).
  rewrite (at_key_fmap (λ k, series_max (times (group k (df_bids_sorted log)))) _ _ Ha).
  simpl. rewrite times_group, timediff_num_group.
  unfold series_min, series_max, series_diff. rewrite dropna_Some.
  pose proof (events_times_sorted a (normalize log)) as Hs.
  assert (∀ e, e ∈ log -> remove_spaces (bidder_id e) = a ->
               time e ∈ time <$> events_of a (sort_rows (normalize log))) as Hin.
  { intros e He Hid. apply list_elem_of_fmap. exists (normalize_row e). split; [done|].
    apply list_elem_of_filter. split; [done|].
    unfold sort_rows. rewrite stable_sort_perm. by apply list_elem_of_fmap_2. }
  apply events_nonempty in Ha.
  destruct (events_of a (sort_rows (normalize log))) as [|e0 es]; [done|].
  rewrite fmap_cons in *.
  exists (time e0), (default (time e0) (last (time <$> es))).
  rewrite foldl_min_sorted, foldl_max_sorted by done.
  repeat split; try done.
  - by apply (sorted_between _ _ _ Hs), Hin.
  - by apply (sorted_between _ _ _ Hs), Hin.
  - simpl. fold (dropna (diff_from (Some (time e0)) (time <$> es))).
    by rewrite Zsum_diff_from.
Qed.

Lemma time_span_is_sum_of_differences_witness :
  ∃ mn mx,
    mintime_num (df_bids_sorted (H := small_float_str) three_bids) (agg_bidder bob_row) = Some mn
    ∧ maxtime_num (df_bids_sorted (H := small_float_str) three_bids) (agg_bidder bob_row)
      = Some mx
    ∧ (∀ e, e ∈ three_bids -> remove_spaces (bidder_id e) = agg_bidder bob_row ->
            mn <= time e <= mx)
    ∧ mx - mn
      = Zsum (dropna (timediff_num
                        <$> group (agg_bidder bob_row)
                              (df_bids_sorted (H := small_float_str) three_bids))).
Proof.
  apply (time_span_is_sum_of_differences (H := small_float_str) three_bids bob_row).
  unfold bob_row, bids. apply list_elem_of_fmap_2. vm_compute. right. by left.
Defined.

Lemma Qsum_inject_Z (l : list Z) : (Qsum (inject_Z <$> l) == inject_Z (Zsum l))%Q.
Proof.
  induction l as [|z l IH]; [done|].
  rewrite fmap_cons. simpl. rewrite IH, inject_Z_plus. reflexivity.
Qed.

Lemma dropna_fmap {A B} (f : A -> B) (l : list (option A)) :
  dropna (fmap (M := option) f <$> l) = f <$> dropna l.
Proof.
  induction l as [|[x|] l IH]; [done| |]; cbn;
    fold (dropna (fmap (M := option) f <$> l)); fold (dropna l); by rewrite IH.
Qed.

(** X10: for a bidder with at least two bids the mean of its time
    differences is the time from its first to its last bid divided by the
    number of bids less one. *)
Theorem meandiff_is_span_over_gaps `{FloatStr}
    (log : list bid_row) (r : agg_row) (n : nat) (mn mx : Z) :
  r ∈ bids log ->
  auction_count_num (df_bids_sorted log) (agg_bidder r) = Some n ->
  (2 <= n)%nat ->
  mintime_num (df_bids_sorted log) (agg_bidder r) = Some mn ->
  maxtime_num (df_bids_sorted log) (agg_bidder r) = Some mx ->
  ∃ q, meandiff_num (df_bids_sorted log) (agg_bidder r) = Some q
       ∧ (q == inject_Z (mx - mn) / inject_Z (Z.of_nat n - 1))%Q.
Proof.
  intros (a & Ha%elem_of_bidders & ->)%elem_of_bids. simpl.
  unfold auction_count_num, mintime_num, maxtime_num, min_time, max_time, groupby_agg.
  rewrite counts_groups.
  rewrite (at_key_fmap (λ k, length (group k (df_bids_sorted log))) _ _ Ha).
  rewrite (at_key_fmap (λ k, series_min (times (group k (df_bids_sorted log)))) _ _ Ha).
  rewrite (at_key_fmap (λ k, series_max (times (group k (df_bids_sorted log)))) _ _ Ha).
  simpl. rewrite times_group.
  unfold series_min, series_max. rewrite dropna_Some.
  rewrite <- (length_fmap base), base_group, <- (length_fmap time).
  pose proof (events_times_sorted a (normalize log)) as Hs.
  intros [= <-] Hn.
  pose proof (timediff_num_group a log) as Hd. unfold series_diff in Hd.
  destruct (time <$> events_of a (sort_rows (normalize log))) as [|t0 [|t1 ts]];
    [simpl in Hn; lia..|].
  rewrite foldl_min_sorted, foldl_max_sorted by done.
  intros [= <-] [= <-].
  pose proof (length_dropna_diff_from t0 (t1 :: ts)) as Hlen.
  pose proof (Zsum_diff_from t0 (t1 :: ts)) as Hsum.
  change (dropna (diff_from (Some t0) (t1 :: ts)))
    with (dropna (diff_from None (t0 :: t1 :: ts))) in Hlen, Hsum.
  remember (dropna (diff_from None (t0 :: t1 :: ts))) as ds eqn:Eds.
  exists (Qsum (inject_Z <$> ds) / inject_Z (Z.of_nat (length (inject_Z <$> ds))))%Q.
  split.
  - unfold meandiff_num, mean_diff. apply fill_series_Some; [done|].
    unfold group_mean_diff. rewrite Hd. unfold series_mean.
    rewrite dropna_fmap, <- Eds. by destruct ds.
  - rewrite length_fmap, Hlen. cbn [length].
    replace (Z.of_nat (S (S (length ts))) - 1) with (Z.of_nat (S (length ts))) by lia.
    apply Qdiv_comp; [|reflexivity].
    rewrite Qsum_inject_Z, Hsum. reflexivity.
Qed.

Lemma meandiff_is_span_over_gaps_witness :
  ∃ q, meandiff_num (df_bids_sorted (H := small_float_str) three_bids) (agg_bidder bob_row)
       = Some q
       ∧ (q == inject_Z (40 - 10) / inject_Z (Z.of_nat 3 - 1))%Q.
Proof.
  apply (meandiff_is_span_over_gaps (H := small_float_str) three_bids bob_row 3 10 40).
  - unfold bob_row, bids. apply list_elem_of_fmap_2. vm_compute. right. by left.
  - vm_compute. reflexivity.
  - lia.
  - vm_compute. reflexivity.
  - vm_compute. reflexivity.
Defined.

(** ** Filling a series with its mean (cells 9 and 12) *)

Lemma fst_keyed {A} (g : string -> A) (keys : list string) :
  fst <$> ((λ k, (k, g k)) <$> keys) = keys.
Proof.
  rewrite <- list_fmap_compose.
  rewrite (list_fmap_ext _ id keys) by done. apply list_fmap_id.
Qed.

Lemma snd_keyed {A} (g : string -> A) (keys : list string) :
  snd <$> ((λ k, (k, g k)) <$> keys) = g <$> keys.
Proof. by rewrite <- list_fmap_compose. Qed.

Lemma keys_groupby_agg {A} (f : list frame_row -> A) (df : list frame_row) :
  fst <$> groupby_agg f df = bidders df.
Proof. apply fst_keyed. Qed.

(** A filled per-bidder series, cell by cell. *)
Lemma fill_series_groupby (f : list frame_row -> option Q) (df : list frame_row) :
  fill_series (groupby_agg f df)
  = (λ a, (a, match series_mean (values (groupby_agg f df)) with
              | None => f (group a df)
              | Some m => Some (fillna m (f (group a df)))
              end)) <$> bidders df.
Proof.
  unfold fill_series, fillna_mean. rewrite keys_groupby_agg.
  destruct (series_mean (values (groupby_agg f df))) as [m|].
  - unfold values, groupby_agg. rewrite <- !list_fmap_compose. apply zip_keys.
  - unfold values, groupby_agg. rewrite <- !list_fmap_compose. apply zip_keys.
Qed.

Lemma fill_series_None (f : list frame_row -> option Q) (df : list frame_row) (a : string) :
  a ∈ bidders df -> f (group a df) = None ->
  cell_of (fill_series (groupby_agg f df)) a = series_mean (values (groupby_agg f df)).
Proof.
  intros Ha Hf. unfold cell_of. rewrite fill_series_groupby.
  rewrite (at_key_fmap _ _ _ Ha). simpl. rewrite Hf.
  by destruct (series_mean _).
Qed.

Lemma single_bid_no_difference `{FloatStr} (log : list bid_row) (a : string) :
  a ∈ bidders (df_bids_sorted log) ->
  auction_count_num (df_bids_sorted log) a = Some 1%nat ->
  timediff_num <$> group a (df_bids_sorted log) = [None].
Proof.
  intros Ha. unfold auction_count_num. rewrite counts_groups.
  rewrite (at_key_fmap (λ k, length (group k (df_bids_sorted log))) _ _ Ha).
  intros [= Hlen]. rewrite <- (length_fmap timediff_num) in Hlen.
  rewrite timediff_num_group in *. unfold series_diff in *.
  destruct (time <$> events_of a (sort_rows (normalize log))) as [|t [|t' ts]]; done.
Qed.

(** X11: a bidder with a single bid has no time difference, and its
    [maxdiff_num], [mindiff_num] and [meandiff_num] are the mean of the
    column over the bidders that have one; they stay NaN when no bidder has
    a difference. *)
Theorem single_bid_gets_column_mean `{FloatStr} (log : list bid_row) (r : agg_row) :
  r ∈ bids log ->
  auction_count_num (df_bids_sorted log) (agg_bidder r) = Some 1%nat ->
  maxdiff_num r = series_mean (values (groupby_agg group_max_diff (df_bids_sorted log)))
  ∧ mindiff_num r = maxdiff_num r
  ∧ meandiff_num (df_bids_sorted log) (agg_bidder r)
    = series_mean (values (groupby_agg group_mean_diff (df_bids_sorted log))).
Proof.
  intros (a & Ha%elem_of_bidders & ->)%elem_of_bids Hone. simpl in *.
  pose proof (single_bid_no_difference log a Ha Hone) as Hd.
  unfold meandiff_num, mean_diff, min_diff, max_diff.
  rewrite !fill_series_None; try done.
  - unfold group_mean_diff. by rewrite Hd.
  - unfold group_max_diff. by rewrite Hd.
Qed.

Lemma single_bid_gets_column_mean_witness :
  let al_row := agg_of (df_bids_sorted (H := small_float_str) three_bids) "al" in
  maxdiff_num al_row
  = series_mean (values (groupby_agg group_max_diff
                           (df_bids_sorted (H := small_float_str) three_bids)))
  ∧ mindiff_num al_row = maxdiff_num al_row
  ∧ meandiff_num (df_bids_sorted (H := small_float_str) three_bids) (agg_bidder al_row)
    = series_mean (values (groupby_agg group_mean_diff
                             (df_bids_sorted (H := small_float_str) three_bids))).
Proof.
  apply (single_bid_gets_column_mean (H := small_float_str) three_bids
           (agg_of (df_bids_sorted (H := small_float_str) three_bids) "al")).
  - unfold bids. apply list_elem_of_fmap_2. vm_compute. by left.
  - vm_compute. reflexivity.
Defined.

Lemma cell_range_diff (df : list frame_row) (a : string) :
  a ∈ bidders df ->
  cell_of (range_diff df) a = Qsub_cell (cell_of (max_diff df) a) (cell_of (min_diff df) a).
Proof.
  intros Ha. unfold cell_of, range_diff, min_diff, max_diff.
  rewrite fill_series_groupby. unfold values.
  rewrite fst_keyed, snd_keyed, zip_with_diag, <- list_fmap_compose, zip_keys.
  by rewrite !(at_key_fmap _ _ _ Ha).
Qed.

(** X12: on every row of [bids] the column [mindiff_num] holds the same
    value as [maxdiff_num], and [rangediff_num] is zero wherever
    [maxdiff_num] has a value and NaN elsewhere. *)
Theorem rangediff_is_zero `{FloatStr} (log : list bid_row) (r : agg_row) :
  r ∈ bids log ->
  mindiff_num r = maxdiff_num r
  ∧ match maxdiff_num r with
    | Some _ => ∃ q, rangediff_num r = Some q ∧ (q == 0)%Q
    | None => rangediff_num r = None
    end.
Proof.
  intros (a & Ha%elem_of_bidders & ->)%elem_of_bids. simpl. split; [done|].
  rewrite cell_range_diff by done.
  change (min_diff (df_bids_sorted log)) with (max_diff (df_bids_sorted log)).
  destruct (cell_of (max_diff (df_bids_sorted log)) a) as [p|]; [|done].
  simpl. eexists. split; [done|]. unfold Qminus. apply Qplus_opp_r.
Qed.

Lemma rangediff_is_zero_witness :
  mindiff_num bob_row = maxdiff_num bob_row
  ∧ match maxdiff_num bob_row with
    | Some _ => ∃ q, rangediff_num bob_row = Some q ∧ (q == 0)%Q
    | None => rangediff_num bob_row = None
    end.
Proof.
  apply (rangediff_is_zero (H := small_float_str) three_bids bob_row).
  unfold bob_row, bids. apply list_elem_of_fmap_2. vm_compute. right. by left.
Defined.

Lemma Qsum_fillna (m : Q) (l : list (option Q)) :
  (Qsum (fillna m <$> l)
   == Qsum (dropna l)
      + (inject_Z (Z.of_nat (length l)) - inject_Z (Z.of_nat (length (dropna l)))) * m)%Q.
Proof.
  induction l as [|[x|] l IH].
  - simpl. ring.
  - rewrite fmap_cons. change (dropna (Some x :: l)) with (x :: dropna l).
    cbn [length Qsum foldr fillna]. fold (Qsum (fillna m <$> l)) (Qsum (dropna l)).
    rewrite !Nat2Z.inj_succ. unfold Z.succ. rewrite !inject_Z_plus, IH.
    change (inject_Z 1) with 1%Q. ring.
  - rewrite fmap_cons. change (dropna (None :: l)) with (dropna l).
    cbn [length Qsum foldr fillna]. fold (Qsum (fillna m <$> l)) (Qsum (dropna l)).
    rewrite !Nat2Z.inj_succ. unfold Z.succ. rewrite !inject_Z_plus, IH.
    change (inject_Z 1) with 1%Q. ring.
Qed.

Lemma dropna_filled (m : Q) (l : list (option Q)) :
  dropna ((λ c, Some (fillna m c)) <$> l) = fillna m <$> l.
Proof. rewrite (list_fmap_compose (fillna m) Some). apply dropna_Some. Qed.

(** X13: filling a column that has a value with its mean leaves every
    value where it is, puts the mean in every missing cell, leaves no cell
    missing, and the mean of the filled column is the mean it had. *)
Theorem fillna_mean_keeps_mean (l : list (option Q)) (m : Q) :
  series_mean l = Some m ->
  fillna_mean l = (λ c, Some (default m c)) <$> l
  ∧ Forall is_Some (fillna_mean l)
  ∧ ∃ m', series_mean (fillna_mean l) = Some m' ∧ (m' == m)%Q.
Proof.
  intros Hm. unfold fillna_mean. rewrite Hm.
  split; [apply list_fmap_ext; by intros _ [x|] _|].
  split; [apply Forall_fmap, Forall_forall; by eexists|].
  unfold series_mean in *. rewrite dropna_filled.
  destruct (dropna l) as [|x xs] eqn:Ed; [done|].
  assert (m == Qsum (x :: xs) / inject_Z (Z.of_nat (length (x :: xs))))%Q as Hmq.
  { injection Hm as <-. reflexivity. }
  clear Hm.
  destruct l as [|c l]; [done|]. rewrite fmap_cons.
  eexists. split; [done|].
  rewrite <- fmap_cons, Qsum_fillna, Ed, length_fmap.
  assert (¬ (inject_Z (Z.of_nat (length (x :: xs))) == 0)%Q) as Hk0.
  { change 0%Q with (inject_Z 0). rewrite inject_Z_injective. simpl. lia. }
  assert (¬ (inject_Z (Z.of_nat (length (c :: l))) == 0)%Q) as HN0.
  { change 0%Q with (inject_Z 0). rewrite inject_Z_injective. simpl. lia. }
  remember (Qsum (x :: xs)) as total.
  remember (inject_Z (Z.of_nat (length (x :: xs)))) as present.
  remember (inject_Z (Z.of_nat (length (c :: l)))) as cells.
  rewrite Hmq. field. by split.
Qed.

Lemma fillna_mean_keeps_mean_witness :
  fillna_mean [Some 1%Q; None; Some 3%Q]
  = (λ c, Some (default (4 # 2)%Q c)) <$> [Some 1%Q; None; Some 3%Q]
  ∧ Forall is_Some (fillna_mean [Some 1%Q; None; Some 3%Q])
  ∧ ∃ m', series_mean (fillna_mean [Some 1%Q; None; Some 3%Q]) = Some m'
          ∧ (m' == 4 # 2)%Q.
Proof.
  apply (fillna_mean_keeps_mean [Some 1%Q; None; Some 3%Q] (4 # 2)%Q).
  reflexivity.
Defined.

(** ** The fingerprint of the time differences (cells 7 and 8) *)

Lemma diff_from_Some_dropna (p : Z) (ts : list Z) :
  diff_from (Some p) ts = Some <$> dropna (diff_from (Some p) ts).
Proof.
  revert p. induction ts as [|t ts IH]; intros p; [done|].
  cbn. fold (dropna (diff_from (Some t) ts)). by rewrite <- IH.
Qed.

(** X14: the tokens of [timediff_text] are [timediff_nan] for the first bid
    of the bidder and then, for each later bid, the tag [timediff_] followed
    by the printed difference to the bid before, in order. *)
Theorem timediff_tokens `{FloatStr} (log : list bid_row) (r : agg_row) :
  (∀ z, no_space (float_str z)) ->
  r ∈ bids log ->
  tokens (text r Timediff)
  = "timediff_nan"
      :: ((λ d, "timediff_" +:+ float_str d)
            <$> dropna (timediff_num <$> group (agg_bidder r) (df_bids_sorted log))).
Proof.
  intros Hns (a & Ha%elem_of_bidders & ->)%elem_of_bids. simpl.
  rewrite (tokens_text_of Hns) by done.
  rewrite (list_fmap_ext (cell Timediff)
             ((λ d, "timediff_" +:+ fillna "" (astype_str d)) ∘ timediff_num)
             (group a (df_bids_sorted log))).
  2:{ intros i x Hx%list_elem_of_lookup_2. apply list_elem_of_filter in Hx as [_ Hx].
      apply frame_row_inv in Hx as [_ Ht]. unfold cell. simpl.
      by rewrite Ht. }
  rewrite list_fmap_compose, timediff_num_group. unfold series_diff.
  apply events_nonempty in Ha.
  destruct (events_of a (sort_rows (normalize log))) as [|e es]; [done|].
  rewrite fmap_cons. cbn [diff_from].
  rewrite diff_from_Some_dropna, !fmap_cons.
  change (dropna (((λ p, time e - p) <$> None) :: ?l)) with (dropna l).
  rewrite dropna_Some, <- list_fmap_compose. done.
Qed.

Lemma timediff_tokens_witness :
  tokens (text bob_row Timediff)
  = "timediff_nan"
      :: ((λ d, "timediff_" +:+ float_str (FloatStr := small_float_str) d)
            <$> dropna (timediff_num
                          <$> group (agg_bidder bob_row)
                                (df_bids_sorted (H := small_float_str) three_bids))).
Proof.
  apply (timediff_tokens (H := small_float_str) three_bids bob_row).
  - exact small_float_str_no_space.
  - unfold bob_row, bids. apply list_elem_of_fmap_2. vm_compute. right. by left.
Defined.

(** ** The join (cell 10) *)

Lemma filter_agg_of (df : list frame_row) (keys : list string) (k : string) :
  NoDup keys ->
  filter (λ f, agg_bidder f = k) (agg_of df <$> keys)
  = if decide (k ∈ keys) then [agg_of df k] else [].
Proof.
  induction 1 as [|a keys Ha Hnd IH]; [done|].
  rewrite fmap_cons, (filter_cons _ (agg_of df a)). simpl.
  destruct (decide (a = k)) as [->|Hne].
  - rewrite IH, decide_False, decide_True by (done || by left). done.
  - rewrite IH. destruct (decide (k ∈ keys)) as [Hk|Hk].
    + rewrite decide_True by (by right). done.
    + rewrite decide_False; [done|]. intros [?|?]%elem_of_cons; done.
Qed.

(** X15: the join gives every roster row, in roster order, the row of
    [bids] of its bidder when the bidder is in the log under that very id,
    and NaN in every aggregated column when it is not. *)
Theorem merge_features `{FloatStr} (df_bids : list bid_row)
    (df_train : list train_row) (df_test : list test_row) :
  features <$> df_combo df_bids df_train df_test
  = (λ r, if decide (combo_bidder_id r ∈ bidder_id <$> normalize df_bids)
          then Some (agg_of (df_bids_sorted df_bids) (combo_bidder_id r))
          else None) <$> append_rosters df_train df_test.
Proof.
  unfold df_combo, merge_left.
  induction (append_rosters df_train df_test) as [|l left IH]; [done|].
  rewrite bind_cons, fmap_app, IH, fmap_cons. clear IH. f_equal.
  unfold bids. rewrite filter_agg_of by apply NoDup_unique.
  destruct (decide (combo_bidder_id l ∈ bidders (df_bids_sorted df_bids))) as [Hin|Hin].
  - rewrite decide_True by (by apply elem_of_bidders). done.
  - rewrite decide_False; [done|]. by rewrite <- elem_of_bidders.
Qed.

(** ** The order check and the run *)

(** X16: when the test partition and the template differ in their number
    of rows, and neither has a single row, the comparison of the ids has
    no array to reduce: the run stops there, with nothing printed and no
    file written. *)
Theorem run_stops_on_row_count_mismatch `{FeatureStages} `{Classifier}
    (sample : list sample_row) (combo : list combo_row) :
  length (test_dat sample combo) ≠ length sample ->
  length (test_dat sample combo) ≠ 1%nat ->
  length sample ≠ 1%nat ->
  run sample combo = ([], None).
Proof.
  intros Hne Ht Hs. unfold run, check_order, np_eq, broadcast.
  rewrite !length_fmap, decide_False by done.
  destruct sample as [|s1 [|s2 sample]]; [| done |];
    destruct (test_dat _ combo) as [|t1 [|t2 test]]; done.
Qed.

Lemma run_stops_on_row_count_mismatch_witness :
  run (H := demo_stages) (H0 := demo_classifier) overlap_sample
      (df_combo (H := small_float_str) three_bids overlap_train overlap_test)
  = ([], None).
Proof.
  apply (run_stops_on_row_count_mismatch (H := demo_stages) (H0 := demo_classifier)
           overlap_sample
           (df_combo (H := small_float_str) three_bids overlap_train overlap_test)).
  - vm_compute. lia.
  - vm_compute. lia.
  - vm_compute. lia.
Defined.

(** ** The bag *)

Lemma Qsum_bounds (lo hi : Q) (l : list Q) :
  (∀ v, v ∈ l -> (lo <= v)%Q ∧ (v <= hi)%Q) ->
  (inject_Z (Z.of_nat (length l)) * lo <= Qsum l)%Q
  ∧ (Qsum l <= inject_Z (Z.of_nat (length l)) * hi)%Q.
Proof.
  induction l as [|x l IH]; intros Hl.
  - simpl. split; apply Qle_lteq; right; ring.
  - destruct IH as [IH1 IH2]; [intros v Hv; apply Hl; by right|].
    destruct (Hl x ltac:(by left)) as [Hx1 Hx2].
    cbn [length Qsum foldr]. fold (Qsum l).
    rewrite Nat2Z.inj_succ. unfold Z.succ. rewrite inject_Z_plus.
    change (inject_Z 1) with 1%Q. split.
    + apply Qle_trans with (lo + inject_Z (Z.of_nat (length l)) * lo)%Q.
      * apply Qle_lteq. right. ring.
      * by apply Qplus_le_compat.
    + apply Qle_trans with (hi + inject_Z (Z.of_nat (length l)) * hi)%Q.
      * by apply Qplus_le_compat.
      * apply Qle_lteq. right. ring.
Qed.

Lemma mean_bounds (lo hi : Q) (l : list Q) :
  l ≠ [] ->
  (∀ v, v ∈ l -> (lo <= v)%Q ∧ (v <= hi)%Q) ->
  (lo <= mean l)%Q ∧ (mean l <= hi)%Q.
Proof.
  intros Hne Hl. destruct (Qsum_bounds lo hi l Hl) as [H1 H2].
  assert (0 < inject_Z (Z.of_nat (length l)))%Q as Hpos.
  { change 0%Q with (inject_Z 0). rewrite <- Zlt_Qlt. destruct l; [done|simpl; lia]. }
  unfold mean. split.
  - apply Qle_shift_div_l; [done|]. by rewrite Qmult_comm.
  - apply Qle_shift_div_r; [done|]. by rewrite Qmult_comm.
Qed.

(** X17: with one probability per template row from every instance, each
    bagged prediction lies within the bounds that hold for the
    probabilities of the fifteen instances; with probabilities between 0
    and 1 it is between 0 and 1. *)
Theorem bagged_preds_bounded `{Classifier}
    (xtrain : matrix) (y : list Q) (xtest : matrix) (n : nat) (lo hi : Q) :
  (∀ p, length (predict_proba p xtrain y xtest) = n) ->
  (∀ s v, s ∈ seeds -> v ∈ predict_proba (set_params_seed s clf) xtrain y xtest ->
          (lo <= v)%Q ∧ (v <= hi)%Q) ->
  ∃ bagged,
    bagged_preds n xtrain y xtest = Some bagged
    ∧ length bagged = n
    ∧ ∀ v, v ∈ bagged -> (lo <= v)%Q ∧ (v <= hi)%Q.
Proof.
  intros Hlen Hb. eexists. split; [by apply bagged_preds_rows|].
  split; [by rewrite length_fmap, length_seq|].
  intros v (j & -> & Hj)%list_elem_of_fmap. apply elem_of_seq in Hj.
  apply mean_bounds; [done|].
  intros w (s & -> & Hs)%list_elem_of_fmap. unfold proba_of.
  apply (Hb s); [done|].
  destruct (lookup_lt_is_Some_2 (predict_proba (set_params_seed s clf) xtrain y xtest) j)
    as [x Hx]; [rewrite Hlen; lia|].
  apply list_elem_of_lookup. exists j. by rewrite nth_lookup, Hx.
Qed.

Lemma bagged_preds_bounded_witness :
  ∃ bagged,
    bagged_preds (H := demo_classifier) 2 [[5%Q]] [1%Q] [[3%Q]; [2%Q]] = Some bagged
    ∧ length bagged = 2%nat
    ∧ ∀ v, v ∈ bagged -> (0 <= v)%Q ∧ (v <= 1)%Q.
Proof.
  apply (bagged_preds_bounded (H := demo_classifier) [[5%Q]] [1%Q] [[3%Q]; [2%Q]] 2 0%Q 1%Q).
  - intros p. reflexivity.
  - intros s v Hs Hv. unfold seeds, rounds in Hs. cbn in Hs.
    repeat (apply elem_of_cons in Hs as [->|Hs]); [..|by apply elem_of_nil in Hs];
      cbn in Hv;
      (repeat (apply elem_of_cons in Hv as [->|Hv]); [..|by apply elem_of_nil in Hv]);
      split; by vm_compute.
Defined.

(** ** The range of the scaled columns (cell 15) *)

Lemma foldl_zip_with_attained (f : Q -> Q -> Q) (rs : list (list Q)) (acc : list Q)
    (j : nat) (v : Q) :
  (∀ x y, f x y = x ∨ f x y = y) ->
  foldl (zip_with f) acc rs !! j = Some v ->
  acc !! j = Some v ∨ ∃ r, r ∈ rs ∧ r !! j = Some v.
Proof.
  intros Hf. revert acc. induction rs as [|r rs IH]; intros acc Hv; simpl in Hv; [by left|].
  apply IH in Hv as [Hv|(r' & Hr' & Hv)].
  - apply lookup_zip_with_Some in Hv as (x & z & -> & Hx & Hz).
    destruct (Hf x z) as [-> | ->]; [by left|].
    right. exists r. split; [by left|done].
  - right. exists r'. split; [by right|done].
Qed.

Lemma reduce_axis0_attained (f : Q -> Q -> Q) (X : matrix) (b : list Q) (j : nat) (v : Q) :
  (∀ x y, f x y = x ∨ f x y = y) ->
  reduce_axis0 f X = Some b -> b !! j = Some v ->
  ∃ r, r ∈ X ∧ r !! j = Some v.
Proof.
  intros Hf Hb Hv. destruct X as [|x rs]; [done|]. injection Hb as <-.
  destruct (foldl_zip_with_attained f rs x j v Hf Hv) as [Hv'|(r & Hr & Hv')].
  - exists x. split; [by left|done].
  - exists r. split; [by right|done].
Qed.

Lemma Qmin_either (x y : Q) : Qmin x y = x ∨ Qmin x y = y.
Proof. unfold Qmin. destruct (Qle_bool y x); auto. Qed.

Lemma Qmax_either (x y : Q) : Qmax x y = x ∨ Qmax x y = y.
Proof. unfold Qmax. destruct (Qle_bool x y); auto. Qed.

Lemma scaled_min (mn mx : Q) : (scaled (H := exact) mn mx mn == 0)%Q.
Proof. unfold scaled, fl, exact. ring. Qed.

Lemma scaled_max (mn mx : Q) :
  Qeq_bool (mx - mn) 0 = false -> (scaled (H := exact) mn mx mx == 1)%Q.
Proof.
  intros E. unfold scaled, fl, exact. rewrite E. apply Qeq_bool_neq in E. field. done.
Qed.

Lemma scaled_constant (mn mx x : Q) :
  Qeq_bool (mx - mn) 0 = true -> (mn <= x)%Q -> (x <= mx)%Q ->
  (scaled (H := exact) mn mx x == 0)%Q.
Proof.
  intros E Hlo Hhi. unfold scaled, fl, exact. rewrite E. apply Qeq_bool_iff in E.
  assert (x == mn)%Q as -> by lra. field.
Qed.

(** X18: in exact arithmetic, after the scaler is fitted on the stack of
    two matrices without NaN, every column has an entry that is scaled to
    0; a column that is not constant also has one that is scaled to 1,
    and a constant column is 0 in every row. *)
Theorem min_max_scaler_attains_bounds (xtrain xtest : frame_values) (d j : nat) :
  (∀ row, row ∈ vstack xtrain xtest -> length row = d) ->
  vstack xtrain xtest ≠ [] ->
  Forall (Forall is_Some) (vstack xtrain xtest) ->
  (j < d)%nat ->
  ∃ sc strain stest,
    fit_scaler (H := exact) (vstack xtrain xtest) = Some sc
    ∧ transform_scaler (H := exact) sc xtrain = Some strain
    ∧ transform_scaler (H := exact) sc xtest = Some stest
    ∧ (∃ row v, row ∈ vstack strain stest ∧ row !! j = Some v ∧ (v == 0)%Q)
    ∧ ((∃ row v, row ∈ vstack strain stest ∧ row !! j = Some v ∧ (v == 1)%Q)
       ∨ (∀ row v, row ∈ vstack strain stest -> row !! j = Some v -> (v == 0)%Q)).
Proof.
  intros Hd HX Hnan Hj.
  destruct (fit_transform (H := exact) xtrain xtest d Hd HX Hnan)
    as (sc & M1 & M2 & dmin & dmax & Hsc & Htrain & Htest & L1 & L2 & HdM & Hmin & Hmax
        & Hlo & Hhi & Htr).
  exists sc, (transform_row (H := exact) sc <$> M1), (transform_row (H := exact) sc <$> M2).
  split; [done|]. split; [done|]. split; [done|].
  assert (vstack (transform_row (H := exact) sc <$> M1) (transform_row (H := exact) sc <$> M2)
          = transform_row (H := exact) sc <$> (M1 ++ M2)%list) as ->.
  { unfold vstack. by rewrite fmap_app. }
  assert ((M1 ++ M2)%list ≠ []) as HMne.
  { intros E. apply (f_equal length) in E. rewrite length_app, L1, L2 in E.
    apply HX. unfold vstack. apply nil_length_inv. by rewrite length_app. }
  remember (M1 ++ M2)%list as X eqn:EX.
  clear EX M1 M2 Htrain Htest L1 L2 Hsc xtrain xtest Hd HX Hnan.
  assert (∃ mn mx, dmin !! j = Some mn ∧ dmax !! j = Some mx) as (mn & mx & Hmn & Hmx).
  { destruct X as [|x0 X]; [done|].
    pose proof (Forall2_length _ _ _ (Hlo x0 ltac:(by left))) as Ll.
    pose proof (Forall2_length _ _ _ (Hhi x0 ltac:(by left))) as Lh.
    rewrite (HdM x0) in Ll, Lh by (by left).
    destruct (lookup_lt_is_Some_2 dmin j) as [mn Hmn]; [lia|].
    destruct (lookup_lt_is_Some_2 dmax j) as [mx Hmx]; [lia|].
    by exists mn, mx. }
  assert (∀ r x, r !! j = Some x ->
            transform_row (H := exact) sc r !! j = Some (scaled (H := exact) mn mx x)) as Hat.
  { intros r x Hx. rewrite Htr. apply lookup_zip_with_Some.
    exists x, (mn, mx). split; [done|]. split; [done|].
    apply lookup_zip_with_Some. by exists mn, mx. }
  destruct (reduce_axis0_attained Qmin X dmin j mn Qmin_either Hmin Hmn) as (rmin & Hrmin & Hvmin).
  destruct (reduce_axis0_attained Qmax X dmax j mx Qmax_either Hmax Hmx) as (rmax & Hrmax & Hvmax).
  split.
  - exists (transform_row (H := exact) sc rmin), (scaled (H := exact) mn mx mn).
    split; [by apply list_elem_of_fmap_2|]. split; [by apply Hat|apply scaled_min].
  - destruct (Qeq_bool (mx - mn) 0) eqn:E.
    + right. intros row v (r & -> & Hr)%list_elem_of_fmap Hv.
      rewrite Htr in Hv.
      apply lookup_zip_with_Some in Hv as (x & [mn' mx'] & -> & Hx & Hp).
      apply lookup_zip_with_Some in Hp as (? & ? & [= <- <-] & Hmn' & Hmx').
      rewrite Hmn in Hmn'. rewrite Hmx in Hmx'.
      injection Hmn' as <-. injection Hmx' as <-. simpl.
      apply scaled_constant; [done| |].
      * exact (Forall2_lookup_lr _ _ _ _ _ _ (Hlo r Hr) Hmn Hx).
      * exact (Forall2_lookup_lr _ _ _ _ _ _ (Hhi r Hr) Hmx Hx).
    + left. exists (transform_row (H := exact) sc rmax), (scaled (H := exact) mn mx mx).
      split; [by apply list_elem_of_fmap_2|]. split; [by apply Hat|by apply scaled_max].
Qed.

Lemma min_max_scaler_attains_bounds_witness :
  ∃ sc strain stest,
    fit_scaler (H := exact)
      (vstack [[Some 1; Some 5]; [Some 3; Some 5]] [[Some 2; Some 5]])%Q = Some sc
    ∧ transform_scaler (H := exact) sc [[Some 1; Some 5]; [Some 3; Some 5]]%Q = Some strain
    ∧ transform_scaler (H := exact) sc [[Some 2; Some 5]]%Q = Some stest
    ∧ (∃ row v, row ∈ vstack strain stest ∧ row !! 0%nat = Some v ∧ (v == 0)%Q)
    ∧ ((∃ row v, row ∈ vstack strain stest ∧ row !! 0%nat = Some v ∧ (v == 1)%Q)
       ∨ (∀ row v, row ∈ vstack strain stest -> row !! 0%nat = Some v -> (v == 0)%Q)).
Proof.
  apply (min_max_scaler_attains_bounds
           [[Some 1; Some 5]; [Some 3; Some 5]]%Q [[Some 2; Some 5]]%Q 2 0).
  - intros row Hrow. unfold vstack in Hrow. simpl in Hrow.
    repeat (apply elem_of_cons in Hrow as [->|Hrow]); [reflexivity..|].
    by apply elem_of_nil in Hrow.
  - done.
  - repeat constructor; by eexists.
  - lia.
Defined.

(** ** Which columns the selection keeps (cell 20) *)

Lemma set_true_lookup (kept : list nat) (mask : list bool) (i : nat) (b : bool) :
  set_true kept mask !! i = Some b ->
  (b = true ∧ (mask !! i = Some true ∨ i ∈ kept)) ∨ (b = false ∧ mask !! i = Some false).
Proof.
  unfold set_true. revert mask. induction kept as [|k kept IH]; intros mask Hb; simpl in Hb.
  - destruct b; auto.
  - apply IH in Hb as [[-> Hb]|[-> Hb]].
    + left. split; [done|]. destruct Hb as [Hb|Hb]; [|right; by right].
      destruct (decide (k = i)) as [->|Hne]; [right; by left|].
      left. by rewrite list_lookup_insert_ne in Hb.
    + right. split; [done|].
      destruct (decide (k = i)) as [->|Hne].
      * apply list_lookup_insert_Some in Hb as [(_ & ? & _)|[? _]]; done.
      * by rewrite list_lookup_insert_ne in Hb.
Qed.

Lemma elem_of_slice_to {A} (k : Z) (l : list A) (x : A) : x ∈ slice_to k l -> x ∈ l.
Proof.
  unfold slice_to. destruct (0 <=? k); intros Hx;
    (eapply elem_of_sublist; [done|apply sublist_take]).
Qed.

Lemma get_support_mask_top `{Rounding} (scores : list Q) (percentile : Z)
    (i j : nat) (si sj : Q) :
  get_support_mask scores percentile !! i = Some true ->
  get_support_mask scores percentile !! j = Some false ->
  scores !! i = Some si ->
  scores !! j = Some sj ->
  (sj <= si)%Q.
Proof.
  unfold get_support_mask. intros Hi Hj Hsi Hsj.
  destruct (percentile =? 100).
  { apply lookup_replicate in Hj as [? _]. done. }
  destruct (percentile =? 0).
  { apply lookup_replicate in Hi as [? _]. done. }
  set (t := scoreatpercentile scores (100 - percentile)) in *.
  assert (∀ k s b, ((λ s, Qgt_bool s t) <$> scores) !! k = Some b -> scores !! k = Some s ->
                   b = Qgt_bool s t) as Hmask.
  { intros k s b Hb Hs. rewrite list_lookup_fmap, Hs in Hb. by injection Hb. }
  assert (t <= si)%Q as Hti.
  { destruct (where_eq scores t) as [|w ws] eqn:Ew.
    - apply Qlt_le_weak, Qgt_bool_iff. symmetry. by eapply Hmask.
    - apply set_true_lookup in Hi as [[_ [Hi|Hi]]|[? _]]; [| |done].
      + apply Qlt_le_weak, Qgt_bool_iff. symmetry. by eapply Hmask.
      + apply elem_of_slice_to in Hi. rewrite <- Ew in Hi.
        apply list_elem_of_filter in Hi as [Hi _].
        apply Qeq_bool_iff in Hi. rewrite nth_lookup, Hsi in Hi. simpl in Hi.
        rewrite Hi. apply Qle_refl. }
  assert (sj <= t)%Q as Htj.
  { assert (Qgt_bool sj t = false) as Hgt.
    { destruct (where_eq scores t) as [|w ws] eqn:Ew.
      - symmetry. by eapply Hmask.
      - apply set_true_lookup in Hj as [[? _]|[_ Hj]]; [done|].
        symmetry. by eapply Hmask. }
    unfold Qgt_bool in Hgt. apply negb_false_iff, Qle_bool_iff in Hgt. done. }
  by eapply Qle_trans.
Qed.

(** X19: no column that the selection drops has a higher chi-squared score
    than a column that it keeps. *)
Theorem selection_keeps_top_scores `{Rounding} `{Chi2} (xtrain : matrix) (y : list Q)
    (i j : nat) (si sj : Q) :
  feats_25 xtrain y !! i = Some true ->
  feats_25 xtrain y !! j = Some false ->
  chi2 xtrain y !! i = Some si ->
  chi2 xtrain y !! j = Some sj ->
  (sj <= si)%Q.
Proof.
  intros Hi Hj Hsi Hsj.
  by eapply (get_support_mask_top (chi2 xtrain y) 25 i j).
Qed.

Lemma selection_keeps_top_scores_witness :
  let xtrain := [[1; 2; 3; 4; 5]; [0; 0; 0; 0; 0]]%Q in
  let y := [1; 0]%Q in
  (feats_25 (H := binary64) (H0 := demo_chi2) xtrain y !! 4%nat = Some true
   ∧ feats_25 (H := binary64) (H0 := demo_chi2) xtrain y !! 1%nat = Some false
   ∧ chi2 (Chi2 := demo_chi2) xtrain y !! 4%nat = Some 5%Q
   ∧ chi2 (Chi2 := demo_chi2) xtrain y !! 1%nat = Some 2%Q)
  ∧ (2 <= 5)%Q.
Proof.
  intros xtrain y. split; [repeat split; by vm_compute|].
  apply (selection_keeps_top_scores (H := binary64) (H0 := demo_chi2) xtrain y 4 1 5%Q 2%Q);
    by vm_compute.
Defined.

(** ** The columns by name (cell 12) *)

Lemma roster_no_num_no_text (c : string) :
  c ∈ roster_columns -> re_search "num" c = false ∧ re_search "text" c = false.
Proof.
  unfold roster_columns. intros Hc.
  repeat (apply elem_of_cons in Hc as [->|Hc]); [by vm_compute..|].
  by apply elem_of_nil in Hc.
Qed.

Lemma text_cols_combo_names (roster : list string) :
  roster ≡ₚ roster_columns ->
  text_cols_combo roster
  = "address_text" :: "account_text" :: ((λ var, col_name var +:+ "_text") <$> text_cols).
Proof.
  intros Hp. unfold text_cols_combo, combo_columns. rewrite filter_app.
  rewrite (filter_none _ roster); [by vm_compute|].
  intros c Hc. rewrite Hp in Hc. apply roster_no_num_no_text in Hc as [_ Hc]. congruence.
Qed.

(** X20: whatever order [append] leaves the four roster columns in, no
    column of [df_combo] has both [num] and [text] in its name, and the
    columns with neither, which cell 12 does not fill, are the four roster
    columns: the label and the ids are never imputed, and each of the 23
    numeric and 9 text columns is filled by one loop only. *)
Theorem columns_split_by_name (roster : list string) :
  roster ≡ₚ roster_columns ->
  filter (λ c, re_search "num" c = true ∧ re_search "text" c = true) (combo_columns roster)
  = []
  ∧ filter (λ c, re_search "num" c = false ∧ re_search "text" c = false)
      (combo_columns roster)
    = roster
  ∧ length (num_cols roster) = 23%nat
  ∧ length (text_cols_combo roster) = 9%nat.
Proof.
  intros Hp.
  assert (∀ c, c ∈ roster -> re_search "num" c = false ∧ re_search "text" c = false) as Hr.
  { intros c Hc. apply roster_no_num_no_text. by rewrite <- Hp. }
  unfold num_cols, text_cols_combo, combo_columns. rewrite !filter_app.
  repeat split.
  - rewrite (filter_none _ roster); [by vm_compute|].
    intros c [Hn _]%Hr [? _]. congruence.
  - rewrite (filter_all _ roster) by done. rewrite <- (app_nil_r roster) at 2.
    by f_equal.
  - rewrite (filter_none _ roster); [by vm_compute|].
    intros c [Hn _]%Hr. congruence.
  - rewrite (filter_none _ roster); [by vm_compute|].
    intros c [_ Ht]%Hr. congruence.
Qed.

Lemma columns_split_by_name_witness :
  filter (λ c, re_search "num" c = true ∧ re_search "text" c = true)
    (combo_columns ["address"; "bidder_id"; "outcome"; "payment_account"])
  = []
  ∧ filter (λ c, re_search "num" c = false ∧ re_search "text" c = false)
      (combo_columns ["address"; "bidder_id"; "outcome"; "payment_account"])
    = ["address"; "bidder_id"; "outcome"; "payment_account"]
  ∧ length (num_cols ["address"; "bidder_id"; "outcome"; "payment_account"]) = 23%nat
  ∧ length (text_cols_combo ["address"; "bidder_id"; "outcome"; "payment_account"]) = 9%nat.
Proof.
  apply (columns_split_by_name ["address"; "bidder_id"; "outcome"; "payment_account"]).
  unfold roster_columns.
  apply (Permutation_trans (l' := ["bidder_id"; "address"; "outcome"; "payment_account"])).
  - apply perm_swap.
  - apply perm_skip.
    apply (Permutation_trans (l' := ["address"; "payment_account"; "outcome"])).
    + apply perm_skip, perm_swap.
    + apply perm_swap.
Defined.

(** ** The vectorizer loop (cells 18 and 19) *)

Lemma foldl_bind_None {A X} (f : A -> X -> option X) (l : list A) :
  foldl (λ acc a, acc ≫= f a) None l = None.
Proof. by induction l. Qed.

Lemma foldl_bind_foldr {A X} (f : A -> X -> option X) (l : list A) (x : X) :
  foldl (λ acc a, acc ≫= f a) (Some x) l = foldr (λ a k x, f a x ≫= k) Some l x.
Proof.
  revert x. induction l as [|a l IH]; intros x; [done|]. simpl.
  destruct (f a x) as [x'|]; simpl; [apply IH|apply foldl_bind_None].
Qed.

Lemma vectorize_unrolled `{Tfidf} (roster : list string)
    (combo train test : list combo_row) (x : matrix * matrix) :
  roster ≡ₚ roster_columns ->
  vectorize (text_cols_combo roster) combo train test x
  = foldl (λ acc cv, acc ≫= stack_column (snd cv) (fst cv) combo train test) (Some x)
      [("auction_text", vect_tokens 5 3); ("merchandise_text", vect_tokens 5 3);
       ("device_text", vect_tokens 5 3); ("timediff_text", vect_tokens 1 1);
       ("country_text", vect_tokens 5 3); ("ip_text", vect_default 1 1);
       ("url_text", vect_tokens 5 3)].
Proof.
  intros Hp. rewrite text_cols_combo_names by done.
  rewrite (foldl_bind_foldr (λ cv, stack_column (snd cv) (fst cv) combo train test)).
  by vm_compute.
Qed.

(** X21: the loop looks up no key that [text_params] lacks; it skips the
    address and the account column and stacks, in this order, the columns
    of the auctions, merchandise, devices, time differences, countries,
    ips and urls, each with the parameters of its entry, the ips alone
    with the default tokenizer. *)
Theorem vectorize_seven_columns `{Tfidf} (roster : list string)
    (combo train test : list combo_row) (x : matrix * matrix) :
  roster ≡ₚ roster_columns ->
  text_cols_combo roster
  = "address_text" :: "account_text" :: ((λ var, col_name var +:+ "_text") <$> text_cols)
  ∧ vectorize (text_cols_combo roster) combo train test x
    = foldl (λ acc cv, acc ≫= stack_column (snd cv) (fst cv) combo train test) (Some x)
        [("auction_text", vect_tokens 5 3); ("merchandise_text", vect_tokens 5 3);
         ("device_text", vect_tokens 5 3); ("timediff_text", vect_tokens 1 1);
         ("country_text", vect_tokens 5 3); ("ip_text", vect_default 1 1);
         ("url_text", vect_tokens 5 3)].
Proof.
  intros Hp. split; [by apply text_cols_combo_names|by apply vectorize_unrolled].
Qed.

Lemma vectorize_seven_columns_witness :
  let combo := df_combo (H := small_float_str) three_bids two_train two_test in
  text_cols_combo roster_columns
  = "address_text" :: "account_text" :: ((λ var, col_name var +:+ "_text") <$> text_cols)
  ∧ vectorize (H := demo_tfidf) (text_cols_combo roster_columns) combo (train_dat combo)
      (test_dat two_sample combo) ([], [])
    = foldl (λ acc cv, acc ≫= stack_column (H := demo_tfidf) (snd cv) (fst cv) combo
                                 (train_dat combo) (test_dat two_sample combo))
        (Some ([], []))
        [("auction_text", vect_tokens 5 3); ("merchandise_text", vect_tokens 5 3);
         ("device_text", vect_tokens 5 3); ("timediff_text", vect_tokens 1 1);
         ("country_text", vect_tokens 5 3); ("ip_text", vect_default 1 1);
         ("url_text", vect_tokens 5 3)].
Proof.
  apply (vectorize_seven_columns (H := demo_tfidf) roster_columns). reflexivity.
Defined.

Lemma text_column_of (var : text_col) (r : combo_row) :
  text_column (col_name var +:+ "_text") r
  = Some (fillna "" ((λ f, text f var) <$> features r)).
Proof. by destruct var. Qed.

Lemma column_values_text (var : text_col) (df : list combo_row) :
  ∃ docs, column_values (col_name var +:+ "_text") df = Some docs ∧ length docs = length df.
Proof.
  unfold column_values.
  destruct (mapM (text_column (col_name var +:+ "_text")) df) as [docs|] eqn:E.
  - exists docs. split; [done|]. symmetry. by eapply length_mapM.
  - exfalso. apply eq_None_not_Some in E. apply E, mapM_is_Some, Forall_forall.
    intros r _. unfold compose. rewrite text_column_of. by eexists.
Qed.

Lemma hstack_shape (a b : matrix) (da db : nat) :
  length a = length b ->
  Forall (λ row, length row = da) a -> Forall (λ row, length row = db) b ->
  ∃ c, hstack a b = Some c ∧ length c = length a
       ∧ Forall (λ row, length row = (da + db)%nat) c.
Proof.
  intros Hlen Ha Hb. unfold hstack. rewrite decide_True by done.
  eexists. split; [done|]. split.
  - rewrite length_zip_with. lia.
  - apply Forall_forall. intros row (ra & rb & -> & Hra & Hrb)%elem_of_zip_with.
    rewrite Forall_forall in Ha, Hb. rewrite length_app, (Ha _ Hra), (Hb _ Hrb). done.
Qed.

(** The seven columns that the loop stacks, each with its vectorizer. *)
Lemma stack_column_shape `{Tfidf} (combo train test : list combo_row)
    (vect : tfidf_params) (var : text_col) (xtrain xtest : matrix) (d : nat) :
  (∀ docs, column_values (col_name var +:+ "_text") combo = Some docs ->
     ∃ fitted w,
       tfidf_fit vect docs = Some fitted
       ∧ ∀ ds, length (fitted ds) = length ds ∧ Forall (λ row, length row = w) (fitted ds)) ->
  length xtrain = length train -> length xtest = length test ->
  Forall (λ row, length row = d) xtrain -> Forall (λ row, length row = d) xtest ->
  ∃ xtrain' xtest' w,
    stack_column vect (col_name var +:+ "_text") combo train test (xtrain, xtest)
    = Some (xtrain', xtest')
    ∧ length xtrain' = length train ∧ length xtest' = length test
    ∧ Forall (λ row, length row = (d + w)%nat) xtrain'
    ∧ Forall (λ row, length row = (d + w)%nat) xtest'.
Proof.
  intros Hfit Ltr Lte Wtr Wte. unfold stack_column.
  destruct (column_values_text var combo) as (docs & Ec & _).
  destruct (column_values_text var train) as (dtr & Etr & Hdtr).
  destruct (column_values_text var test) as (dte & Ete & Hdte).
  destruct (Hfit docs Ec) as (fitted & w & Ef & Hw).
  destruct (Hw dtr) as [L1 W1]. destruct (Hw dte) as [L2 W2].
  destruct (hstack_shape xtrain (fitted dtr) d w) as (c1 & E1 & Lc1 & Wc1);
    [congruence|done..|].
  destruct (hstack_shape xtest (fitted dte) d w) as (c2 & E2 & Lc2 & Wc2);
    [congruence|done..|].
  rewrite Ec. cbn [mbind option_bind]. rewrite Ef. cbn [mbind option_bind].
  rewrite Etr. cbn [mbind option_bind]. rewrite Ete. cbn [mbind option_bind fst snd].
  rewrite E1. cbn [mbind option_bind]. rewrite E2. cbn [mbind option_bind].
  exists c1, c2, w. repeat split; try done; congruence.
Qed.

Lemma foldl_stack_shape `{Tfidf} (combo train test : list combo_row)
    (cvs : list (string * tfidf_params)) (xtrain xtest : matrix) (d : nat) :
  Forall (λ cv, ∃ var, fst cv = col_name var +:+ "_text") cvs ->
  Forall (λ cv, ∀ docs, column_values (fst cv) combo = Some docs ->
     ∃ fitted w,
       tfidf_fit (snd cv) docs = Some fitted
       ∧ ∀ ds, length (fitted ds) = length ds ∧ Forall (λ row, length row = w) (fitted ds))
    cvs ->
  length xtrain = length train -> length xtest = length test ->
  Forall (λ row, length row = d) xtrain -> Forall (λ row, length row = d) xtest ->
  ∃ xtrain' xtest' w,
    foldl (λ acc cv, acc ≫= stack_column (snd cv) (fst cv) combo train test)
      (Some (xtrain, xtest)) cvs
    = Some (xtrain', xtest')
    ∧ length xtrain' = length train ∧ length xtest' = length test
    ∧ Forall (λ row, length row = (d + w)%nat) xtrain'
    ∧ Forall (λ row, length row = (d + w)%nat) xtest'.
Proof.
  intros Hcvs. revert xtrain xtest d.
  induction Hcvs as [|[col vect] cvs [var Hcol] _ IH];
    intros xtrain xtest d Hfits Ltr Lte Wtr Wte.
  - exists xtrain, xtest, 0%nat. rewrite Nat.add_0_r. done.
  - apply Forall_cons in Hfits as [Hfit Hfits]. simpl in Hcol, Hfit. subst col.
    cbn [foldl fst snd].
    destruct (stack_column_shape combo train test vect var xtrain xtest d Hfit Ltr Lte Wtr Wte)
      as (x1 & x2 & w1 & Hs & L1 & L2 & W1 & W2).
    change (Some (xtrain, xtest) ≫= stack_column vect (col_name var +:+ "_text") combo train test)
      with (stack_column vect (col_name var +:+ "_text") combo train test (xtrain, xtest)).
    rewrite Hs.
    destruct (IH x1 x2 (d + w1)%nat Hfits L1 L2 W1 W2)
      as (y1 & y2 & w2 & Hf & ? & ? & V1 & V2).
    exists y1, y2, (w1 + w2)%nat. rewrite Hf, Nat.add_assoc. done.
Qed.

(** X22: when each of the seven fits of the run succeeds, on the column
    of [df_combo] that it is given, and the vectorizer it fits gives one
    row per document, all of one width, the loop ends without raising;
    each matrix keeps its number of rows, and the train and the test
    matrix come out with the same number of columns. *)
Theorem vectorize_keeps_rows_and_widths `{Tfidf} (roster : list string)
    (combo train test : list combo_row) (xtrain xtest : matrix) (d : nat) :
  roster ≡ₚ roster_columns ->
  Forall (λ cv, ∀ docs, column_values (fst cv) combo = Some docs ->
     ∃ fitted w,
       tfidf_fit (snd cv) docs = Some fitted
       ∧ ∀ ds, length (fitted ds) = length ds ∧ Forall (λ row, length row = w) (fitted ds))
    [("auction_text", vect_tokens 5 3); ("merchandise_text", vect_tokens 5 3);
     ("device_text", vect_tokens 5 3); ("timediff_text", vect_tokens 1 1);
     ("country_text", vect_tokens 5 3); ("ip_text", vect_default 1 1);
     ("url_text", vect_tokens 5 3)] ->
  length xtrain = length train ->
  length xtest = length test ->
  Forall (λ row, length row = d) xtrain ->
  Forall (λ row, length row = d) xtest ->
  ∃ xtrain' xtest' w,
    vectorize (text_cols_combo roster) combo train test (xtrain, xtest)
    = Some (xtrain', xtest')
    ∧ length xtrain' = length train
    ∧ length xtest' = length test
    ∧ Forall (λ row, length row = (d + w)%nat) xtrain'
    ∧ Forall (λ row, length row = (d + w)%nat) xtest'.
Proof.
  intros Hp Hfit Ltr Lte Wtr Wte. rewrite vectorize_unrolled by done.
  apply foldl_stack_shape; try done.
  repeat constructor;
    [by exists Auction|by exists Merchandise|by exists Device|by exists Timediff
    |by exists Country|by exists Ip|by exists Url].
Qed.

(** What the stand-in gives when it fits: one row per document, with one
    weight per term. *)
Lemma counting_tfidf_shape (vect : tfidf_params) (docs : list string)
    (fitted : list string -> matrix) :
  tfidf_fit (Tfidf := counting_tfidf) vect docs = Some fitted ->
  ∃ w, ∀ ds, length (fitted ds) = length ds ∧ Forall (λ row, length row = w) (fitted ds).
Proof.
  unfold tfidf_fit, counting_tfidf. destruct (min_df vect) as [| mindf | |]; try done.
  destruct (decide _) as [|_]; [done|]. intros [= <-].
  eexists. intros ds. split; [by rewrite length_fmap|].
  apply Forall_fmap, Forall_forall. intros dcm _. simpl. by rewrite length_fmap.
Qed.

Lemma vectorize_keeps_rows_and_widths_witness :
  let combo := df_combo (H := small_float_str) six_bids three_train three_test in
  ∃ xtrain' xtest' w,
    vectorize (H := counting_tfidf) (text_cols_combo roster_columns) combo (train_dat combo)
      (test_dat mixed_sample combo)
      (demo_feature <$> train_dat combo, demo_feature <$> test_dat mixed_sample combo)
    = Some (xtrain', xtest')
    ∧ length xtrain' = length (train_dat combo)
    ∧ length xtest' = length (test_dat mixed_sample combo)
    ∧ Forall (λ row, length row = (1 + w)%nat) xtrain'
    ∧ Forall (λ row, length row = (1 + w)%nat) xtest'.
Proof.
  intros combo.
  apply (vectorize_keeps_rows_and_widths (H := counting_tfidf) roster_columns combo
           (train_dat combo) (test_dat mixed_sample combo)
           (demo_feature <$> train_dat combo)
           (demo_feature <$> test_dat mixed_sample combo) 1).
  - reflexivity.
  - repeat constructor; cbn [fst snd]; intros docs Hdocs;
      vm_compute in Hdocs; injection Hdocs as <-;
      (destruct (tfidf_fit (Tfidf := counting_tfidf) _ _) as [fitted|] eqn:Hfit;
       [|by vm_compute in Hfit]);
      destruct (counting_tfidf_shape _ _ _ Hfit) as [w Hw]; by exists fitted, w.
  - by rewrite length_fmap.
  - by rewrite length_fmap.
  - apply Forall_fmap, Forall_forall. done.
  - apply Forall_fmap, Forall_forall. done.
Defined.

(** With the four roster rows of the smaller sample the first fit of the
    loop raises: no auction is in five documents. *)
Example four_documents_min_df :
  let combo := df_combo (H := small_float_str) three_bids two_train two_test in
  vectorize (H := counting_tfidf) (text_cols_combo roster_columns) combo (train_dat combo)
    (test_dat two_sample combo)
    (demo_feature <$> train_dat combo, demo_feature <$> test_dat two_sample combo)
  = None.
Proof. by vm_compute. Qed.

(** ** The largest difference (cell 9) *)

Lemma foldl_max_spec (x : Z) (xs : list Z) :
  foldl Z.max x xs ∈ x :: xs ∧ ∀ y, y ∈ x :: xs -> y <= foldl Z.max x xs.
Proof.
  revert x. induction xs as [|z xs IH]; intros x; simpl.
  - split; [by left|]. intros y ->%list_elem_of_singleton. lia.
  - destruct (IH (Z.max x z)) as [Hin Hub]. split.
    + apply elem_of_cons in Hin as [Hm|Hin]; [|by do 2 right].
      rewrite Hm. destruct (Z.max_spec x z) as [[_ ->]|[_ ->]]; [right|]; by left.
    + intros y Hy.
      assert (y <= Z.max x z ∨ y ∈ xs) as [Hle|Hxs].
      { apply elem_of_cons in Hy as [->|Hy]; [left; lia|].
        apply elem_of_cons in Hy as [->|Hy]; [left; lia|by right]. }
      * specialize (Hub (Z.max x z) ltac:(by left)). lia.
      * apply Hub. by right.
Qed.

(** X23: [maxdiff_num] of a bidder that has a time difference is one of
    the bidder's time differences, and none of them is larger. *)
Theorem maxdiff_is_largest_difference `{FloatStr}
    (log : list bid_row) (r : agg_row) (d : Z) :
  r ∈ bids log ->
  Some d ∈ timediff_num <$> group (agg_bidder r) (df_bids_sorted log) ->
  ∃ m, maxdiff_num r = Some (inject_Z m)
       ∧ Some m ∈ timediff_num <$> group (agg_bidder r) (df_bids_sorted log)
       ∧ d <= m.
Proof.
  intros Hr Hd.
  set (l := timediff_num <$> group (agg_bidder r) (df_bids_sorted log)) in *.
  assert (d ∈ dropna l) as Hd'.
  { apply list_elem_of_omap. by exists (Some d). }
  assert (∃ m, series_max l = Some m ∧ m ∈ dropna l ∧ d <= m) as (m & Hm & Hin & Hle).
  { unfold series_max. destruct (dropna l) as [|x xs]; [by apply elem_of_nil in Hd'|].
    destruct (foldl_max_spec x xs) as [H1 H2]. eexists. split; [done|]. auto. }
  exists m. split; [|split; [|done]].
  - by destruct (mindiff_is_group_max log r m Hr Hm).
  - apply list_elem_of_omap in Hin as ([y|] & Hy & [= ->]). done.
Qed.

Lemma maxdiff_is_largest_difference_witness :
  ∃ m, maxdiff_num bob_row = Some (inject_Z m)
       ∧ Some m ∈ timediff_num
                    <$> group (agg_bidder bob_row)
                          (df_bids_sorted (H := small_float_str) three_bids)
       ∧ 5 <= m.
Proof.
  apply (maxdiff_is_largest_difference (H := small_float_str) three_bids bob_row 5).
  - unfold bob_row, bids. apply list_elem_of_fmap_2. vm_compute. right. by left.
  - vm_compute. right. by left.
Defined.

(** ** The test partition and the template (cell 13) *)

Lemma filter_fmap_ids (S : list string) (combo : list combo_row) :
  combo_bidder_id <$> filter (λ r, combo_bidder_id r ∈ S) combo
  = filter (λ a, a ∈ S) (combo_bidder_id <$> combo).
Proof.
  induction combo as [|r combo IH]; [done|].
  rewrite fmap_cons, (filter_cons _ r), (filter_cons _ (combo_bidder_id r)).
  destruct (decide (combo_bidder_id r ∈ S)); [rewrite fmap_cons|]; by rewrite IH.
Qed.

Lemma ids_df_combo `{FloatStr} (df_bids : list bid_row)
    (df_train : list train_row) (df_test : list test_row) :
  combo_bidder_id <$> df_combo df_bids df_train df_test
  = combo_bidder_id <$> append_rosters df_train df_test.
Proof.
  pose proof (df_combo_roster df_bids df_train df_test) as Hr.
  apply (f_equal (fmap fst)) in Hr. by rewrite <- !list_fmap_compose in Hr.
Qed.

(** X24: when no bidder is twice on the two rosters together, none is
    twice on the template, and every bidder of the template is on a roster,
    the test partition has exactly the bidders of the template, each in
    one row; its order is that of the rosters. *)
Theorem test_dat_matches_template `{FloatStr} (df_bids : list bid_row)
    (df_train : list train_row) (df_test : list test_row) (sample : list sample_row) :
  NoDup (combo_bidder_id <$> append_rosters df_train df_test) ->
  NoDup (sample_bidder_id <$> sample) ->
  (∀ a, a ∈ sample_bidder_id <$> sample ->
        a ∈ combo_bidder_id <$> append_rosters df_train df_test) ->
  combo_bidder_id <$> test_dat sample (df_combo df_bids df_train df_test)
  ≡ₚ sample_bidder_id <$> sample
  ∧ length (test_dat sample (df_combo df_bids df_train df_test)) = length sample
  ∧ combo_bidder_id <$> test_dat sample (df_combo df_bids df_train df_test)
    `sublist_of` combo_bidder_id <$> append_rosters df_train df_test.
Proof.
  intros Hnd Hs Hsub. unfold test_dat. rewrite filter_fmap_ids, ids_df_combo.
  assert (filter (λ a, a ∈ sample_bidder_id <$> sample)
            (combo_bidder_id <$> append_rosters df_train df_test)
          ≡ₚ sample_bidder_id <$> sample) as Hp.
  { apply NoDup_Permutation; [by apply NoDup_filter|done|].
    intros a. rewrite list_elem_of_filter. split; [by intros [? _]|]. auto. }
  split; [done|]. split; [|apply sublist_filter].
  rewrite <- (length_fmap combo_bidder_id), filter_fmap_ids, ids_df_combo.
  rewrite (Permutation_length Hp). by rewrite length_fmap.
Qed.

Lemma test_dat_matches_template_witness :
  combo_bidder_id
    <$> test_dat two_sample (df_combo (H := small_float_str) three_bids two_train two_test)
  ≡ₚ sample_bidder_id <$> two_sample
  ∧ length (test_dat two_sample
              (df_combo (H := small_float_str) three_bids two_train two_test))
    = length two_sample
  ∧ combo_bidder_id
      <$> test_dat two_sample (df_combo (H := small_float_str) three_bids two_train two_test)
    `sublist_of` combo_bidder_id <$> append_rosters two_train two_test.
Proof.
  apply (test_dat_matches_template (H := small_float_str) three_bids two_train two_test
           two_sample).
  - apply (bool_decide_unpack _). by vm_compute.
  - apply (bool_decide_unpack _). by vm_compute.
  - intros a Ha. cbn in Ha.
    repeat (apply elem_of_cons in Ha as [->|Ha]); [..|by apply elem_of_nil in Ha];
      cbn; repeat constructor.
Defined.
